(** * QuadNodeCartesianEuclid: a region quadtree over the Euclidean plane

    Shallow embedding of the class template [QuadNodeCartesianEuclid<T>]
    (header [QuadNodeCartesianEuclid.h]), of the point arithmetic it relies
    on, and of the class template [Point<T>] (header [Point.h]).

    Conventions of the embedding.
    - A C++ [double] is read as an exact real number ([R]); rounding,
      infinities and NaN are outside the model.
    - [index] and [count] are [int64_t] ([Point.h]); they are read as [Z],
      no overflow is modelled.  The [unsigned capacity] is a [Z] as well.
    - The element type [T] is instantiated with [index], as the users of the
      tree do ([reindex] stores indices into [content]).
    - A [vector] is a [list]; [push_back] appends at the end.
    - Every [assert] is kept: a failing assertion, like an access outside a
      vector, ends the run with [Abort].  Functions whose recursion is not
      structural take a fuel argument and answer [OutOfFuel] when it is used
      up. *)

From Stdlib Require Import Reals Lra Lia ZArith List Bool Permutation Sorted.
Import ListNotations.

Local Open Scope R_scope.

(** ** Comparisons of doubles as booleans *)

Definition Rltb (x y : R) : bool := if Rlt_dec x y then true else false.
Definition Rleb (x y : R) : bool := if Rle_dec x y then true else false.
Definition Reqb (x y : R) : bool := if Req_dec_T x y then true else false.

(** [std::numeric_limits<double>::max()] *)
Definition DBL_MAX : R := (2 - / 2 ^ 52) * 2 ^ 1023.

(** Conversion of a double to a signed integer: the fractional part is
    discarded (truncation towards zero). *)
Definition trunc (x : R) : Z :=
  if Rle_dec 0 x then Int_part x else (- Int_part (- x))%Z.

(** ** Outcome of a run *)

Inductive outcome (A : Type) : Type :=
| Ok (a : A)
| Abort
| OutOfFuel.

Arguments Ok {A} a.
Arguments Abort {A}.
Arguments OutOfFuel {A}.

Definition bind {A B : Type} (c : outcome A) (k : A -> outcome B) : outcome B :=
  match c with
  | Ok a => k a
  | Abort => Abort
  | OutOfFuel => OutOfFuel
  end.

Notation "x <- c ;; k" := (bind c (fun x => k))
  (at level 61, c at next level, right associativity).
Notation "' p <- c ;; k" := (bind c (fun p => k))
  (at level 61, p pattern, c at next level, right associativity).
Notation "c ;;; k" := (bind c (fun _ => k))
  (at level 61, right associativity).

Definition assert (b : bool) : outcome unit := if b then Ok tt else Abort.

(** ** Points of any dimension *)

(** [Point<T>] of [Point.h], with [T] a [double]: the vector [data] of the
    coordinates.  [data.at(dim)] throws outside the vector; the exception
    ends the run like a failed assertion does. *)
Module Point.

Definition Point : Type := list R.

(** [Point()] *)
Definition defaultPoint : Point := [0; 0].

(** [getDimensions()] *)
Definition getDimensions (p : Point) : Z := Z.of_nat (length p).

(** [data.at(dim)]: the [index] is converted to an unsigned size, so that a
    negative one is far outside every vector. *)
Definition at_ (p : Point) (dim : Z) : option R :=
  if (dim <? 0)%Z then None else nth_error p (Z.to_nat dim).

(** [getValue(dim)] *)
Definition getValue (p : Point) (dim : Z) : outcome R :=
  match at_ p dim with
  | Some v => Ok v
  | None => Abort
  end.

(** The vector with entry [i] replaced, for [i] inside the vector. *)
Fixpoint replaceAt (p : Point) (i : nat) (value : R) : Point :=
  match p, i with
  | [], _ => []
  | _ :: p', O => value :: p'
  | x :: p', S i' => x :: replaceAt p' i' value
  end.

(** [setValue(dim, value)] *)
Definition setValue (p : Point) (dim : Z) (value : R) : outcome Point :=
  match at_ p dim with
  | Some _ => Ok (replaceAt p (Z.to_nat dim) value)
  | None => Abort
  end.

(** The loop [for (i = 0; i < data.size(); ++i)] of [squaredDistance], run
    after the assertion that both vectors have one size. *)
Fixpoint sumSquaredDiffs (p q : Point) (dist : R) : R :=
  match p, q with
  | x :: p', y :: q' => sumSquaredDiffs p' q' (dist + (x - y) * (x - y))
  | _, _ => dist
  end.

(** [squaredDistance(p)] *)
Definition squaredDistance (this p : Point) : outcome R :=
  assert (length this =? length p)%nat ;;;
  Ok (sumSquaredDiffs this p 0).

(** [distance(p)] *)
Definition distance (this p : Point) : outcome R :=
  d <- squaredDistance this p ;; Ok (sqrt d).

(** [length()] *)
Definition length (this : Point) : R :=
  sqrt (fold_left (fun len diff => len + diff * diff) this 0).

(** The loop of [operator+=]. *)
Fixpoint addCoordinates (p q : Point) : Point :=
  match p, q with
  | x :: p', y :: q' => (x + y) :: addCoordinates p' q'
  | _, _ => p
  end.

(** [operator+=(p)]: the point after the call. *)
Definition plusAssign (this p : Point) : outcome Point :=
  assert (List.length this =? List.length p)%nat ;;;
  Ok (addCoordinates this p).

(** [scale(factor)]: the point after the call. *)
Definition scale (this : Point) (factor : R) : Point :=
  map (fun x => x * factor) this.

End Point.

(** ** Points *)

(** Modelled from the spec: [Point2D<double>] is declared in a geometry header
    that is not part of the sources at hand; the spec describes it as the
    collaborator "exposing coordinate access and Euclidean distance".  The
    arithmetic follows [Point<T>] of [Point.h] at dimension two: the loops of
    [squaredDistance] and [length] start from zero and add one square per
    coordinate. *)
Record Point2D : Type := mkPoint { getX : R; getY : R }.

Definition squaredDistance (p q : Point2D) : R :=
  0 + (getX p - getX q) * (getX p - getX q)
    + (getY p - getY q) * (getY p - getY q).

Definition distance (p q : Point2D) : R := sqrt (squaredDistance p q).

Definition length2D (p : Point2D) : R :=
  sqrt (0 + getX p * getX p + getY p * getY p).

(** ** Nodes *)

(** The template parameter [T], instantiated with [index]. *)
Abbreviation T := Z (only parsing).

(** [static const unsigned coarsenLimit = 4] *)
Definition coarsenLimit : Z := 4.
(** [10E15], a [long unsigned] *)
Definition sanityNodeLimit : Z := 10000000000000000.

(** The value of a signed 64-bit integer once converted to [long unsigned],
    as happens to an element compared with [sanityNodeLimit]. *)
Definition asUnsigned (x : Z) : Z := (x mod 2 ^ 64)%Z.

(** [x < sanityNodeLimit] for an element [x] *)
Definition belowSanityLimit (x : T) : bool :=
  (asUnsigned x <? sanityNodeLimit)%Z.

#[local] Set Warnings "-register-all".

(** The data members of the class. [lowerBoundR] is left out: no member
    function reads or writes it. *)
Inductive QuadNode : Type := mkNode {
  minX : R;
  minY : R;
  maxX : R;
  maxY : R;
  capacity : Z;
  subTreeSize : Z;
  content : list T;
  positions : list Point2D;
  isLeaf : bool;
  splitTheoretical : bool;
  ID : Z;
  children : list QuadNode
}.

(** The four-argument constructor. *)
Definition newNode (lower upper : Point2D) (cap : Z) (theoretical : bool)
  : QuadNode :=
  {| minX := getX lower; minY := getY lower;
     maxX := getX upper; maxY := getY upper;
     capacity := cap; subTreeSize := 0;
     content := []; positions := [];
     isLeaf := true; splitTheoretical := theoretical;
     ID := 0; children := [] |}.

(** The default constructor ("This should never be called"); the vectors
    start empty. *)
Definition defaultNode : QuadNode :=
  {| minX := 0; minY := 0; maxX := 0; maxY := 0;
     capacity := 20; subTreeSize := 0;
     content := []; positions := [];
     isLeaf := true; splitTheoretical := false;
     ID := 0; children := [] |}.

(** Field updates. *)
Definition setBuffers (n : QuadNode) (c : list T) (p : list Point2D) :=
  mkNode (minX n) (minY n) (maxX n) (maxY n) (capacity n) (subTreeSize n)
         c p (isLeaf n) (splitTheoretical n) (ID n) (children n).

Definition setSubTreeSize (n : QuadNode) (s : Z) :=
  mkNode (minX n) (minY n) (maxX n) (maxY n) (capacity n) s
         (content n) (positions n) (isLeaf n) (splitTheoretical n) (ID n)
         (children n).

Definition setChildren (n : QuadNode) (l : bool) (cs : list QuadNode) :=
  mkNode (minX n) (minY n) (maxX n) (maxY n) (capacity n) (subTreeSize n)
         (content n) (positions n) l (splitTheoretical n) (ID n) cs.

Definition setID (n : QuadNode) (i : Z) :=
  mkNode (minX n) (minY n) (maxX n) (maxY n) (capacity n) (subTreeSize n)
         (content n) (positions n) (isLeaf n) (splitTheoretical n) i
         (children n).

(** [size()] *)
Definition size (n : QuadNode) : Z :=
  if isLeaf n then Z.of_nat (length (content n)) else subTreeSize n.

(** [responsible(pos)] *)
Definition responsible (n : QuadNode) (pos : Point2D) : bool :=
  Rleb (minX n) (getX pos) && Rleb (minY n) (getY pos)
  && Rltb (getX pos) (maxX n) && Rltb (getY pos) (maxY n).

(** ** Distance bounds of a region *)

(** The lambda [updateMinMax]; the pair is (minDistance, maxDistance). *)
Definition updateMinMax (query pos : Point2D) (mm : R * R) : R * R :=
  let extremalValue := distance pos query in
  (Rmin (fst mm) extremalValue, Rmax extremalValue (snd mm)).

(** The candidate points fed to [updateMinMax], in the order of the code. *)
Definition boundaryCandidates (n : QuadNode) (query : Point2D) : list Point2D :=
  (if Rltb (minX n) (getX query) && Rltb (getX query) (maxX n)
   then [mkPoint (getX query) (maxY n); mkPoint (getX query) (minY n)]
   else [])
  ++ (if Rltb (minY n) (getY query) && Rltb (getY query) (maxY n)
      then [mkPoint (maxX n) (getY query); mkPoint (minX n) (getY query)]
      else [])
  ++ [mkPoint (minX n) (minY n); mkPoint (minX n) (maxY n);
      mkPoint (maxX n) (minY n); mkPoint (maxX n) (maxY n)].

(** The pair held by [minDistance] and [maxDistance] when the two closing
    assertions are reached. *)
Definition distanceBounds (n : QuadNode) (query : Point2D) : R * R :=
  fold_left (fun mm pos => updateMinMax query pos mm)
            (boundaryCandidates n query)
            ((if responsible n query then 0 else DBL_MAX), 0).

(** [EuclideanDistances(query)] *)
Definition EuclideanDistances (n : QuadNode) (query : Point2D)
  : outcome (R * R) :=
  let mm := distanceBounds n query in
  assert (Rltb (fst mm)
               (length2D query + length2D (mkPoint (maxX n) (maxY n)))) ;;;
  assert (Rltb (fst mm) (snd mm)) ;;;
  Ok mm.

(** [outOfReach(query, radius)] *)
Definition outOfReach (n : QuadNode) (query : Point2D) (radius : R)
  : outcome bool :=
  mm <- EuclideanDistances n query ;;
  Ok (Rltb radius (fst mm)).

(** ** Sorting *)

(** [std::sort(first, last, comp)].  The standard leaves the order of
    equivalent elements open; the model is an insertion sort, and the
    properties proved of it (a permutation, ordered by [comp]) are those every
    conforming implementation shares. *)
Fixpoint insertSorted {A : Type} (comp : A -> A -> bool) (x : A) (l : list A)
  : list A :=
  match l with
  | [] => [x]
  | y :: l' => if comp x y then x :: l else y :: insertSorted comp x l'
  end.

Definition std_sort {A : Type} (comp : A -> A -> bool) (l : list A) : list A :=
  fold_right (insertSorted comp) [] l.

(** ** Splitting a leaf *)

(** [split()] *)
Definition split (n : QuadNode) : outcome QuadNode :=
  assert (isLeaf n) ;;;
  middle <-
    (if splitTheoretical n then
       Ok (mkPoint ((minX n + maxX n) / 2) ((minY n + maxY n) / 2))
     else
       let numPoints := length (positions n) in
       let sortedX := std_sort Rltb (map getX (positions n)) in
       let sortedY := std_sort Rltb (map getY (positions n)) in
       assert (length sortedX =? numPoints)%nat ;;;
       assert (length sortedY =? numPoints)%nat ;;;
       match nth_error sortedX (numPoints / 2),
             nth_error sortedY (numPoints / 2) with
       | Some middleX, Some middleY => Ok (mkPoint middleX middleY)
       | _, _ => Abort
       end) ;;
  let middleX := getX middle in
  let middleY := getY middle in
  assert (Rltb (minX n) middleX) ;;;
  assert (Rltb middleX (maxX n)) ;;;
  assert (Rltb (minY n) middleY) ;;;
  assert (Rltb middleY (maxY n)) ;;;
  let southwest := newNode (mkPoint (minX n) (minY n)) middle
                           (capacity n) (splitTheoretical n) in
  let southeast := newNode (mkPoint middleX (minY n)) (mkPoint (maxX n) middleY)
                           (capacity n) (splitTheoretical n) in
  let northwest := newNode (mkPoint (minX n) middleY) (mkPoint middleX (maxY n))
                           (capacity n) (splitTheoretical n) in
  let northeast := newNode middle (mkPoint (maxX n) (maxY n))
                           (capacity n) (splitTheoretical n) in
  let cs := [southwest; southeast; northwest; northeast] in
  assert (forallb isLeaf cs) ;;;
  Ok (setChildren n false cs).

(** ** Insertion *)

(** The loop over the children in the internal branch of [addContent]: the
    first responsible child receives the element; the closing
    [assert(foundResponsibleChild)] fails when the loop finds none. *)
Fixpoint addToResponsibleChild (add : QuadNode -> outcome QuadNode)
  (pos : Point2D) (cs : list QuadNode) : outcome (list QuadNode) :=
  match cs with
  | [] => Abort
  | c :: cs' =>
      if responsible c pos then
        c' <- add c ;; Ok (c' :: cs')
      else
        cs'' <- addToResponsibleChild add pos cs' ;; Ok (c :: cs'')
  end.

(** The loop that hands the buffered elements to the new children, one call
    of [add] on the node itself per buffered pair.  The node is internal by
    then, so the calls leave [content] and [positions] as they are, and the
    entry assertion of [addContent] has checked that the two are of one
    length. *)
Fixpoint reAdd (add : T -> Point2D -> QuadNode -> outcome QuadNode)
  (buffered : list (T * Point2D)) (n : QuadNode) : outcome QuadNode :=
  match buffered with
  | [] => Ok n
  | ip :: rest => m <- add (fst ip) (snd ip) n ;; reAdd add rest m
  end.

Definition reAddAll (add : T -> Point2D -> QuadNode -> outcome QuadNode)
  (n : QuadNode) : outcome QuadNode :=
  reAdd add (combine (content n) (positions n)) n.

(** [addContent(input, pos)] *)
Fixpoint addContent (fuel : nat) (input : T) (pos : Point2D) (n : QuadNode)
  : outcome QuadNode :=
  match fuel with
  | O => OutOfFuel
  | S fuel' =>
      assert (belowSanityLimit input) ;;;
      assert (length (content n) =? length (positions n))%nat ;;;
      assert (responsible n pos) ;;;
      if isLeaf n then
        if (Z.of_nat (length (content n)) + 1 <? capacity n)%Z then
          Ok (setBuffers n (content n ++ [input]) (positions n ++ [pos]))
        else
          n1 <- split n ;;
          n2 <- reAddAll (addContent fuel') n1 ;;
          assert (subTreeSize n2 =? Z.of_nat (length (content n2)))%Z ;;;
          let n3 := setSubTreeSize n2 (Z.of_nat (length (content n2))) in
          addContent fuel' input pos (setBuffers n3 [] [])
      else
        assert (0 <? length (children n))%nat ;;;
        cs <- addToResponsibleChild (addContent fuel' input pos) pos
                                    (children n) ;;
        Ok (setSubTreeSize (setChildren n (isLeaf n) cs) (subTreeSize n + 1))
  end.

(** ** Removal *)

(** Index of the first entry equal to [input], the length when there is none. *)
Fixpoint findIndex (input : T) (c : list T) : nat :=
  match c with
  | [] => O
  | x :: c' => if (x =? input)%Z then O else S (findIndex input c')
  end.

(** [v.erase(v.begin() + i)] *)
Definition erase {A : Type} (i : nat) (l : list A) : list A :=
  firstn i l ++ skipn (S i) l.

(** The loop over the children in the internal branch of [removeContent];
    [removed] and [allLeaves] are the two flags of the code. *)
Definition removeFromChildren (remove : QuadNode -> outcome (bool * QuadNode))
  : list QuadNode -> bool -> bool -> outcome (list QuadNode * bool * bool) :=
  fix loop (cs : list QuadNode) (removed allLeaves : bool) :=
    match cs with
    | [] => Ok ([], removed, allLeaves)
    | c :: cs' =>
        let allLeaves' := if isLeaf c then allLeaves else false in
        rc <- remove c ;;
        removed' <- (if fst rc then assert (negb removed) ;;; Ok true
                     else Ok removed) ;;
        r <- loop cs' removed' allLeaves' ;;
        Ok (snd rc :: fst (fst r), snd (fst r), snd r)
    end.

(** [removeContent(input, pos)] *)
Fixpoint removeContent (input : T) (pos : Point2D) (n : QuadNode) {struct n}
  : outcome (bool * QuadNode) :=
  if negb (responsible n pos) then Ok (false, n)
  else if isLeaf n then
    let i := findIndex input (content n) in
    if (i <? length (content n))%nat then
      match nth_error (positions n) i with
      | None => Abort
      | Some p =>
          assert (Reqb (distance p pos) 0) ;;;
          Ok (true, setBuffers n (erase i (content n)) (erase i (positions n)))
      end
    else Ok (false, n)
  else
    assert (0 <? length (children n))%nat ;;;
    r <- removeFromChildren (removeContent input pos) (children n) false true ;;
    let removed := snd (fst r) in
    let allLeaves := snd r in
    let n1 := setChildren n (isLeaf n) (fst (fst r)) in
    let n2 := if removed then setSubTreeSize n1 (subTreeSize n1 - 1) else n1 in
    if removed && allLeaves && (size n2 <? coarsenLimit)%Z then
      let allContent := flat_map content (children n2) in
      let allPositions := flat_map positions (children n2) in
      assert (length allContent =? length allPositions)%nat ;;;
      Ok (removed, setBuffers (setChildren n2 true []) allContent allPositions)
    else Ok (removed, n2).

(** ** Traversals *)

(** A loop [for (i = 0; i < children.size(); i++)] that threads a value
    through one call per child. *)
Definition throughChildren {S : Type} (f : QuadNode -> S -> outcome S)
  : list QuadNode -> S -> outcome S :=
  fix loop (cs : list QuadNode) (s : S) :=
    match cs with
    | [] => Ok s
    | c :: cs' => s' <- f c s ;; loop cs' s'
    end.

(** The same loop when the calls also change the children. *)
Definition updateChildren {S : Type}
  (f : QuadNode -> S -> outcome (S * QuadNode))
  : list QuadNode -> S -> outcome (S * list QuadNode) :=
  fix loop (cs : list QuadNode) (s : S) :=
    match cs with
    | [] => Ok (s, [])
    | c :: cs' =>
        r <- f c s ;;
        rs <- loop cs' (fst r) ;;
        Ok (fst rs, snd r :: snd rs)
    end.

(** A loop [for (int i = 0; i < 4; i++)] over [children[i]]: it reads the
    first [k] children and fails on a vector that is shorter. *)
Definition updateFirstChildren {S : Type}
  (f : QuadNode -> S -> outcome (S * QuadNode))
  : nat -> list QuadNode -> S -> outcome (S * list QuadNode) :=
  fix loop (k : nat) (cs : list QuadNode) (s : S) :=
    match k with
    | O => Ok (s, cs)
    | S k' =>
        match cs with
        | [] => Abort
        | c :: cs' =>
            r <- f c s ;;
            rs <- loop k' cs' (fst r) ;;
            Ok (fst rs, snd r :: snd rs)
        end
    end.

(** A reading loop [for (int i = 0; i < 4; i++)] over [children[i]]. *)
Definition throughFirstChildren {S : Type} (f : QuadNode -> S -> outcome S)
  : nat -> list QuadNode -> S -> outcome S :=
  fix loop (k : nat) (cs : list QuadNode) (s : S) :=
    match k with
    | O => Ok s
    | S k' =>
        match cs with
        | [] => Abort
        | c :: cs' => s' <- f c s ;; loop k' cs' s'
        end
    end.

(** The loop of [getCellID]: the first of [children[0..k-1]] whose answer is
    not negative ends it; a loop that runs to its end meets
    [assert(false)]. *)
Definition firstCellID (f : QuadNode -> outcome Z)
  : nat -> list QuadNode -> outcome Z :=
  fix loop (k : nat) (cs : list QuadNode) :=
    match k with
    | O => Abort
    | S k' =>
        match cs with
        | [] => Abort
        | c :: cs' =>
            childresult <- f c ;;
            if (0 <=? childresult)%Z then Ok childresult else loop k' cs'
        end
    end.

(** [getElements()] *)
Fixpoint getElements (n : QuadNode) : outcome (list T) :=
  if isLeaf n then Ok (content n)
  else
    assert (length (content n) =? 0)%nat ;;;
    assert (length (positions n) =? 0)%nat ;;;
    throughChildren
      (fun c result => subresult <- getElements c ;; Ok (result ++ subresult))
      (children n) [].

(** [getCoordinates(pointContainer)] *)
Fixpoint getCoordinates (n : QuadNode) (pointContainer : list Point2D)
  : outcome (list Point2D) :=
  if isLeaf n then Ok (pointContainer ++ positions n)
  else
    assert (length (content n) =? 0)%nat ;;;
    assert (length (positions n) =? 0)%nat ;;;
    throughChildren getCoordinates (children n) pointContainer.

(** ** Exact range query *)

(** The scan of a leaf in [getElementsInEuclideanCircle]: index [i] runs over
    [content] and reads [positions[i]]. *)
Fixpoint circleScan (rsq queryX queryY : R) (cs : list T) (ps : list Point2D)
  (result : list T) : outcome (list T) :=
  match cs with
  | [] => Ok result
  | c :: cs' =>
      match ps with
      | [] => Abort
      | p :: ps' =>
          let deltaX := getX p - queryX in
          let deltaY := getY p - queryY in
          if Rltb (deltaX * deltaX + deltaY * deltaY) rsq then
            assert (belowSanityLimit c) ;;;
            circleScan rsq queryX queryY cs' ps' (result ++ [c])
          else circleScan rsq queryX queryY cs' ps' result
      end
  end.

(** [getElementsInEuclideanCircle(center, radius, result)] *)
Fixpoint getElementsInEuclideanCircle (n : QuadNode) (center : Point2D)
  (radius : R) (result : list T) : outcome (list T) :=
  far <- outOfReach n center radius ;;
  if far then Ok result
  else if isLeaf n then
    circleScan (radius * radius) (getX center) (getY center)
               (content n) (positions n) result
  else
    throughChildren
      (fun c res => getElementsInEuclideanCircle c center radius res)
      (children n) result.

(** ** Maintenance *)

(** [v.shrink_to_fit()]: the elements stay, only spare room is given
    back. *)
Definition shrink_to_fit {A : Type} (v : list A) : list A := v.

(** [trim()] *)
Fixpoint trim (n : QuadNode) : QuadNode :=
  let n' := setBuffers n (shrink_to_fit (content n))
                       (shrink_to_fit (positions n)) in
  if negb (isLeaf n) then setChildren n' (isLeaf n) (map trim (children n))
  else n'.

(** [recount()] *)
Fixpoint recount (n : QuadNode) : QuadNode :=
  let cs := map recount (children n) in
  setSubTreeSize (setChildren n (isLeaf n) cs)
                 (fold_left (fun s c => s + size c)%Z cs 0%Z).

(** [countLeaves()] *)
Fixpoint countLeaves (n : QuadNode) : Z :=
  if isLeaf n then 1%Z
  else fold_left (fun s c => s + countLeaves c)%Z (children n) 0%Z.

(** [height()] *)
Fixpoint height (n : QuadNode) : Z :=
  fold_left (fun result child => Z.max result (height child + 1))%Z
            (children n) 1%Z.

(** [getID()] *)
Definition getID (n : QuadNode) : Z := ID n.

(** [indexSubtree(nextID)]: the pair is the returned index and the node
    after the call. *)
Fixpoint indexSubtree (n : QuadNode) (nextID : Z) : outcome (Z * QuadNode) :=
  assert ((length (children n) =? 4)%nat || (length (children n) =? 0)%nat) ;;;
  r <- updateChildren indexSubtree (children n) nextID ;;
  let result := fst r in
  Ok ((result + 1)%Z, setID (setChildren n (isLeaf n) (snd r)) result).

(** [getCellID(pos)] *)
Fixpoint getCellID (n : QuadNode) (pos : Point2D) : outcome Z :=
  if negb (responsible n pos) then Ok (-1)%Z
  else if isLeaf n then Ok (getID n)
  else firstCellID (fun c => getCellID c pos) 4 (children n).

(** [getMaxIDInSubtree()] *)
Fixpoint getMaxIDInSubtree (n : QuadNode) : outcome Z :=
  if isLeaf n then Ok (getID n)
  else
    result <- throughFirstChildren
                (fun c result =>
                   m <- getMaxIDInSubtree c ;; Ok (Z.max m result))
                4 (children n) (-1)%Z ;;
    Ok (Z.max result (getID n)).

(** [std::generate(content.begin(), content.end(), [&p](){return p++;})] *)
Fixpoint generateFrom (p : Z) (c : list T) : list T :=
  match c with
  | [] => []
  | _ :: c' => p :: generateFrom (p + 1)%Z c'
  end.

(** [reindex(offset)] *)
Fixpoint reindex (n : QuadNode) (offset : Z) : outcome (Z * QuadNode) :=
  if isLeaf n then
    let n' := setBuffers n (generateFrom offset (content n)) (positions n) in
    Ok ((offset + size n')%Z, n')
  else
    r <- updateFirstChildren reindex 4 (children n) offset ;;
    Ok (fst r, setChildren n (isLeaf n) (snd r)).

(** The body of the task in [sortPointsInLeaves]: [permutation] is the
    sorted vector of indices; reading [content[perm]] or [positions[perm]]
    outside the vector fails. *)
Definition sortLeaf (n : QuadNode) : outcome QuadNode :=
  let cs := length (content n) in
  assert (cs <=? length (positions n))%nat ;;;
  let xOf := fun i : nat => getX (nth i (positions n) (mkPoint 0 0)) in
  let permutation :=
    std_sort (fun i j => Rltb (xOf i) (xOf j)) (seq 0 cs) in
  let pick := fun (A : Type) (v : list A) =>
    fold_right (fun perm acc =>
                  rest <- acc ;;
                  match nth_error v perm with
                  | Some x => Ok (x :: rest)
                  | None => Abort
                  end) (Ok []) permutation in
  contentcopy <- pick T (content n) ;;
  positioncopy <- pick Point2D (positions n) ;;
  Ok (setBuffers n contentcopy positioncopy).

(** [sortPointsInLeaves()] *)
Fixpoint sortPointsInLeaves (n : QuadNode) : outcome QuadNode :=
  if isLeaf n then sortLeaf n
  else
    r <- updateFirstChildren
           (fun c (_ : unit) => c' <- sortPointsInLeaves c ;; Ok (tt, c'))
           4 (children n) tt ;;
    Ok (setChildren n (isLeaf n) (snd r)).

(** ** Probabilistic neighbourhood query *)

Section Probabilistic.

(** The caller's probability function, [std::log], and the stream of
    values that successive calls of [Aux::Random::real()] return. *)
Variable prob : R -> R.
Variable log : R -> R.
Variable real : nat -> R.

(** State threaded through a query: how many random values have been
    drawn, and the result vector. *)
Definition sampling : Type := (nat * list T)%type.

Definition push_back (st : sampling) (x : T) : sampling :=
  (fst st, snd st ++ [x]).

Definition drawn (st : sampling) : sampling := (S (fst st), snd st).

(** [maybeGetKthElement(upperBound, euQuery, prob, k, circleDenizens)] *)
Fixpoint maybeGetKthElement (n : QuadNode) (upperBound : R)
  (euQuery : Point2D) (k : Z) (st : sampling) : outcome sampling :=
  assert (k <? size n)%Z ;;;
  if isLeaf n then
    assert (0 <=? k)%Z ;;;
    match nth_error (positions n) (Z.to_nat k) with
    | None => Abort
    | Some p =>
        let acceptance := prob (distance euQuery p) / upperBound in
        if Rltb (real (fst st)) acceptance then
          match nth_error (content n) (Z.to_nat k) with
          | None => Abort
          | Some c => Ok (push_back (drawn st) c)
          end
        else Ok (drawn st)
    end
  else
    (fix loop (cs : list QuadNode) (offset : Z) : outcome sampling :=
       match cs with
       | [] => Ok st
       | c :: cs' =>
           let childsize := size c in
           if (k - offset <? childsize)%Z then
             maybeGetKthElement c upperBound euQuery (k - offset)%Z st
           else loop cs' (offset + childsize)%Z
       end) (children n) 0%Z.

(** The jump [delta = log(random) / probdenom; assert(delta >= 0);
    i += delta]: the new index and the state after the draw. *)
Definition jump (probdenom : R) (i : Z) (st : sampling)
  : outcome (Z * sampling) :=
  let random := real (fst st) in
  let delta := log random / probdenom in
  assert (Rleb 0 delta) ;;;
  Ok (trunc (IZR i + delta), drawn st).

(** The loop of the leaf branch, from index [i] on.  Every round moves [i]
    forward by one at least, so [fuel] above the buffer length is never
    used up. *)
Fixpoint leafJumpLoop (n : QuadNode) (euQuery : Point2D)
  (distancePair : R * R) (probUB probdenom : R)
  (fuel : nat) (i : Z) (candidatesTested : Z) (st : sampling)
  : outcome (Z * sampling) :=
  match fuel with
  | O => OutOfFuel
  | S fuel' =>
      let lsize := Z.of_nat (length (content n)) in
      if negb (i <? lsize)%Z then Ok (candidatesTested, st)
      else
        js <- (if Rltb probUB 1 then jump probdenom i st else Ok (i, st)) ;;
        let i1 := fst js in
        let st1 := snd js in
        if Rltb probUB 1 && (lsize <=? i1)%Z then Ok (candidatesTested, st1)
        else
          assert (0 <=? i1)%Z ;;;
          match nth_error (positions n) (Z.to_nat i1) with
          | None => Abort
          | Some p =>
              let dist := distance p euQuery in
              assert (Rleb (fst distancePair) dist) ;;;
              assert (Rleb dist (snd distancePair)) ;;;
              let q := prob dist / probUB in
              assert (Rleb q 1) ;;;
              let acc := real (fst st1) in
              st2 <- (if Rltb acc q then
                        match nth_error (content n) (Z.to_nat i1) with
                        | None => Abort
                        | Some c => Ok (push_back (drawn st1) c)
                        end
                      else Ok (drawn st1)) ;;
              leafJumpLoop n euQuery distancePair probUB probdenom fuel'
                           (i1 + 1)%Z (candidatesTested + 1)%Z st2
          end
  end.

(** The loop of the direct candidate selection of an internal node. *)
Fixpoint directJumpLoop (n : QuadNode) (euQuery : Point2D)
  (probUB probdenom : R)
  (fuel : nat) (i : Z) (candidatesTested : Z) (st : sampling)
  : outcome (Z * sampling) :=
  match fuel with
  | O => OutOfFuel
  | S fuel' =>
      let stsize := size n in
      if negb (i <? stsize)%Z then Ok (candidatesTested, st)
      else
        js <- jump probdenom i st ;;
        let i1 := fst js in
        if (i1 <? size n)%Z then
          st2 <- maybeGetKthElement n probUB euQuery i1 (snd js) ;;
          directJumpLoop n euQuery probUB probdenom fuel'
                         (i1 + 1)%Z (candidatesTested + 1)%Z st2
        else Ok (candidatesTested, snd js)
  end.

(** The test [expectedNeighbours < 4 || probUB < 1/1000] that sends an
    internal node to the direct candidate selection.  Both operands of
    [1/1000] are [int] literals: the quotient is the integer division. *)
Definition selectsDirectly (expectedNeighbours : Z) (probUB : R) : bool :=
  (expectedNeighbours <? 4)%Z || Rltb probUB (IZR (Z.quot 1 1000)).

(** [getElementsProbabilistically(euQuery, prob, result)]: the returned
    count of tested candidates and the state after the call. *)
Fixpoint getElementsProbabilistically (n : QuadNode) (euQuery : Point2D)
  (st : sampling) : outcome (Z * sampling) :=
  distancePair <- EuclideanDistances n euQuery ;;
  let probUB0 := prob (fst distancePair) in
  let probLB := prob (snd distancePair) in
  assert (Rleb probLB probUB0) ;;;
  let probUB := if Rltb 0.5 probUB0 then 1 else probUB0 in
  if Reqb probUB 0 then Ok (0%Z, st)
  else
    let probdenom := log (1 - probUB) in
    if Reqb probdenom 0 then Ok (0%Z, st)
    else
      let expectedNeighbours := trunc (probUB * IZR (size n)) in
      let incomingNeighbours := Z.of_nat (length (snd st)) in
      let ownsize := size n in
      r <- (if isLeaf n then
              leafJumpLoop n euQuery distancePair probUB probdenom
                           (S (length (content n))) 0%Z 0%Z st
            else if selectsDirectly expectedNeighbours probUB then
              assert (Rltb probUB 1) ;;;
              directJumpLoop n euQuery probUB probdenom
                             (S (Z.to_nat (size n))) 0%Z 0%Z st
            else
              throughChildren
                (fun c acc =>
                   r <- getElementsProbabilistically c euQuery (snd acc) ;;
                   Ok ((fst acc + fst r)%Z, snd r))
                (children n) (0%Z, st)) ;;
      let finalNeighbours := Z.of_nat (length (snd (snd r))) in
      (if Reqb probLB 1 then
         assert (finalNeighbours =? incomingNeighbours + ownsize)%Z
       else Ok tt) ;;;
      Ok r.

End Probabilistic.

(** * Specification side *)

(** The stored (identifier, position) pairs of a subtree, leaf by leaf in
    the order of the children: what a scan of the whole tree visits. *)
Fixpoint storedPairs (n : QuadNode) : list (T * Point2D) :=
  if isLeaf n then combine (content n) (positions n)
  else flat_map storedPairs (children n).

(** The brute-force answer to a circle query: the identifiers of the stored
    pairs whose distance to [center] is strictly below [radius]. *)
Definition bruteForceCircle (n : QuadNode) (center : Point2D) (radius : R)
  : list T :=
  map fst (filter (fun ip => Rltb (distance (snd ip) center) radius)
                  (storedPairs n)).

(** Sum of [size()] over a list of children. *)
Definition sumSizes (cs : list QuadNode) : Z :=
  fold_right (fun c s => size c + s)%Z 0%Z cs.

(** The four bounds of a node's rectangle. *)
Definition region (n : QuadNode) : R * R * R * R :=
  (minX n, minY n, maxX n, maxY n).

(** The children are the four quadrants around [(mx, my)], in the order
    southwest, southeast, northwest, northeast. *)
Definition quadrants (n : QuadNode) (mx my : R) (cs : list QuadNode) : Prop :=
  map region cs =
  [ (minX n, minY n, mx, my); (mx, minY n, maxX n, my);
    (minX n, my, mx, maxY n); (mx, my, maxX n, maxY n) ].

(** The data-model invariants of a node outside of a mutation.  A leaf has
    no children, buffers of one length whose positions lie in its region, and
    holds at most [max (capacity - 1) (coarsenLimit - 1)] elements.  An
    internal node has empty buffers, four children that are the quadrants
    around a strictly interior point, and a cached size that is the sum of
    its children's sizes. *)
Inductive wf : QuadNode -> Prop :=
| wf_leaf n :
    isLeaf n = true ->
    children n = [] ->
    length (content n) = length (positions n) ->
    Forall (fun p => responsible n p = true) (positions n) ->
    (Z.of_nat (length (content n))
     <= Z.max (capacity n - 1) (coarsenLimit - 1))%Z ->
    wf n
| wf_internal n mx my :
    isLeaf n = false ->
    content n = [] ->
    positions n = [] ->
    minX n < mx < maxX n ->
    minY n < my < maxY n ->
    quadrants n mx my (children n) ->
    Forall (fun c => capacity c = capacity n) (children n) ->
    subTreeSize n = sumSizes (children n) ->
    Forall wf (children n) ->
    wf n.

(** Trees built from an empty root by the operations that change a tree,
    each run to completion: insertions and removals, and the maintenance
    operations ([trim] changes nothing in this model). *)
Inductive reachable : QuadNode -> Prop :=
| reach_new lower upper cap theoretical :
    reachable (newNode lower upper cap theoretical)
| reach_add t fuel input pos t' :
    reachable t -> addContent fuel input pos t = Ok t' -> reachable t'
| reach_remove t input pos found t' :
    reachable t -> removeContent input pos t = Ok (found, t') ->
    reachable t'
| reach_sort t t' :
    reachable t -> sortPointsInLeaves t = Ok t' -> reachable t'
| reach_reindex t offset next t' :
    reachable t -> reindex t offset = Ok (next, t') -> reachable t'
| reach_index t nextID next t' :
    reachable t -> indexSubtree t nextID = Ok (next, t') -> reachable t'
| reach_recount t :
    reachable t -> reachable (recount t).

(** An internal node that satisfies the invariant, whatever its
    [subTreeSize] says. *)
Definition inner (n : QuadNode) : Prop :=
  isLeaf n = false /\
  (exists mx my, minX n < mx < maxX n /\ minY n < my < maxY n /\
                 quadrants n mx my (children n)) /\
  Forall (fun c => capacity c = capacity n) (children n) /\
  Forall wf (children n).

(** What a successful [addContent] guarantees: the invariant, the same
    rectangle and capacity, and one more stored pair. *)
Definition addPost (input : T) (pos : Point2D) (n n' : QuadNode) : Prop :=
  wf n' /\ region n' = region n /\ capacity n' = capacity n /\
  Permutation (storedPairs n') ((input, pos) :: storedPairs n).

(** [addContent] with this much fuel meets [addPost] on every tree. *)
Definition addContent_sound (fuel : nat) : Prop :=
  forall input pos n n',
    wf n -> addContent fuel input pos n = Ok n' -> addPost input pos n n'.

(** What [removeContent] guarantees: the tree is unchanged when nothing was
    found, and has lost exactly the pair otherwise. *)
Definition removePost (input : T) (pos : Point2D) (n : QuadNode)
  (found : bool) (n' : QuadNode) : Prop :=
  wf n' /\ region n' = region n /\ capacity n' = capacity n /\
  (isLeaf n = true -> isLeaf n' = true) /\
  (found = false -> n' = n) /\
  (found = true ->
   Permutation (storedPairs n) ((input, pos) :: storedPairs n')).

(** The loop of [EuclideanDistances] over the candidate points. *)
Definition foldBounds (query : Point2D) (l : list Point2D) (mm : R * R) :=
  fold_left (fun mm pos => updateMinMax query pos mm) l mm.

(** The closed rectangle of a node. *)
Definition inClosedRegion (n : QuadNode) (p : Point2D) : Prop :=
  minX n <= getX p <= maxX n /\ minY n <= getY p <= maxY n.

(** The square [-1,1] x [-1,1] with room for one element per leaf, split at
    its midpoint. *)
Definition originSquare : QuadNode :=
  newNode (mkPoint (-1) (-1)) (mkPoint 1 1) 2 true.

(** A leaf over the given rectangle with the given buffers. *)
Definition leafOf (lower upper : Point2D) (cap : Z) (c : list T)
  (p : list Point2D) : QuadNode :=
  setBuffers (newNode lower upper cap true) c p.

(** [originSquare] after the insertion of element 1 at (-1/2,-1/2) and of
    element 2 at (1/2,1/2). *)
Definition splitSquare : QuadNode :=
  setSubTreeSize
    (setChildren originSquare false
       [ leafOf (mkPoint (-1) (-1)) (mkPoint 0 0) 2
                [1%Z] [mkPoint (-1 / 2) (-1 / 2)];
         leafOf (mkPoint 0 (-1)) (mkPoint 1 0) 2 [] [];
         leafOf (mkPoint (-1) 0) (mkPoint 0 1) 2 [] [];
         leafOf (mkPoint 0 0) (mkPoint 1 1) 2
                [2%Z] [mkPoint (1 / 2) (1 / 2)] ])
    2.

(** The point (0,0). *)
Definition origin : Point2D := mkPoint 0 0.

(** The south-west quadrant of [splitSquare]: the square [-1,0] x [-1,0]. *)
Definition southWestCell : QuadNode :=
  leafOf (mkPoint (-1) (-1)) (mkPoint 0 0) 2
         [1%Z] [mkPoint (-1 / 2) (-1 / 2)].

(** Number of nodes of a subtree. *)
Fixpoint countNodes (n : QuadNode) : nat :=
  S (list_sum (map countNodes (children n))).

(** The identifiers of a subtree in post-order: children first, in their
    order, then the node itself. *)
Fixpoint postorderIDs (n : QuadNode) : list Z :=
  flat_map postorderIDs (children n) ++ [ID n].

(** The identifiers of the leaves, in the order of the traversal. *)
Fixpoint leafIDs (n : QuadNode) : list Z :=
  if isLeaf n then [ID n] else flat_map leafIDs (children n).

(** The tree with every identifier reset: what [indexSubtree] leaves as it
    is. *)
Fixpoint clearIDs (n : QuadNode) : QuadNode :=
  setID (setChildren n (isLeaf n) (map clearIDs (children n))) 0.

(** Every node has four children or none. *)
Inductive branching : QuadNode -> Prop :=
| branching_node n :
    (length (children n) = 4 \/ length (children n) = 0)%nat ->
    Forall branching (children n) ->
    branching n.

(** [start, start + 1, ..., start + k - 1] *)
Definition consecutive (start : Z) (k : nat) : list Z :=
  map (fun i => (start + Z.of_nat i)%Z) (seq 0 k).

(** The leaves of a subtree, in the order of the traversal. *)
Fixpoint leaves (n : QuadNode) : list QuadNode :=
  if isLeaf n then [n] else flat_map leaves (children n).

(** [splitSquare] after the insertion of a third element, into the
    south-east quadrant. *)
Definition threeInSquare : QuadNode :=
  setSubTreeSize
    (setChildren originSquare false
       [ leafOf (mkPoint (-1) (-1)) (mkPoint 0 0) 2
                [1%Z] [mkPoint (-1 / 2) (-1 / 2)];
         leafOf (mkPoint 0 (-1)) (mkPoint 1 0) 2
                [3%Z] [mkPoint (1 / 2) (-1 / 2)];
         leafOf (mkPoint (-1) 0) (mkPoint 0 1) 2 [] [];
         leafOf (mkPoint 0 0) (mkPoint 1 1) 2
                [2%Z] [mkPoint (1 / 2) (1 / 2)] ])
    3.

(** [threeInSquare] after the removal of the third element: the root has
    been coarsened to a leaf that holds the two remaining elements. *)
Definition coarsenedSquare : QuadNode :=
  setBuffers (setSubTreeSize originSquare 2)
             [1%Z; 2%Z] [mkPoint (-1 / 2) (-1 / 2); mkPoint (1 / 2) (1 / 2)].

(** The buffer of a leaf as a list of pairs. *)
Definition buffer (l : QuadNode) : list (T * Point2D) :=
  combine (content l) (positions l).

(** The pairing invariant: in every leaf the two buffers have one length. *)
Definition paired (t : QuadNode) : Prop :=
  Forall (fun l => length (content l) = length (positions l)) (leaves t).

(** Order of the pairs by the x-coordinate of the position. *)
Definition byX (a b : T * Point2D) : Prop := getX (snd a) <= getX (snd b).

(** What the batch operations keep of a node: the invariants, the region,
    the capacity, the size, and whether it is a leaf. *)
Definition framePost (n n' : QuadNode) : Prop :=
  wf n' /\ region n' = region n /\ capacity n' = capacity n /\
  size n' = size n /\ isLeaf n' = isLeaf n.

(** What [sortPointsInLeaves] guarantees: leaf by leaf, the same pairs in
    the order of [byX]. *)
Definition sortPost (n n' : QuadNode) : Prop :=
  framePost n n' /\
  Forall2 (fun l l' => Permutation (buffer l') (buffer l) /\
                       StronglySorted byX (buffer l'))
          (leaves n) (leaves n').

(** What [reindex] guarantees: the positions stay, and the elements are the
    consecutive numbers from [offset] on, in the order of the leaves. *)
Definition reindexPost (n : QuadNode) (offset : Z) (n' : QuadNode) : Prop :=
  framePost n n' /\
  map positions (leaves n') = map positions (leaves n) /\
  flat_map content (leaves n') = consecutive offset (length (storedPairs n)).

(** A region that is not degenerate and lies in the half-plane [0 <= x] or
    in the half-plane [0 <= y]. *)
Definition awayFromOrigin (n : QuadNode) : Prop :=
  minX n < maxX n /\ minY n < maxY n /\ (0 <= minX n \/ 0 <= minY n).

(** [splitSquare] once [indexSubtree(start)] has numbered it. *)
Definition numberedSquare (start : Z) : QuadNode :=
  setID
    (setChildren splitSquare false
       [ setID (leafOf (mkPoint (-1) (-1)) (mkPoint 0 0) 2
                       [1%Z] [mkPoint (-1 / 2) (-1 / 2)]) start;
         setID (leafOf (mkPoint 0 (-1)) (mkPoint 1 0) 2 [] []) (start + 1);
         setID (leafOf (mkPoint (-1) 0) (mkPoint 0 1) 2 [] [])
               (start + 1 + 1);
         setID (leafOf (mkPoint 0 0) (mkPoint 1 1) 2
                       [2%Z] [mkPoint (1 / 2) (1 / 2)])
               (start + 1 + 1 + 1) ])
    (start + 1 + 1 + 1 + 1).

(** The unit square [0,1] x [0,1] holding the element 7 at its centre. *)
Definition unitCell : QuadNode :=
  leafOf (mkPoint 0 0) (mkPoint 1 1) 2 [7%Z] [mkPoint (1 / 2) (1 / 2)].

(** What one call of [maybeGetKthElement] does to the state when the
    element looked at is [e], stored at [p]. *)
Definition maybeAccept (prob : R -> R) (real : nat -> R) (upperBound : R)
  (euQuery : Point2D) (e : Z) (p : Point2D) (st : sampling) : sampling :=
  if Rltb (real (fst st)) (prob (distance euQuery p) / upperBound)
  then push_back (drawn st) e else drawn st.

(** Every internal node of the subtree holds four elements at least. *)
Inductive populated : QuadNode -> Prop :=
| populated_leaf n : isLeaf n = true -> populated n
| populated_internal n :
    isLeaf n = false -> (4 <= size n)%Z ->
    Forall populated (children n) -> populated n.



(** The unit square with one element per leaf, after four insertions, one
    into each quadrant. *)
Definition fourInUnit : QuadNode :=
  setSubTreeSize
    (setChildren (newNode (mkPoint 0 0) (mkPoint 1 1) 2 true) false
       [ leafOf (mkPoint 0 0) (mkPoint (1 / 2) (1 / 2)) 2
                [1%Z] [mkPoint (1 / 4) (1 / 4)];
         leafOf (mkPoint (1 / 2) 0) (mkPoint 1 (1 / 2)) 2
                [2%Z] [mkPoint (3 / 4) (1 / 4)];
         leafOf (mkPoint 0 (1 / 2)) (mkPoint (1 / 2) 1) 2
                [3%Z] [mkPoint (1 / 4) (3 / 4)];
         leafOf (mkPoint (1 / 2) (1 / 2)) (mkPoint 1 1) 2
                [4%Z] [mkPoint (3 / 4) (3 / 4)] ])
    4.


(** The nodes of a subtree, the root first. *)
Fixpoint nodes (n : QuadNode) : list QuadNode :=
  n :: flat_map nodes (children n).


(** A leaf of the median rule over the unit square whose one point lies on
    the left edge. *)
Definition edgeLeaf : QuadNode :=
  setBuffers (newNode (mkPoint 0 0) (mkPoint 1 1) 2 false)
             [1%Z] [mkPoint 0 (1 / 2)].

(** * Basic facts *)

Lemma Rltb_true_iff x y : Rltb x y = true <-> x < y.
Proof. unfold Rltb; destruct (Rlt_dec x y); split; intros; try easy. Qed.

Lemma Rltb_false_iff x y : Rltb x y = false <-> y <= x.
Proof.
  unfold Rltb; destruct (Rlt_dec x y); split; intros; try easy; lra.
Qed.

Lemma Rleb_true_iff x y : Rleb x y = true <-> x <= y.
Proof. unfold Rleb; destruct (Rle_dec x y); split; intros; try easy. Qed.

Lemma Rleb_false_iff x y : Rleb x y = false <-> y < x.
Proof.
  unfold Rleb; destruct (Rle_dec x y); split; intros; try easy; lra.
Qed.

Lemma Reqb_true_iff x y : Reqb x y = true <-> x = y.
Proof. unfold Reqb; destruct (Req_dec_T x y); split; intros; try easy. Qed.

Lemma Reqb_false_iff x y : Reqb x y = false <-> x <> y.
Proof. unfold Reqb; destruct (Req_dec_T x y); split; intros; try easy. Qed.

(** Decides the comparisons of concrete reals met while running the model. *)
Ltac rdecide :=
  repeat match goal with
  | |- context [Rltb ?a ?b] =>
      first [ rewrite (proj2 (Rltb_true_iff a b)) by lra
            | rewrite (proj2 (Rltb_false_iff a b)) by lra ]
  | |- context [Rleb ?a ?b] =>
      first [ rewrite (proj2 (Rleb_true_iff a b)) by lra
            | rewrite (proj2 (Rleb_false_iff a b)) by lra ]
  end.

Lemma bind_Ok {A B} (c : outcome A) (k : A -> outcome B) (b : B) :
  bind c k = Ok b -> exists a, c = Ok a /\ k a = Ok b.
Proof. destruct c; simpl; intros; try discriminate; eauto. Qed.

Lemma assert_Ok (b : bool) (u : unit) : assert b = Ok u -> b = true.
Proof. destruct b; simpl; intros; congruence. Qed.

(** Splits a hypothesis [c >>= k = Ok r] into its steps. *)
Ltac inv_bind H :=
  let a := fresh "a" in
  let Ha := fresh "Hstep" in
  apply bind_Ok in H; destruct H as (a & Ha & H);
  try (apply assert_Ok in Ha).

Lemma responsible_iff n pos :
  responsible n pos = true <->
  minX n <= getX pos < maxX n /\ minY n <= getY pos < maxY n.
Proof.
  unfold responsible.
  rewrite !andb_true_iff, !Rleb_true_iff, !Rltb_true_iff. tauto.
Qed.

(** Induction over a tree with the hypothesis available for every child. *)
Lemma QuadNode_induction (P : QuadNode -> Prop) :
  (forall n, Forall P (children n) -> P n) -> forall n, P n.
Proof.
  intros step.
  fix IH 1.
  intros n. apply step.
  destruct n as [a b c d e f g h i j k cs]. simpl.
  induction cs as [|c0 cs IHcs]; constructor.
  - apply IH.
  - exact IHcs.
Qed.

(** ** The invariants under insertion *)

Lemma addContent_eq fuel input pos n :
  addContent (S fuel) input pos n =
  (assert (belowSanityLimit input) ;;;
   assert (length (content n) =? length (positions n))%nat ;;;
   assert (responsible n pos) ;;;
   if isLeaf n then
     if (Z.of_nat (length (content n)) + 1 <? capacity n)%Z then
       Ok (setBuffers n (content n ++ [input]) (positions n ++ [pos]))
     else
       n1 <- split n ;;
       n2 <- reAddAll (addContent fuel) n1 ;;
       assert (subTreeSize n2 =? Z.of_nat (length (content n2)))%Z ;;;
       let n3 := setSubTreeSize n2 (Z.of_nat (length (content n2))) in
       addContent fuel input pos (setBuffers n3 [] [])
   else
     assert (0 <? length (children n))%nat ;;;
     cs <- addToResponsibleChild (addContent fuel input pos) pos (children n) ;;
     Ok (setSubTreeSize (setChildren n (isLeaf n) cs) (subTreeSize n + 1))).
Proof. reflexivity. Qed.

Lemma storedPairs_eq n :
  storedPairs n =
  if isLeaf n then combine (content n) (positions n)
  else flat_map storedPairs (children n).
Proof. destruct n; reflexivity. Qed.

Lemma sumSizes_cons c cs : sumSizes (c :: cs) = (size c + sumSizes cs)%Z.
Proof. reflexivity. Qed.

Lemma wf_size n : wf n -> size n = Z.of_nat (length (storedPairs n)).
Proof.
  induction n as [n IH] using QuadNode_induction.
  intros Hwf. rewrite storedPairs_eq. unfold size.
  inversion Hwf as [n0 Hleaf Hch Hlen Hresp Hbound | n0 mx my Hleaf Hc Hp Hx Hy Hq Hcap Hsz Hkids]; subst n0.
  - rewrite Hleaf. rewrite length_combine, <- Hlen, Nat.min_id. reflexivity.
  - rewrite Hleaf, Hsz. clear Hq Hcap Hsz Hwf.
    induction (children n) as [|c cs IHcs]; simpl; [reflexivity|].
    inversion IH; inversion Hkids; subst.
    rewrite length_app, Nat2Z.inj_add, IHcs by assumption.
    f_equal. auto.
Qed.

Lemma sumSizes_wf cs :
  Forall wf cs -> sumSizes cs = Z.of_nat (length (flat_map storedPairs cs)).
Proof.
  induction 1; simpl; [reflexivity|].
  rewrite length_app, Nat2Z.inj_add, <- IHForall. f_equal. now apply wf_size.
Qed.

Lemma wf_internal_iff n :
  isLeaf n = false ->
  (wf n <-> inner n /\ content n = [] /\ positions n = [] /\
            subTreeSize n = sumSizes (children n)).
Proof.
  intros Hl. split.
  - intros Hwf. inversion Hwf; subst; [congruence|].
    unfold inner. repeat split; eauto.
  - intros ((_ & (mx & my & Hx & Hy & Hq) & Hcap & Hk) & Hc & Hp & Hs).
    eapply wf_internal; eauto.
Qed.

Lemma addToResponsibleChild_post add input pos cs cs' :
  (forall c c', wf c -> add c = Ok c' -> addPost input pos c c') ->
  Forall wf cs ->
  addToResponsibleChild add pos cs = Ok cs' ->
  Forall wf cs' /\ map region cs' = map region cs /\
  map capacity cs' = map capacity cs /\
  Permutation (flat_map storedPairs cs')
              ((input, pos) :: flat_map storedPairs cs).
Proof.
  intros Hadd Hwf. revert cs'.
  induction Hwf as [|c cs Hc Hcs IH]; intros cs' H; simpl in H; [discriminate|].
  destruct (responsible c pos).
  - inv_bind H. injection H as <-.
    destruct (Hadd _ _ Hc Hstep) as (Hw & Hr & Hcap & Hperm).
    repeat split; simpl.
    + constructor; assumption.
    + now rewrite Hr.
    + now rewrite Hcap.
    + change ((input, pos) :: storedPairs c ++ flat_map storedPairs cs)
        with (((input, pos) :: storedPairs c) ++ flat_map storedPairs cs).
      now apply Permutation_app_tail.
  - inv_bind H. injection H as <-.
    destruct (IH _ Hstep) as (Hw & Hr & Hcap & Hperm).
    repeat split; simpl.
    + constructor; assumption.
    + now rewrite Hr.
    + now rewrite Hcap.
    + rewrite Hperm. apply Permutation_sym, Permutation_middle.
Qed.

Lemma Forall_map_eq {A B} (f : A -> B) (b : B) (l l' : list A) :
  map f l' = map f l -> Forall (fun x => f x = b) l -> Forall (fun x => f x = b) l'.
Proof.
  revert l'. induction l as [|x l IH]; intros [|y l'] Hm Hf; simpl in *;
    try discriminate; constructor; inversion Hf; subst.
  - congruence.
  - apply IH; congruence.
Qed.

Lemma addContent_inner fuel input pos n n' :
  (forall c c', wf c -> addContent fuel input pos c = Ok c' ->
                addPost input pos c c') ->
  inner n ->
  addContent (S fuel) input pos n = Ok n' ->
  inner n' /\ content n' = content n /\ positions n' = positions n /\
  region n' = region n /\ capacity n' = capacity n /\
  subTreeSize n' = (subTreeSize n + 1)%Z /\
  Permutation (flat_map storedPairs (children n'))
              ((input, pos) :: flat_map storedPairs (children n)).
Proof.
  intros IH (Hl & (mx & my & Hx & Hy & Hq) & Hcap & Hk) H.
  rewrite addContent_eq in H.
  do 3 inv_bind H. rewrite Hl in H. do 2 inv_bind H. injection H as <-.
  destruct (addToResponsibleChild_post _ _ _ _ _ IH Hk Hstep3)
    as (Hw & Hr & Hc & Hperm).
  simpl. repeat split; try assumption.
  - exists mx, my. repeat split; try tauto. unfold quadrants in *. simpl.
    now rewrite Hr.
  - simpl. eapply Forall_map_eq; eauto.
Qed.

Lemma wf_newNode lower upper cap th : wf (newNode lower upper cap th).
Proof.
  apply wf_leaf; simpl; auto. unfold coarsenLimit. lia.
Qed.

Lemma split_Ok n n1 :
  split n = Ok n1 ->
  exists mx my,
    minX n < mx < maxX n /\ minY n < my < maxY n /\
    n1 = setChildren n false
           [ newNode (mkPoint (minX n) (minY n)) (mkPoint mx my)
                     (capacity n) (splitTheoretical n);
             newNode (mkPoint mx (minY n)) (mkPoint (maxX n) my)
                     (capacity n) (splitTheoretical n);
             newNode (mkPoint (minX n) my) (mkPoint mx (maxY n))
                     (capacity n) (splitTheoretical n);
             newNode (mkPoint mx my) (mkPoint (maxX n) (maxY n))
                     (capacity n) (splitTheoretical n) ].
Proof.
  unfold split. intros H.
  do 7 inv_bind H. injection H as <-.
  apply Rltb_true_iff in Hstep1, Hstep2, Hstep3, Hstep4.
  exists (getX a0), (getY a0). repeat split; assumption.
Qed.

Lemma split_inner n n1 :
  split n = Ok n1 ->
  inner n1 /\ content n1 = content n /\ positions n1 = positions n /\
  region n1 = region n /\ capacity n1 = capacity n /\
  subTreeSize n1 = subTreeSize n /\
  flat_map storedPairs (children n1) = [].
Proof.
  intros H. destruct (split_Ok _ _ H) as (mx & my & Hx & Hy & ->).
  unfold inner. simpl. repeat split; auto.
  - exists mx, my. repeat split; tauto.
  - repeat (apply Forall_cons; [apply wf_newNode|]). apply Forall_nil.
Qed.

Lemma reAdd_inner fuel buffered :
  addContent_sound fuel ->
  forall n m,
    inner n ->
    reAdd (addContent (S fuel)) buffered n = Ok m ->
    inner m /\ content m = content n /\ positions m = positions n /\
    region m = region n /\ capacity m = capacity n /\
    subTreeSize m = (subTreeSize n + Z.of_nat (length buffered))%Z /\
    Permutation (flat_map storedPairs (children m))
                (buffered ++ flat_map storedPairs (children n)).
Proof.
  intros IH.
  induction buffered as [|[c p] rest IHrest]; intros n m Hin H; simpl in H.
  - injection H as <-. split; [assumption|].
    repeat split; simpl; try lia. apply Permutation_refl.
  - inv_bind H.
    destruct (addContent_inner _ _ _ _ _ (IH c p) Hin Hstep)
      as (Hin' & Hc & Hp & Hr & Hcap & Hs & Hperm).
    destruct (IHrest _ _ Hin' H) as (Hin2 & Hc2 & Hp2 & Hr2 & Hcap2 & Hs2 & Hperm2).
    split; [assumption|].
    repeat split; try congruence.
    + rewrite Hs2, Hs. simpl length. lia.
    + rewrite Hperm2. simpl.
      rewrite (Permutation_app_head rest Hperm).
      apply Permutation_sym, Permutation_middle.
Qed.

Lemma combine_snoc {A B} (l : list A) (l' : list B) a b :
  length l = length l' ->
  combine (l ++ [a]) (l' ++ [b]) = combine l l' ++ [(a, b)].
Proof.
  revert l'. induction l as [|x l IH]; intros [|y l'] H; simpl in *;
    try discriminate; [reflexivity|].
  f_equal. apply IH. congruence.
Qed.

Lemma addContent_sound_all fuel : addContent_sound fuel.
Proof.
  induction fuel as [fuel IH] using lt_wf_ind.
  intros input pos n n' Hwf H.
  destruct fuel as [|fuel]; [discriminate|].
  rewrite addContent_eq in H.
  inv_bind H. inv_bind H. inv_bind H.
  apply Nat.eqb_eq in Hstep0.
  destruct (isLeaf n) eqn:Hleaf.
  - inversion Hwf as [n0 _ Hch Hlen Hresp Hbound | n0 mx my Hl]; subst n0;
      [|congruence].
    destruct (Z.of_nat (length (content n)) + 1 <? capacity n)%Z eqn:Hroom.
    + injection H as <-. apply Z.ltb_lt in Hroom.
      unfold addPost. repeat split; auto.
      * apply wf_leaf; simpl; auto.
        -- rewrite !length_app. simpl. congruence.
        -- apply Forall_app. split; [exact Hresp|]. repeat constructor.
           exact Hstep1.
        -- rewrite length_app. simpl length. lia.
      * rewrite (storedPairs_eq n), Hleaf.
        rewrite storedPairs_eq. simpl. rewrite Hleaf.
        rewrite combine_snoc by assumption.
        apply Permutation_sym, Permutation_cons_append.
    + inv_bind H. inv_bind H. inv_bind H.
      destruct fuel as [|fuel]; [discriminate|].
      destruct (split_inner _ _ Hstep2) as (Hin & Hc & Hp & Hr & Hcap & Hs & Hemp).
      unfold reAddAll in Hstep3.
      destruct (reAdd_inner fuel _ (IH fuel ltac:(lia)) _ _ Hin Hstep3)
        as (Hin2 & Hc2 & Hp2 & Hr2 & Hcap2 & Hs2 & Hperm2).
      rewrite Hemp, app_nil_r, Hc, Hp in Hperm2.
      assert (Hwf3 : wf (setBuffers
                (setSubTreeSize a3 (Z.of_nat (length (content a3)))) [] [])).
      { destruct Hin2 as (Hl2 & (mx & my & Hx & Hy & Hq) & Hcp & Hk).
        apply (wf_internal _ mx my); simpl; auto.
        rewrite (sumSizes_wf _ Hk), (Permutation_length Hperm2).
        rewrite length_combine, <- Hlen, Nat.min_id. congruence. }
      destruct (IH (S fuel) ltac:(lia) _ _ _ _ Hwf3 H) as (Hw & Hrg & Hcp & Hperm).
      unfold addPost. repeat split; auto.
      * rewrite Hrg. unfold region; simpl. unfold region in Hr2, Hr. congruence.
      * rewrite Hcp. simpl. congruence.
      * rewrite Hperm. apply perm_skip.
        rewrite (storedPairs_eq n), Hleaf.
        rewrite storedPairs_eq. simpl.
        destruct Hin2 as (-> & _). exact Hperm2.
  - assert (Hin : inner n) by (apply wf_internal_iff in Hwf; tauto).
    assert (H' : addContent (S fuel) input pos n = Ok n').
    { rewrite addContent_eq.
      rewrite (proj2 (Nat.eqb_eq _ _) Hstep0), Hstep, Hstep1, Hleaf.
      exact H. }
    destruct (addContent_inner _ _ _ _ _ (IH fuel ltac:(lia) input pos) Hin H')
      as (Hin' & Hc & Hp & Hr & Hcap & Hs & Hperm).
    apply wf_internal_iff in Hwf; [|assumption].
    destruct Hwf as (_ & Hc0 & Hp0 & Hs0).
    assert (Hl' : isLeaf n' = false) by (destruct Hin'; tauto).
    unfold addPost. repeat split; auto.
    + apply wf_internal_iff; [assumption|].
      split; [assumption|].
      repeat split; try congruence.
      destruct Hin' as (_ & _ & _ & Hk'). destruct Hin as (_ & _ & _ & Hk).
      rewrite (sumSizes_wf _ Hk'), (Permutation_length Hperm), Hs, Hs0.
      rewrite (sumSizes_wf _ Hk). simpl length. lia.
    + rewrite (storedPairs_eq n), Hleaf, storedPairs_eq, Hl'. exact Hperm.
Qed.

(** ** The invariants under removal *)

Lemma removeContent_eq input pos n :
  removeContent input pos n =
  if negb (responsible n pos) then Ok (false, n)
  else if isLeaf n then
    let i := findIndex input (content n) in
    if (i <? length (content n))%nat then
      match nth_error (positions n) i with
      | None => Abort
      | Some p =>
          assert (Reqb (distance p pos) 0) ;;;
          Ok (true, setBuffers n (erase i (content n)) (erase i (positions n)))
      end
    else Ok (false, n)
  else
    assert (0 <? length (children n))%nat ;;;
    r <- removeFromChildren (removeContent input pos) (children n) false true ;;
    let removed := snd (fst r) in
    let allLeaves := snd r in
    let n1 := setChildren n (isLeaf n) (fst (fst r)) in
    let n2 := if removed then setSubTreeSize n1 (subTreeSize n1 - 1) else n1 in
    if removed && allLeaves && (size n2 <? coarsenLimit)%Z then
      let allContent := flat_map content (children n2) in
      let allPositions := flat_map positions (children n2) in
      assert (length allContent =? length allPositions)%nat ;;;
      Ok (removed, setBuffers (setChildren n2 true []) allContent allPositions)
    else Ok (removed, n2).
Proof. destruct n; reflexivity. Qed.

Lemma removeFromChildren_eq remove c cs removed allLeaves :
  removeFromChildren remove (c :: cs) removed allLeaves =
  (let allLeaves' := if isLeaf c then allLeaves else false in
   rc <- remove c ;;
   removed' <- (if fst rc then assert (negb removed) ;;; Ok true
                else Ok removed) ;;
   r <- removeFromChildren remove cs removed' allLeaves' ;;
   Ok (snd rc :: fst (fst r), snd (fst r), snd r)).
Proof. reflexivity. Qed.

(** *** Indices and erasure in lists *)

Lemma findIndex_le input c : (findIndex input c <= length c)%nat.
Proof.
  induction c as [|x c IH]; simpl; [lia|]. destruct (x =? input)%Z; lia.
Qed.

Lemma findIndex_nth input c :
  (findIndex input c < length c)%nat ->
  nth_error c (findIndex input c) = Some input.
Proof.
  induction c as [|x c IH]; simpl; [lia|].
  destruct (x =? input)%Z eqn:E; intros H.
  - apply Z.eqb_eq in E. now subst.
  - apply IH. lia.
Qed.

Lemma findIndex_absent input c :
  ~ In input c -> findIndex input c = length c.
Proof.
  induction c as [|x c IH]; simpl; [reflexivity|]. intros H.
  destruct (x =? input)%Z eqn:E.
  - apply Z.eqb_eq in E. tauto.
  - f_equal. apply IH. tauto.
Qed.

Lemma findIndex_first input c i :
  (i < findIndex input c)%nat -> nth_error c i <> Some input.
Proof.
  revert i. induction c as [|x c IH]; simpl; intros i H; [lia|].
  destruct (x =? input)%Z eqn:E; [lia|].
  destruct i; simpl.
  - apply Z.eqb_neq in E. congruence.
  - apply IH. lia.
Qed.

Lemma erase_length {A} i (l : list A) :
  (i < length l)%nat -> S (length (erase i l)) = length l.
Proof.
  intros H. unfold erase.
  rewrite length_app, length_firstn, length_skipn. lia.
Qed.

Lemma erase_Forall {A} (P : A -> Prop) i l :
  Forall P l -> Forall P (erase i l).
Proof.
  intros H. revert i. induction H as [|x l Hx Hl IH]; intros i.
  - unfold erase. destruct i; simpl; constructor.
  - destruct i.
    + unfold erase. simpl. exact Hl.
    + change (erase (S i) (x :: l)) with (x :: erase i l).
      constructor; [exact Hx | apply IH].
Qed.

Lemma erase_cons {A} (x : A) i l : erase (S i) (x :: l) = x :: erase i l.
Proof. reflexivity. Qed.

Lemma erase_combine {A B} i (l : list A) (l' : list B) :
  combine (erase i l) (erase i l') = erase i (combine l l').
Proof.
  revert l l'. induction i as [|i IH]; intros [|x l] [|y l'];
    try rewrite !erase_cons; simpl;
    try (unfold erase; simpl; rewrite ?firstn_nil, ?skipn_nil, ?combine_nil;
         reflexivity).
  rewrite erase_cons. f_equal. apply IH.
Qed.

Lemma erase_Permutation {A} i (l : list A) x :
  nth_error l i = Some x -> Permutation l (x :: erase i l).
Proof.
  revert l. induction i as [|i IH]; intros [|y l] H; simpl in H;
    try discriminate.
  - injection H as ->. apply Permutation_refl.
  - rewrite erase_cons, perm_swap. apply perm_skip. now apply IH.
Qed.

Lemma nth_error_combine {A B} (l : list A) (l' : list B) i a b :
  nth_error l i = Some a -> nth_error l' i = Some b ->
  nth_error (combine l l') i = Some (a, b).
Proof.
  revert l l'. induction i as [|i IH]; intros [|x l] [|y l'] H H';
    simpl in *; try discriminate.
  - congruence.
  - now apply IH.
Qed.

Lemma combine_app_eq {A B} (l1 l2 : list A) (k1 k2 : list B) :
  length l1 = length k1 ->
  combine (l1 ++ l2) (k1 ++ k2) = combine l1 k1 ++ combine l2 k2.
Proof.
  revert k1. induction l1 as [|x l1 IH]; intros [|y k1] H; simpl in *;
    try discriminate; [reflexivity|].
  f_equal. apply IH. congruence.
Qed.

(** *** Distance zero *)

Lemma squaredDistance_nonneg p q : 0 <= squaredDistance p q.
Proof.
  unfold squaredDistance.
  pose proof (Rle_0_sqr (getX p - getX q)) as Hx.
  pose proof (Rle_0_sqr (getY p - getY q)) as Hy.
  unfold Rsqr in *. lra.
Qed.

Lemma distance_zero p q : distance p q = 0 -> p = q.
Proof.
  unfold distance. intros H.
  apply sqrt_eq_0 in H; [|apply squaredDistance_nonneg].
  unfold squaredDistance in H.
  destruct p as [px py], q as [qx qy]; simpl in *.
  assert (Hx2 : 0 <= (px - qx) * (px - qx)) by apply Rle_0_sqr.
  assert (Hy2 : 0 <= (py - qy) * (py - qy)) by apply Rle_0_sqr.
  assert (Hx0 : (px - qx) * (px - qx) = 0) by lra.
  assert (Hy0 : (py - qy) * (py - qy) = 0) by lra.
  assert (px = qx) by (destruct (Rmult_integral _ _ Hx0); lra).
  assert (py = qy) by (destruct (Rmult_integral _ _ Hy0); lra).
  congruence.
Qed.

Lemma distance_self p : distance p p = 0.
Proof.
  unfold distance, squaredDistance.
  replace (0 + (getX p - getX p) * (getX p - getX p)
             + (getY p - getY p) * (getY p - getY p)) with 0 by ring.
  apply sqrt_0.
Qed.

(** *** The loop over the children *)

Lemma removeFromChildren_post remove input pos cs :
  Forall (fun c => forall found c',
            wf c -> remove c = Ok (found, c') ->
            removePost input pos c found c') cs ->
  Forall wf cs ->
  forall removed0 al0 cs' removedF alF,
    removeFromChildren remove cs removed0 al0 = Ok (cs', removedF, alF) ->
    Forall wf cs' /\ map region cs' = map region cs /\
    map capacity cs' = map capacity cs /\
    alF = al0 && forallb isLeaf cs /\
    (forallb isLeaf cs = true -> forallb isLeaf cs' = true) /\
    ((removedF = removed0 /\ cs' = cs) \/
     (removed0 = false /\ removedF = true /\
      Permutation (flat_map storedPairs cs)
                  ((input, pos) :: flat_map storedPairs cs'))).
Proof.
  intros Hrem Hwf.
  induction Hwf as [|c cs Hc Hcs IH];
    intros removed0 al0 cs' removedF alF H.
  - simpl in H. injection H as <- <- <-.
    repeat split; auto. now rewrite andb_true_r.
  - rewrite removeFromChildren_eq in H. cbv zeta in H.
    inversion Hrem as [|c0 cs0 Hremc Hremcs]; subst c0 cs0.
    inv_bind H. destruct a as [found c'].
    destruct (Hremc _ _ Hc Hstep) as (Hw & Hr & Hcap & Hl & Hnf & Hf).
    inv_bind H. inv_bind H. destruct a0 as [[cs1 rF] aF].
    simpl in H. injection H as <- <- <-.
    destruct (IH Hremcs _ _ _ _ _ Hstep1) as (Hw1 & Hr1 & Hcap1 & Hal & Hlv & Hperm).
    simpl in Hstep0.
    split; [constructor; assumption|].
    split; [simpl; congruence|].
    split; [simpl; congruence|].
    split.
    { rewrite Hal. simpl. destruct (isLeaf c), al0; reflexivity. }
    split.
    { simpl. rewrite !andb_true_iff. intros [Hlc Hlcs]. auto. }
    destruct found.
    + inv_bind Hstep0. injection Hstep0 as <-.
      apply negb_true_iff in Hstep2. subst removed0.
      destruct Hperm as [[-> ->] | [Habs _]]; [|discriminate].
      right. repeat split. simpl.
      rewrite (Permutation_app_tail _ (Hf eq_refl)). reflexivity.
    + injection Hstep0 as <-. rewrite (Hnf eq_refl).
      destruct Hperm as [[-> ->] | (-> & -> & Hp)].
      * left. split; reflexivity.
      * right. repeat split. simpl. rewrite Hp.
        apply Permutation_sym, Permutation_middle.
Qed.

(** The four children behind [quadrants]. *)
Lemma quadrants_inv n mx my cs :
  quadrants n mx my cs ->
  exists sw se nw ne : QuadNode,
    cs = [sw; se; nw; ne] /\
    (minX sw = minX n /\ minY sw = minY n /\ maxX sw = mx /\ maxY sw = my) /\
    (minX se = mx /\ minY se = minY n /\ maxX se = maxX n /\ maxY se = my) /\
    (minX nw = minX n /\ minY nw = my /\ maxX nw = mx /\ maxY nw = maxY n) /\
    (minX ne = mx /\ minY ne = my /\ maxX ne = maxX n /\ maxY ne = maxY n).
Proof.
  unfold quadrants. intros Hq.
  destruct cs as [|sw [|se [|nw [|ne [|]]]]]; simpl in Hq; try discriminate.
  unfold region in Hq. injection Hq. intros.
  exists sw, se, nw, ne. repeat split; assumption.
Qed.

(** Positions in a quadrant lie in the region of the parent. *)
Lemma quadrant_responsible n mx my cs c p :
  minX n < mx < maxX n -> minY n < my < maxY n ->
  quadrants n mx my cs -> In c cs ->
  responsible c p = true -> responsible n p = true.
Proof.
  intros Hx Hy Hq Hin Hr.
  destruct (quadrants_inv _ _ _ _ Hq)
    as (sw & se & nw & ne & -> & Hsw & Hse & Hnw & Hne).
  apply responsible_iff in Hr. apply responsible_iff.
  destruct Hin as [<- | [<- | [<- | [<- | []]]]]; lra.
Qed.

(** At most one quadrant is responsible for a position. *)
Lemma quadrants_disjoint n mx my cs i j c d p :
  quadrants n mx my cs ->
  nth_error cs i = Some c -> nth_error cs j = Some d ->
  responsible c p = true -> responsible d p = true -> i = j.
Proof.
  intros Hq Hi Hj Hc Hd.
  destruct (quadrants_inv _ _ _ _ Hq)
    as (sw & se & nw & ne & -> & Hsw & Hse & Hnw & Hne).
  apply responsible_iff in Hc, Hd.
  destruct i as [|[|[|[|i]]]]; simpl in Hi; try (destruct i; discriminate);
    injection Hi as <-;
    destruct j as [|[|[|[|j]]]]; simpl in Hj; try (destruct j; discriminate);
    injection Hj as <-; try reflexivity; exfalso; lra.
Qed.

Lemma leaves_buffers cs :
  Forall wf cs -> forallb isLeaf cs = true ->
  length (flat_map content cs) = length (flat_map positions cs) /\
  combine (flat_map content cs) (flat_map positions cs)
  = flat_map storedPairs cs.
Proof.
  induction 1 as [|c cs Hc Hcs IH]; simpl; [auto|].
  rewrite andb_true_iff. intros [Hl Hls].
  destruct (IH Hls) as [Hlen Hcomb].
  inversion Hc as [n0 _ _ Hlc _ _ | n0 mx my Hl']; subst n0; [|congruence].
  split.
  - rewrite !length_app. congruence.
  - rewrite combine_app_eq by assumption.
    rewrite Hcomb, (storedPairs_eq c), Hl. reflexivity.
Qed.

Lemma leaves_responsible n mx my :
  minX n < mx < maxX n -> minY n < my < maxY n ->
  forall cs, quadrants n mx my cs ->
  forall cs0, incl cs0 cs -> Forall wf cs0 -> forallb isLeaf cs0 = true ->
  Forall (fun p => responsible n p = true) (flat_map positions cs0).
Proof.
  intros Hx Hy cs Hq cs0. induction cs0 as [|c cs0 IH]; intros Hin Hwf Hl.
  - constructor.
  - simpl in *. apply andb_true_iff in Hl. destruct Hl as [Hlc Hl].
    inversion Hwf as [|c1 cs1 Hwc Hwcs]; subst.
    apply Forall_app. split.
    + inversion Hwc as [n0 _ _ _ Hresp _ | n0 mx' my' Hl']; subst n0;
        [|congruence].
      eapply Forall_impl; [|exact Hresp]. intros p Hp.
      apply (quadrant_responsible n mx my cs c p Hx Hy Hq);
        [apply Hin; now left | exact Hp].
    + apply IH; auto. intros x Hx'. apply Hin. now right.
Qed.

Lemma setChildren_same n : setChildren n (isLeaf n) (children n) = n.
Proof. destruct n; reflexivity. Qed.

Lemma removePost_same input pos n : wf n -> removePost input pos n false n.
Proof. intros H. unfold removePost. repeat split; auto; discriminate. Qed.

Lemma removeContent_sound input pos n :
  forall found n',
    wf n -> removeContent input pos n = Ok (found, n') ->
    removePost input pos n found n'.
Proof.
  induction n as [n IH] using QuadNode_induction.
  intros found n' Hwf H. rewrite removeContent_eq in H.
  destruct (responsible n pos) eqn:Hresp; simpl in H.
  2:{ injection H as <- <-. now apply removePost_same. }
  destruct (isLeaf n) eqn:Hleaf.
  - (* leaf *)
    cbv zeta in H.
    destruct (findIndex input (content n) <? length (content n))%nat eqn:Hi.
    2:{ injection H as <- <-. now apply removePost_same. }
    apply Nat.ltb_lt in Hi.
    destruct (nth_error (positions n) (findIndex input (content n)))
      as [p|] eqn:Hp; [|discriminate].
    inv_bind H. injection H as <- <-.
    apply Reqb_true_iff, distance_zero in Hstep. subst p.
    inversion Hwf as [n0 _ Hch Hlen Hrs Hbound | n0 mx my Hl]; subst n0;
      [|congruence].
    pose proof (erase_length _ _ Hi) as He.
    assert (Hi' : (findIndex input (content n) < length (positions n))%nat)
      by lia.
    pose proof (erase_length _ _ Hi') as He'.
    unfold removePost. repeat split; auto; try discriminate.
    + apply wf_leaf; simpl; auto.
      * lia.
      * now apply erase_Forall.
      * unfold coarsenLimit in *. lia.
    + intros _. rewrite (storedPairs_eq n), Hleaf, storedPairs_eq. simpl.
      rewrite Hleaf, erase_combine.
      apply erase_Permutation, nth_error_combine; [|exact Hp].
      now apply findIndex_nth.
  - (* internal node *)
    inv_bind H. inv_bind H. destruct a0 as [[cs' removed] allLeaves].
    cbn [fst snd] in H.
    pose proof Hwf as Hwf0.
    apply wf_internal_iff in Hwf; [|assumption].
    destruct Hwf as ((_ & (mx & my & Hx & Hy & Hq) & Hcap & Hk) & Hc & Hp & Hs).
    destruct (removeFromChildren_post _ input pos _ IH Hk _ _ _ _ _ Hstep0)
      as (Hw & Hr & Hcp & Hal & Hlv & Hcases).
    simpl in Hal. subst allLeaves.
    assert (Hq' : quadrants n mx my cs')
      by (unfold quadrants in *; congruence).
    destruct Hcases as [[-> ->] | (_ & -> & Hperm)].
    + (* nothing was removed *)
      simpl in H. injection H as <- <-.
      replace (setChildren n false (children n)) with n
        by (rewrite <- Hleaf; symmetry; apply setChildren_same).
      now apply removePost_same.
    + cbn [andb] in H.
      assert (Hsz : sumSizes cs' = (subTreeSize n - 1)%Z).
      { rewrite Hs, (sumSizes_wf _ Hk), (sumSizes_wf _ Hw).
        rewrite (Permutation_length Hperm). simpl length. lia. }
      match type of H with
      | (if ?b then _ else _) = _ => destruct b eqn:Hco
      end.
      * (* coarsening *)
        inv_bind H. injection H as <- <-.
        apply andb_true_iff in Hco. destruct Hco as [Hall Hlt].
        apply Z.ltb_lt in Hlt. unfold size in Hlt. simpl in Hlt.
        cbn [children setSubTreeSize setChildren] in *.
        destruct (leaves_buffers _ Hw (Hlv Hall)) as [Hlen Hcomb].
        unfold removePost. repeat split; auto; try discriminate.
        -- apply wf_leaf; simpl; auto.
           ++ apply (leaves_responsible
                       (setBuffers (setChildren
                          (setSubTreeSize (setChildren n false cs')
                             (subTreeSize n - 1)) true [])
                          (flat_map content cs') (flat_map positions cs'))
                       mx my Hx Hy cs' Hq' cs'); auto.
              apply incl_refl.
           ++ assert (Z.of_nat (length (flat_map content cs'))
                      = sumSizes cs').
              { rewrite (sumSizes_wf _ Hw), <- Hcomb, length_combine.
                rewrite <- Hlen, Nat.min_id. reflexivity. }
              unfold coarsenLimit in *. lia.
        -- intros _. rewrite (storedPairs_eq n), Hleaf, storedPairs_eq.
           simpl. rewrite Hcomb. exact Hperm.
      * injection H as <- <-.
        unfold removePost.
        repeat split; auto; try discriminate; try (intros; congruence).
        -- apply wf_internal_iff; [reflexivity|]. simpl.
           split; [|repeat split; auto].
           unfold inner. simpl. repeat split; auto.
           ++ exists mx, my. repeat split; tauto.
           ++ eapply Forall_map_eq; eauto.
        -- intros _. rewrite (storedPairs_eq n), Hleaf, storedPairs_eq.
           simpl. exact Hperm.
Qed.

(** *** Identifiers that are stored, and those that are not *)

Lemma wf_stored_responsible n :
  wf n -> forall ip, In ip (storedPairs n) -> responsible n (snd ip) = true.
Proof.
  induction n as [n IH] using QuadNode_induction.
  intros Hwf ip Hin. rewrite storedPairs_eq in Hin.
  inversion Hwf as [n0 Hl _ _ Hresp _ | n0 mx my Hl _ _ Hx Hy Hq _ _ Hk];
    subst n0; rewrite Hl in Hin.
  - rewrite Forall_forall in Hresp. apply Hresp.
    destruct ip as [i p]. now apply in_combine_r in Hin.
  - apply in_flat_map in Hin. destruct Hin as (c & Hc & Hin).
    rewrite Forall_forall in IH, Hk.
    eapply quadrant_responsible; eauto.
Qed.

Lemma map_fst_combine {A B} (l : list A) (l' : list B) :
  length l = length l' -> map fst (combine l l') = l.
Proof.
  revert l'. induction l as [|x l IH]; intros [|y l'] H; simpl in *;
    try discriminate; [reflexivity|].
  f_equal. apply IH. congruence.
Qed.

Lemma removeFromChildren_untouched remove cs :
  Forall (fun c => remove c = Ok (false, c)) cs ->
  forall removed allLeaves,
    removeFromChildren remove cs removed allLeaves
    = Ok (cs, removed, allLeaves && forallb isLeaf cs).
Proof.
  induction 1 as [|c cs Hc Hcs IH]; intros removed allLeaves.
  - simpl. now rewrite andb_true_r.
  - rewrite removeFromChildren_eq. cbv zeta. rewrite Hc. simpl.
    rewrite IH. simpl.
    destruct (isLeaf c), allLeaves, (forallb isLeaf cs); reflexivity.
Qed.

Lemma wf_internal_children n :
  wf n -> isLeaf n = false -> (0 <? length (children n))%nat = true.
Proof.
  intros Hwf Hl. apply wf_internal_iff in Hwf; [|exact Hl].
  destruct Hwf as ((_ & (mx & my & _ & _ & Hq) & _) & _).
  destruct (quadrants_inv _ _ _ _ Hq) as (sw & se & nw & ne & -> & _).
  reflexivity.
Qed.

(** Removing an identifier that is not stored changes nothing. *)
Lemma removeContent_absent input pos n :
  wf n -> ~ In input (map fst (storedPairs n)) ->
  removeContent input pos n = Ok (false, n).
Proof.
  induction n as [n IH] using QuadNode_induction.
  intros Hwf Habs. rewrite removeContent_eq.
  destruct (responsible n pos); simpl; [|reflexivity].
  rewrite storedPairs_eq in Habs.
  destruct (isLeaf n) eqn:Hleaf.
  - inversion Hwf as [n0 _ _ Hlen _ _ | n0 mx my Hl]; subst n0; [|congruence].
    rewrite map_fst_combine in Habs by assumption.
    rewrite (findIndex_absent _ _ Habs), Nat.ltb_irrefl. reflexivity.
  - rewrite (wf_internal_children _ Hwf Hleaf). simpl.
    apply wf_internal_iff in Hwf; [|exact Hleaf].
    destruct Hwf as ((_ & _ & _ & Hk) & _).
    rewrite removeFromChildren_untouched.
    + simpl. do 2 f_equal. rewrite <- Hleaf. apply setChildren_same.
    + rewrite Forall_forall in *. intros c Hc. apply IH; auto.
      intros Hin. apply Habs. rewrite flat_map_concat_map, concat_map, map_map.
      rewrite <- flat_map_concat_map. apply in_flat_map. eauto.
Qed.

Lemma NoDup_fst_unique {A B} (l : list (A * B)) a b b' :
  NoDup (map fst l) -> In (a, b) l -> In (a, b') l -> b = b'.
Proof.
  induction l as [|[x y] l IH]; simpl; intros Hnd H H'; [contradiction|].
  inversion Hnd as [|x0 l0 Hx Hl]; subst.
  destruct H as [H | H], H' as [H' | H'].
  - congruence.
  - injection H as -> ->. exfalso. apply Hx.
    change a with (fst (a, b')). now apply in_map.
  - injection H' as -> ->. exfalso. apply Hx.
    change a with (fst (a, b)). now apply in_map.
  - now apply IH.
Qed.

Lemma NoDup_app_disjoint {A} (l1 l2 : list A) :
  NoDup (l1 ++ l2) -> forall a, In a l1 -> ~ In a l2.
Proof.
  induction l1 as [|x l1 IH]; simpl; intros Hnd a Hin; [contradiction|].
  inversion Hnd as [|x0 l0 Hx Hl]; subst.
  destruct Hin as [-> | Hin].
  - intros H2. apply Hx. apply in_or_app. now right.
  - now apply IH.
Qed.

(** A position lies in one quadrant at most. *)
Lemma quadrants_exclusive n mx my cs pos :
  quadrants n mx my cs ->
  ForallOrdPairs
    (fun c d => responsible c pos = true -> responsible d pos = false) cs.
Proof.
  intros Hq.
  destruct (quadrants_inv _ _ _ _ Hq)
    as (sw & se & nw & ne & -> & Hsw & Hse & Hnw & Hne).
  assert (Hex : forall c d,
             (maxX c <= minX d \/ maxY c <= minY d
              \/ maxX d <= minX c \/ maxY d <= minY c) ->
             responsible c pos = true -> responsible d pos = false).
  { intros c d Hcd Hc. apply responsible_iff in Hc.
    destruct (responsible d pos) eqn:Hd; [|reflexivity].
    apply responsible_iff in Hd. exfalso. lra. }
  repeat (apply FOP_cons; [repeat apply Forall_cons; try apply Forall_nil|]);
    try apply FOP_nil; apply Hex; lra.
Qed.

Lemma removeContent_not_responsible input pos n :
  responsible n pos = false -> removeContent input pos n = Ok (false, n).
Proof. intros H. rewrite removeContent_eq, H. reflexivity. Qed.

Lemma removeFromChildren_present input pos cs :
  Forall wf cs ->
  Forall (fun c => In (input, pos) (storedPairs c) ->
                   NoDup (map fst (storedPairs c)) ->
                   exists c', removeContent input pos c = Ok (true, c')) cs ->
  ForallOrdPairs
    (fun c d => responsible c pos = true -> responsible d pos = false) cs ->
  NoDup (map fst (flat_map storedPairs cs)) ->
  In (input, pos) (flat_map storedPairs cs) ->
  forall allLeaves, exists cs' allLeaves',
    removeFromChildren (removeContent input pos) cs false allLeaves
    = Ok (cs', true, allLeaves').
Proof.
  intros Hwf. induction Hwf as [|c cs Hc Hcs IH];
    intros Hrem Hex Hnd Hin allLeaves; simpl in Hin; [contradiction|].
  inversion Hrem as [|c0 cs0 Hremc Hremcs]; subst c0 cs0.
  inversion Hex as [|c0 cs0 Hexc Hexcs]; subst c0 cs0.
  simpl in Hnd. rewrite map_app in Hnd.
  rewrite removeFromChildren_eq. cbv zeta.
  apply in_app_or in Hin. destruct Hin as [Hin | Hin].
  - destruct (Hremc Hin (NoDup_app_remove_r _ _ Hnd)) as (c' & Hc').
    rewrite Hc'. simpl.
    rewrite removeFromChildren_untouched.
    + simpl. eauto.
    + pose proof (wf_stored_responsible _ Hc _ Hin) as Hresp. simpl in Hresp.
      eapply Forall_impl; [|exact Hexc]. intros d Hd. simpl in Hd.
      apply removeContent_not_responsible. auto.
  - assert (Habs : ~ In input (map fst (storedPairs c))).
    { intros Hc'. apply (NoDup_app_disjoint _ _ Hnd input Hc').
      change input with (fst (input, pos)). now apply in_map. }
    rewrite (removeContent_absent _ _ _ Hc Habs). simpl.
    destruct (IH Hremcs Hexcs (NoDup_app_remove_l _ _ Hnd) Hin
                 (if isLeaf c then allLeaves else false))
      as (cs' & al' & ->).
    simpl. eauto.
Qed.

(** Removing a stored pair whose identifier is stored once succeeds. *)
Lemma removeContent_present input pos n :
  wf n -> In (input, pos) (storedPairs n) ->
  NoDup (map fst (storedPairs n)) ->
  exists n', removeContent input pos n = Ok (true, n').
Proof.
  induction n as [n IH] using QuadNode_induction.
  intros Hwf Hin Hnd. rewrite removeContent_eq.
  pose proof (wf_stored_responsible _ Hwf _ Hin) as Hresp. simpl in Hresp.
  rewrite Hresp. simpl.
  rewrite storedPairs_eq in Hin, Hnd.
  destruct (isLeaf n) eqn:Hleaf.
  - inversion Hwf as [n0 _ _ Hlen _ _ | n0 mx my Hl]; subst n0; [|congruence].
    cbv zeta.
    assert (Hc : In input (content n)) by (eapply in_combine_l; eauto).
    assert (Hi : (findIndex input (content n) < length (content n))%nat).
    { destruct (Nat.lt_ge_cases (findIndex input (content n))
                                (length (content n))) as [H | H]; [exact H|].
      pose proof (findIndex_le input (content n)).
      apply In_nth_error in Hc. destruct Hc as (k & Hk).
      assert (Hkl : (k < length (content n))%nat)
        by (apply nth_error_Some; congruence).
      exfalso. apply (findIndex_first input (content n) k); [lia | exact Hk]. }
    rewrite (proj2 (Nat.ltb_lt _ _) Hi).
    destruct (nth_error (positions n) (findIndex input (content n)))
      as [p|] eqn:Hp.
    2:{ apply nth_error_None in Hp. lia. }
    assert (p = pos).
    { apply (NoDup_fst_unique _ input p pos Hnd); [|exact Hin].
      eapply nth_error_In, nth_error_combine; [|exact Hp].
      now apply findIndex_nth. }
    subst p. rewrite distance_self.
    rewrite (proj2 (Reqb_true_iff 0 0) eq_refl). simpl. eauto.
  - rewrite (wf_internal_children _ Hwf Hleaf). simpl.
    pose proof Hwf as Hwf0.
    apply wf_internal_iff in Hwf; [|exact Hleaf].
    destruct Hwf as ((_ & (mx & my & Hx & Hy & Hq) & Hcap & Hk) & Hc & Hp & Hs).
    assert (IH' : Forall (fun c => In (input, pos) (storedPairs c) ->
                     NoDup (map fst (storedPairs c)) ->
                     exists c', removeContent input pos c = Ok (true, c'))
                    (children n)).
    { rewrite Forall_forall in *. intros c Hcin. apply IH; auto. }
    destruct (removeFromChildren_present input pos _ Hk IH'
                (quadrants_exclusive _ _ _ _ pos Hq) Hnd Hin true)
      as (cs' & al' & Hloop).
    rewrite Hloop. simpl.
    assert (IHs : Forall (fun c => forall found c',
                     wf c -> removeContent input pos c = Ok (found, c') ->
                     removePost input pos c found c') (children n)).
    { rewrite Forall_forall. intros c _ found c'.
      apply removeContent_sound. }
    destruct (removeFromChildren_post _ input pos _ IHs Hk _ _ _ _ _ Hloop)
      as (Hw & _ & _ & Hal & Hlv & _).
    simpl in Hal. subst al'.
    destruct (forallb isLeaf (children n)) eqn:Hall; simpl; [|eauto].
    match goal with
    | |- context [if ?b then _ else _] => destruct b
    end; [|eauto].
    destruct (leaves_buffers _ Hw (Hlv eq_refl)) as [Hlen _].
    rewrite Hlen, Nat.eqb_refl. simpl. eauto.
Qed.

(** ** Distance bounds *)

Lemma distance_nonneg p q : 0 <= distance p q.
Proof. apply sqrt_pos. Qed.

Lemma square_le_abs a b : Rabs a <= Rabs b -> a * a <= b * b.
Proof. intros H. apply Rsqr_le_abs_1 in H. exact H. Qed.

Lemma distance_le_coordinates c p q :
  Rabs (getX c - getX q) <= Rabs (getX p - getX q) ->
  Rabs (getY c - getY q) <= Rabs (getY p - getY q) ->
  distance c q <= distance p q.
Proof.
  intros Hx Hy. unfold distance, squaredDistance.
  apply sqrt_le_1_alt.
  apply square_le_abs in Hx, Hy. lra.
Qed.

Lemma foldBounds_min query l : forall mm,
  fst (foldBounds query l mm) <= fst mm /\
  (forall c, In c l -> fst (foldBounds query l mm) <= distance c query) /\
  (fst (foldBounds query l mm) = fst mm \/
   exists c, In c l /\ fst (foldBounds query l mm) = distance c query).
Proof.
  induction l as [|x l IH]; intros mm; simpl.
  - split; [lra|]. split; [contradiction | now left].
  - destruct (IH (updateMinMax query x mm)) as (H1 & H2 & H3).
    unfold updateMinMax in *. simpl in *.
    fold (foldBounds query l
            (Rmin (fst mm) (distance x query),
             Rmax (distance x query) (snd mm))) in *.
    pose proof (Rmin_l (fst mm) (distance x query)).
    pose proof (Rmin_r (fst mm) (distance x query)).
    split; [lra|]. split.
    + intros c [<- | Hc]; [lra | auto].
    + destruct H3 as [H3 | (c & Hc & H3)].
      * rewrite H3. unfold Rmin. destruct (Rle_dec (fst mm) (distance x query)).
        -- now left.
        -- right. exists x. auto.
      * right. exists c. auto.
Qed.

Lemma foldBounds_max query l : forall mm,
  snd mm <= snd (foldBounds query l mm) /\
  (forall c, In c l -> distance c query <= snd (foldBounds query l mm)) /\
  (snd (foldBounds query l mm) = snd mm \/
   exists c, In c l /\ snd (foldBounds query l mm) = distance c query).
Proof.
  induction l as [|x l IH]; intros mm; simpl.
  - split; [lra|]. split; [contradiction | now left].
  - destruct (IH (updateMinMax query x mm)) as (H1 & H2 & H3).
    unfold updateMinMax in *. simpl in *.
    fold (foldBounds query l
            (Rmin (fst mm) (distance x query),
             Rmax (distance x query) (snd mm))) in *.
    pose proof (Rmax_l (distance x query) (snd mm)).
    pose proof (Rmax_r (distance x query) (snd mm)).
    split; [lra|]. split.
    + intros c [<- | Hc]; [lra | auto].
    + destruct H3 as [H3 | (c & Hc & H3)].
      * rewrite H3. unfold Rmax. destruct (Rle_dec (distance x query) (snd mm)).
        -- now left.
        -- right. exists x. auto.
      * right. exists c. auto.
Qed.

Lemma distanceBounds_eq n query :
  distanceBounds n query =
  foldBounds query (boundaryCandidates n query)
             ((if responsible n query then 0 else DBL_MAX), 0).
Proof. reflexivity. Qed.

Lemma corners_are_candidates n query :
  incl [mkPoint (minX n) (minY n); mkPoint (minX n) (maxY n);
        mkPoint (maxX n) (minY n); mkPoint (maxX n) (maxY n)]
       (boundaryCandidates n query).
Proof.
  unfold boundaryCandidates. intros c Hc.
  apply in_or_app. right. apply in_or_app. now right.
Qed.

Lemma fst_distanceBounds_nonneg n query : 0 <= fst (distanceBounds n query).
Proof.
  rewrite distanceBounds_eq.
  destruct (foldBounds_min query (boundaryCandidates n query)
              ((if responsible n query then 0 else DBL_MAX), 0))
    as (_ & _ & [H | (c & _ & H)]); rewrite H.
  - simpl. destruct (responsible n query); [lra|].
    unfold DBL_MAX.
    assert (0 < 2 ^ 52) by (apply pow_lt; lra).
    assert (0 < 2 ^ 1023) by (apply pow_lt; lra).
    assert (/ 2 ^ 52 <= 1).
    { rewrite <- Rinv_1. apply Rinv_le_contravar; [lra|].
      apply pow_R1_Rle. lra. }
    nra.
  - apply distance_nonneg.
Qed.

Lemma horizontal_candidates n query :
  minX n < getX query < maxX n ->
  incl [mkPoint (getX query) (maxY n); mkPoint (getX query) (minY n)]
       (boundaryCandidates n query).
Proof.
  intros [H1 H2]. unfold boundaryCandidates.
  rewrite (proj2 (Rltb_true_iff _ _) H1), (proj2 (Rltb_true_iff _ _) H2).
  intros c Hc. apply in_or_app. now left.
Qed.

Lemma vertical_candidates n query :
  minY n < getY query < maxY n ->
  incl [mkPoint (maxX n) (getY query); mkPoint (minX n) (getY query)]
       (boundaryCandidates n query).
Proof.
  intros [H1 H2]. unfold boundaryCandidates.
  rewrite (proj2 (Rltb_true_iff _ _) H1), (proj2 (Rltb_true_iff _ _) H2).
  intros c Hc. apply in_or_app. right. apply in_or_app. now left.
Qed.

(** Membership of a concrete point among the candidates. *)
Ltac candidate :=
  first [ apply corners_are_candidates; simpl; tauto
        | apply horizontal_candidates; [lra | simpl; tauto]
        | apply vertical_candidates; [lra | simpl; tauto] ].

Ltac abs_le := simpl; unfold Rabs; repeat destruct Rcase_abs; lra.

Lemma responsible_inClosedRegion n p :
  responsible n p = true -> inClosedRegion n p.
Proof. intros H. apply responsible_iff in H. unfold inClosedRegion. lra. Qed.

(** The first component is below the distance to every point of the
    rectangle. *)
Lemma distanceBounds_below n query p :
  inClosedRegion n p -> fst (distanceBounds n query) <= distance p query.
Proof.
  intros Hp. rewrite distanceBounds_eq.
  destruct (foldBounds_min query (boundaryCandidates n query)
              ((if responsible n query then 0 else DBL_MAX), 0))
    as (Hinit & Hcand & _).
  destruct (responsible n query) eqn:Hq.
  { simpl in Hinit. pose proof (distance_nonneg p query). lra. }
  clear Hinit.
  assert (Hdom : forall c, In c (boundaryCandidates n query) ->
             Rabs (getX c - getX query) <= Rabs (getX p - getX query) ->
             Rabs (getY c - getY query) <= Rabs (getY p - getY query) ->
             fst (foldBounds query (boundaryCandidates n query) (DBL_MAX, 0))
             <= distance p query).
  { intros c Hc Hx Hy. eapply Rle_trans; [apply Hcand, Hc|].
    now apply distance_le_coordinates. }
  unfold inClosedRegion in Hp.
  assert (Hnq : ~ (minX n <= getX query < maxX n
                   /\ minY n <= getY query < maxY n)).
  { intros H. apply responsible_iff in H. congruence. }
  destruct (Rle_dec (getX query) (minX n)) as [Hx1 | Hx1];
    [| destruct (Rle_dec (maxX n) (getX query)) as [Hx2 | Hx2]];
    (destruct (Rle_dec (getY query) (minY n)) as [Hy1 | Hy1];
     [| destruct (Rle_dec (maxY n) (getY query)) as [Hy2 | Hy2]]).
  - apply (Hdom (mkPoint (minX n) (minY n))); [candidate | abs_le | abs_le].
  - apply (Hdom (mkPoint (minX n) (maxY n))); [candidate | abs_le | abs_le].
  - apply (Hdom (mkPoint (minX n) (getY query)));
      [candidate | abs_le | abs_le].
  - apply (Hdom (mkPoint (maxX n) (minY n))); [candidate | abs_le | abs_le].
  - apply (Hdom (mkPoint (maxX n) (maxY n))); [candidate | abs_le | abs_le].
  - apply (Hdom (mkPoint (maxX n) (getY query)));
      [candidate | abs_le | abs_le].
  - apply (Hdom (mkPoint (getX query) (minY n)));
      [candidate | abs_le | abs_le].
  - apply (Hdom (mkPoint (getX query) (maxY n)));
      [candidate | abs_le | abs_le].
  - exfalso. apply Hnq. lra.
Qed.

(** Pruning by [outOfReach] loses no element the node is responsible for. *)
Lemma distanceBounds_lower n query p :
  responsible n p = true -> fst (distanceBounds n query) <= distance p query.
Proof.
  intros H. now apply distanceBounds_below, responsible_inClosedRegion.
Qed.

(** The second component is above the distance to every point of the
    rectangle: the farthest point is a corner. *)
Lemma distanceBounds_above n query p :
  inClosedRegion n p -> distance p query <= snd (distanceBounds n query).
Proof.
  intros Hp. rewrite distanceBounds_eq.
  destruct (foldBounds_max query (boundaryCandidates n query)
              ((if responsible n query then 0 else DBL_MAX), 0))
    as (_ & Hcand & _).
  assert (Hdom : forall c, In c (boundaryCandidates n query) ->
             Rabs (getX p - getX query) <= Rabs (getX c - getX query) ->
             Rabs (getY p - getY query) <= Rabs (getY c - getY query) ->
             distance p query
             <= snd (foldBounds query (boundaryCandidates n query)
                       ((if responsible n query then 0 else DBL_MAX), 0))).
  { intros c Hc Hx Hy. eapply Rle_trans; [|apply Hcand, Hc].
    now apply distance_le_coordinates. }
  unfold inClosedRegion in Hp.
  destruct (Rle_dec (getX query - minX n) (maxX n - getX query));
    destruct (Rle_dec (getY query - minY n) (maxY n - getY query)).
  - apply (Hdom (mkPoint (maxX n) (maxY n))); [candidate | abs_le | abs_le].
  - apply (Hdom (mkPoint (maxX n) (minY n))); [candidate | abs_le | abs_le].
  - apply (Hdom (mkPoint (minX n) (maxY n))); [candidate | abs_le | abs_le].
  - apply (Hdom (mkPoint (minX n) (minY n))); [candidate | abs_le | abs_le].
Qed.

Lemma candidates_inClosedRegion n query c :
  minX n <= maxX n -> minY n <= maxY n ->
  In c (boundaryCandidates n query) -> inClosedRegion n c.
Proof.
  intros Hx Hy. unfold boundaryCandidates, inClosedRegion.
  destruct (Rltb (minX n) (getX query)) eqn:Hx1;
    destruct (Rltb (getX query) (maxX n)) eqn:Hx2;
    destruct (Rltb (minY n) (getY query)) eqn:Hy1;
    destruct (Rltb (getY query) (maxY n)) eqn:Hy2;
    simpl;
    try apply Rltb_true_iff in Hx1; try apply Rltb_true_iff in Hx2;
    try apply Rltb_true_iff in Hy1; try apply Rltb_true_iff in Hy2;
    intros H; repeat (destruct H as [<- | H]; [simpl; lra|]);
    contradiction.
Qed.

Lemma DBL_MAX_pos : 0 < DBL_MAX.
Proof.
  unfold DBL_MAX.
  assert (0 < 2 ^ 52) by (apply pow_lt; lra).
  assert (0 < 2 ^ 1023) by (apply pow_lt; lra).
  assert (/ 2 ^ 52 <= 1).
  { rewrite <- Rinv_1. apply Rinv_le_contravar; [lra|].
    apply pow_R1_Rle. lra. }
  nra.
Qed.

(** For a rectangle with a corner within [DBL_MAX] of the query, the pair is
    exactly the least and the greatest distance from the query to a point of
    the rectangle. *)
Lemma distanceBounds_exact n query :
  minX n <= maxX n -> minY n <= maxY n ->
  distance (mkPoint (minX n) (minY n)) query <= DBL_MAX ->
  (forall p, inClosedRegion n p ->
             fst (distanceBounds n query) <= distance p query
             <= snd (distanceBounds n query)) /\
  (exists p, inClosedRegion n p /\
             distance p query = fst (distanceBounds n query)) /\
  (exists p, inClosedRegion n p /\
             distance p query = snd (distanceBounds n query)).
Proof.
  intros Hx Hy Hrep.
  assert (Hcorner : In (mkPoint (minX n) (minY n))
                       (boundaryCandidates n query))
    by (apply corners_are_candidates; simpl; tauto).
  split; [|split].
  - intros p Hp. split;
      [now apply distanceBounds_below | now apply distanceBounds_above].
  - rewrite distanceBounds_eq.
    destruct (foldBounds_min query (boundaryCandidates n query)
                ((if responsible n query then 0 else DBL_MAX), 0))
      as (_ & Hcand & [Hfst | (c & Hc & Hfst)]).
    + simpl in Hfst. destruct (responsible n query) eqn:Hq.
      * exists query. split;
          [now apply responsible_inClosedRegion|].
        rewrite Hfst. apply distance_self.
      * exists (mkPoint (minX n) (minY n)). split.
        -- now apply (candidates_inClosedRegion n query).
        -- specialize (Hcand _ Hcorner). lra.
    + exists c. split; [now apply (candidates_inClosedRegion n query)|].
      now rewrite Hfst.
  - rewrite distanceBounds_eq.
    destruct (foldBounds_max query (boundaryCandidates n query)
                ((if responsible n query then 0 else DBL_MAX), 0))
      as (_ & Hcand & [Hsnd | (c & Hc & Hsnd)]).
    + simpl in Hsnd. exists (mkPoint (minX n) (minY n)). split.
      * now apply (candidates_inClosedRegion n query).
      * specialize (Hcand _ Hcorner).
        pose proof (distance_nonneg (mkPoint (minX n) (minY n)) query). lra.
    + exists c. split; [now apply (candidates_inClosedRegion n query)|].
      now rewrite Hsnd.
Qed.

(** ** Exact range query *)

Lemma EuclideanDistances_Ok n query mm :
  EuclideanDistances n query = Ok mm ->
  mm = distanceBounds n query /\
  fst mm < length2D query + length2D (mkPoint (maxX n) (maxY n)) /\
  fst mm < snd mm.
Proof.
  unfold EuclideanDistances. intros H.
  inv_bind H. inv_bind H. injection H as <-.
  apply Rltb_true_iff in Hstep, Hstep0. auto.
Qed.

Lemma getElementsInEuclideanCircle_eq n center radius result :
  getElementsInEuclideanCircle n center radius result =
  (far <- outOfReach n center radius ;;
   if far then Ok result
   else if isLeaf n then
     circleScan (radius * radius) (getX center) (getY center)
                (content n) (positions n) result
   else
     throughChildren
       (fun c res => getElementsInEuclideanCircle c center radius res)
       (children n) result).
Proof. destruct n; reflexivity. Qed.

(** The test of the leaf scan, on squares, is the comparison of the
    distance with a radius that is not negative. *)
Lemma squares_below_radius p center radius :
  0 <= radius ->
  Rltb ((getX p - getX center) * (getX p - getX center)
        + (getY p - getY center) * (getY p - getY center))
       (radius * radius)
  = Rltb (distance p center) radius.
Proof.
  intros Hr. unfold distance, squaredDistance.
  set (s := (getX p - getX center) * (getX p - getX center)
            + (getY p - getY center) * (getY p - getY center)).
  replace (0 + (getX p - getX center) * (getX p - getX center)
             + (getY p - getY center) * (getY p - getY center))
    with s by (unfold s; ring).
  assert (Hs : 0 <= s).
  { unfold s.
    pose proof (Rle_0_sqr (getX p - getX center)).
    pose proof (Rle_0_sqr (getY p - getY center)).
    unfold Rsqr in *. lra. }
  assert (Hrr : 0 <= radius * radius) by (apply Rle_0_sqr).
  destruct (Rltb (sqrt s) radius) eqn:E.
  - apply Rltb_true_iff in E. apply Rltb_true_iff.
    rewrite <- (sqrt_square radius Hr) in E.
    now apply sqrt_lt_0 in E.
  - apply Rltb_false_iff in E. apply Rltb_false_iff.
    rewrite <- (sqrt_square radius Hr) in E.
    now apply sqrt_le_0 in E.
Qed.

Lemma circleScan_sound center radius cs : forall ps result result',
  0 <= radius ->
  length cs = length ps ->
  circleScan (radius * radius) (getX center) (getY center) cs ps result
  = Ok result' ->
  result' = result
            ++ map fst (filter (fun ip => Rltb (distance (snd ip) center) radius)
                               (combine cs ps)).
Proof.
  induction cs as [|c cs IH]; intros [|p ps] result result' Hr Hlen H;
    simpl in *; try discriminate.
  - injection H as <-. now rewrite app_nil_r.
  - rewrite squares_below_radius in H by assumption.
    destruct (Rltb (distance p center) radius).
    + inv_bind H. apply IH in H; [|assumption|congruence].
      rewrite H, <- app_assoc. reflexivity.
    + apply IH in H; [|assumption|congruence]. exact H.
Qed.

Lemma filter_none {A} (f : A -> bool) (l : list A) :
  (forall x, In x l -> f x = false) -> filter f l = [].
Proof.
  induction l as [|x l IH]; simpl; intros H; [reflexivity|].
  rewrite (H x) by now left. apply IH. intros y Hy. apply H. now right.
Qed.

Lemma throughChildren_eq {S} (f : QuadNode -> S -> outcome S) c cs s :
  throughChildren f (c :: cs) s = (s' <- f c s ;; throughChildren f cs s').
Proof. reflexivity. Qed.

Lemma bruteForceCircle_internal n center radius :
  isLeaf n = false ->
  bruteForceCircle n center radius
  = flat_map (fun c => bruteForceCircle c center radius) (children n).
Proof.
  intros Hl. unfold bruteForceCircle. rewrite storedPairs_eq, Hl.
  induction (children n) as [|c cs IH]; simpl; [reflexivity|].
  rewrite filter_app, map_app, IH. reflexivity.
Qed.

(** Whenever the circle query returns, it has appended the brute-force
    answer, in the order of the leaves. *)
Lemma getElementsInEuclideanCircle_sound n : forall center radius result result',
  wf n ->
  getElementsInEuclideanCircle n center radius result = Ok result' ->
  result' = result ++ bruteForceCircle n center radius.
Proof.
  induction n as [n IH] using QuadNode_induction.
  intros center radius result result' Hwf H.
  rewrite getElementsInEuclideanCircle_eq in H.
  inv_bind H. unfold outOfReach in Hstep. inv_bind Hstep.
  injection Hstep as <-.
  apply EuclideanDistances_Ok in Hstep0. destruct Hstep0 as (-> & _ & _).
  destruct (Rltb radius (fst (distanceBounds n center))) eqn:Hfar.
  - (* pruned *)
    injection H as <-. apply Rltb_true_iff in Hfar.
    unfold bruteForceCircle.
    rewrite filter_none; [now rewrite app_nil_r|].
    intros ip Hip. apply Rltb_false_iff.
    pose proof (wf_stored_responsible _ Hwf _ Hip) as Hresp.
    pose proof (distanceBounds_lower n center _ Hresp). lra.
  - apply Rltb_false_iff in Hfar.
    pose proof (fst_distanceBounds_nonneg n center) as Hnn.
    assert (Hr : 0 <= radius) by lra.
    destruct (isLeaf n) eqn:Hleaf.
    + inversion Hwf as [n0 _ _ Hlen _ _ | n0 mx my Hl]; subst n0;
        [|congruence].
      apply circleScan_sound in H; [|assumption|assumption].
      unfold bruteForceCircle. rewrite storedPairs_eq, Hleaf. exact H.
    + rewrite (bruteForceCircle_internal _ _ _ Hleaf).
      apply wf_internal_iff in Hwf; [|exact Hleaf].
      destruct Hwf as ((_ & _ & _ & Hk) & _).
      clear Hleaf Hfar Hnn. revert result H.
      induction (children n) as [|c cs IHcs]; intros result H.
      * simpl in H. injection H as <-. simpl. now rewrite app_nil_r.
      * rewrite throughChildren_eq in H.
        apply bind_Ok in H. destruct H as (res1 & Hc & H).
        inversion IH as [|c0 cs0 IHc IHrest]; subst c0 cs0.
        inversion Hk as [|c0 cs0 Hkc Hkrest]; subst c0 cs0.
        apply IHc in Hc; [|assumption]. subst res1.
        apply IHcs in H; [|assumption|assumption].
        simpl. rewrite H, <- app_assoc. reflexivity.
Qed.

(** ** Sample trees and sample bounds *)

(** Runs the model on concrete numbers. *)
Ltac run :=
  repeat (progress (simpl; unfold responsible, split, reAddAll; simpl;
                    rdecide)).

(** Evaluates field updates and projections of concrete nodes, inner
    updates first. *)
Ltac fields :=
  cbv [setBuffers setSubTreeSize setChildren setID newNode leafOf
       minX minY maxX maxY capacity subTreeSize content positions isLeaf
       splitTheoretical ID children getX getY].

Lemma splitSquare_built :
  exists t1,
    addContent 1 1%Z (mkPoint (-1 / 2) (-1 / 2)) originSquare = Ok t1 /\
    addContent 3 2%Z (mkPoint (1 / 2) (1 / 2)) t1 = Ok splitSquare.
Proof.
  eexists. split.
  - unfold originSquare. run. reflexivity.
  - run. unfold splitSquare, originSquare. fields.
    repeat f_equal; lra.
Qed.

Lemma EuclideanDistances_returns n query :
  fst (distanceBounds n query)
  < length2D query + length2D (mkPoint (maxX n) (maxY n)) ->
  fst (distanceBounds n query) < snd (distanceBounds n query) ->
  EuclideanDistances n query = Ok (distanceBounds n query).
Proof.
  intros H1 H2. unfold EuclideanDistances.
  rewrite (proj2 (Rltb_true_iff _ _) H1), (proj2 (Rltb_true_iff _ _) H2).
  reflexivity.
Qed.

Lemma EuclideanDistances_aborts n query :
  length2D query + length2D (mkPoint (maxX n) (maxY n))
  <= fst (distanceBounds n query) ->
  EuclideanDistances n query = Abort.
Proof.
  intros H. unfold EuclideanDistances.
  rewrite (proj2 (Rltb_false_iff _ _) H). reflexivity.
Qed.

Lemma length2D_origin : length2D origin = 0.
Proof.
  unfold length2D, origin. simpl.
  replace (0 + 0 * 0 + 0 * 0) with 0 by ring. apply sqrt_0.
Qed.

Lemma distance_origin x y :
  distance (mkPoint x y) origin = sqrt (x * x + y * y).
Proof.
  unfold distance, squaredDistance, origin. simpl. f_equal. ring.
Qed.

Lemma southWestCell_bounds :
  distanceBounds southWestCell origin = (0, sqrt 2).
Proof.
  assert (H0 : distance origin origin = 0) by apply distance_self.
  assert (H1 : distance (mkPoint (-1) 0) origin = 1).
  { rewrite distance_origin. replace (-1 * -1 + 0 * 0) with 1 by ring.
    apply sqrt_1. }
  assert (H2 : distance (mkPoint 0 (-1)) origin = 1).
  { rewrite distance_origin. replace (0 * 0 + -1 * -1) with 1 by ring.
    apply sqrt_1. }
  assert (H3 : distance (mkPoint (-1) (-1)) origin = sqrt 2).
  { rewrite distance_origin. f_equal. ring. }
  assert (Hs : 1 <= sqrt 2).
  { rewrite <- sqrt_1 at 1. apply sqrt_le_1_alt. lra. }
  pose proof DBL_MAX_pos as HD.
  unfold distanceBounds, boundaryCandidates, southWestCell, responsible.
  simpl. fold origin. rdecide. simpl. unfold updateMinMax. simpl.
  fold origin. rewrite H0, H1, H2, H3.
  f_equal.
  - rewrite Rmin_right; [reflexivity|].
    repeat (apply Rmin_glb); lra.
  - rewrite (Rmax_left (sqrt 2) 0) by lra.
    rewrite (Rmax_right 1 (sqrt 2)) by lra.
    rewrite (Rmax_right 1 (sqrt 2)) by lra.
    rewrite (Rmax_right 0 (sqrt 2)) by lra. reflexivity.
Qed.

Lemma southWestCell_aborts :
  EuclideanDistances southWestCell origin = Abort.
Proof.
  apply EuclideanDistances_aborts.
  rewrite southWestCell_bounds. simpl.
  change (mkPoint 0 0) with origin. rewrite length2D_origin. lra.
Qed.

Lemma splitSquare_reachable : reachable splitSquare.
Proof.
  destruct splitSquare_built as (t1 & H1 & H2).
  eapply reach_add; [|exact H2].
  eapply reach_add; [|exact H1].
  apply reach_new.
Qed.

Lemma half_below_one : sqrt (/ 2) < 1.
Proof. rewrite <- sqrt_1. apply sqrt_lt_1_alt. lra. Qed.

Lemma query_aborts_in_first_child n c cs center radius result mm :
  isLeaf n = false -> children n = c :: cs ->
  EuclideanDistances n center = Ok mm -> fst mm <= radius ->
  EuclideanDistances c center = Abort ->
  getElementsInEuclideanCircle n center radius result = Abort.
Proof.
  intros Hl Hc Hn Hr Hab.
  rewrite getElementsInEuclideanCircle_eq. unfold outOfReach.
  rewrite Hn. simpl. rewrite (proj2 (Rltb_false_iff _ _) Hr), Hl, Hc.
  rewrite throughChildren_eq, getElementsInEuclideanCircle_eq.
  unfold outOfReach. rewrite Hab. reflexivity.
Qed.

(** ** The branch test of the probabilistic query *)

Lemma Int_part_bounds x : IZR (Int_part x) <= x < IZR (Int_part x) + 1.
Proof.
  unfold Int_part. rewrite minus_IZR. destruct (archimed x). lra.
Qed.

Lemma Int_part_IZR z : Int_part (IZR z) = z.
Proof.
  unfold Int_part.
  rewrite <- (up_tech (IZR z) z); [lia | lra |].
  rewrite plus_IZR. lra.
Qed.

Lemma trunc_IZR z : (0 <= z)%Z -> trunc (IZR z) = z.
Proof.
  intros Hz. unfold trunc.
  destruct (Rle_dec 0 (IZR z)) as [_ | H].
  - apply Int_part_IZR.
  - exfalso. apply H. now apply IZR_le.
Qed.

(** Truncation does not move a value across an integer bound above it. *)
Lemma trunc_below x (k : Z) : (0 < k)%Z -> ((trunc x < k)%Z <-> x < IZR k).
Proof.
  intros Hk. unfold trunc.
  destruct (Rle_dec 0 x) as [Hx | Hx].
  - pose proof (Int_part_bounds x) as [Hlo Hhi]. split; intros H.
    + apply IZR_lt in H.
      assert (IZR (Int_part x) + 1 <= IZR k).
      { rewrite <- plus_IZR. apply IZR_le. apply lt_IZR in H. lia. }
      lra.
    + apply lt_IZR. lra.
  - assert (Hneg : (0 <= Int_part (- x))%Z).
    { pose proof (Int_part_bounds (- x)) as [Hlo Hhi].
      apply le_IZR. apply Rnot_le_lt in Hx.
      destruct (Z_le_gt_dec 0 (Int_part (- x))) as [H | H];
        [now apply IZR_le|].
      assert (IZR (Int_part (- x)) + 1 <= 0).
      { rewrite <- plus_IZR. apply IZR_le. lia. }
      lra. }
    split; intros _.
    + apply Rnot_le_lt in Hx. assert (0 < IZR k) by (now apply IZR_lt). lra.
    + lia.
Qed.

(** What the test of the internal branch decides. *)
Lemma selectsDirectly_iff probUB (sz : Z) :
  selectsDirectly (trunc (probUB * IZR sz)) probUB = true <->
  probUB * IZR sz < 4 \/ probUB < 0.
Proof.
  unfold selectsDirectly. rewrite orb_true_iff, Z.ltb_lt, Rltb_true_iff.
  rewrite (trunc_below _ 4) by lia.
  change (IZR (Z.quot 1 1000)) with 0. tauto.
Qed.

Section ProbabilisticFacts.

Variable prob : R -> R.
Variable log : R -> R.
Variable real : nat -> R.

Lemma getElementsProbabilistically_eq n euQuery st :
  getElementsProbabilistically prob log real n euQuery st =
  (distancePair <- EuclideanDistances n euQuery ;;
   let probUB0 := prob (fst distancePair) in
   let probLB := prob (snd distancePair) in
   assert (Rleb probLB probUB0) ;;;
   let probUB := if Rltb 0.5 probUB0 then 1 else probUB0 in
   if Reqb probUB 0 then Ok (0%Z, st)
   else
     let probdenom := log (1 - probUB) in
     if Reqb probdenom 0 then Ok (0%Z, st)
     else
       let expectedNeighbours := trunc (probUB * IZR (size n)) in
       let incomingNeighbours := Z.of_nat (length (snd st)) in
       let ownsize := size n in
       r <- (if isLeaf n then
               leafJumpLoop prob log real n euQuery distancePair probUB
                            probdenom (S (length (content n))) 0%Z 0%Z st
             else if selectsDirectly expectedNeighbours probUB then
               assert (Rltb probUB 1) ;;;
               directJumpLoop prob log real n euQuery probUB probdenom
                              (S (Z.to_nat (size n))) 0%Z 0%Z st
             else
               throughChildren
                 (fun c acc =>
                    r <- getElementsProbabilistically prob log real c
                           euQuery (snd acc) ;;
                    Ok ((fst acc + fst r)%Z, snd r))
                 (children n) (0%Z, st)) ;;
       let finalNeighbours := Z.of_nat (length (snd (snd r))) in
       (if Reqb probLB 1 then
          assert (finalNeighbours =? incomingNeighbours + ownsize)%Z
        else Ok tt) ;;;
       Ok r).
Proof. destruct n; reflexivity. Qed.

End ProbabilisticFacts.

(** ** Stable indexing *)

Lemma indexSubtree_eq n nextID :
  indexSubtree n nextID =
  (assert ((length (children n) =? 4)%nat || (length (children n) =? 0)%nat) ;;;
   r <- updateChildren indexSubtree (children n) nextID ;;
   let result := fst r in
   Ok ((result + 1)%Z, setID (setChildren n (isLeaf n) (snd r)) result)).
Proof. destruct n; reflexivity. Qed.

Lemma updateChildren_eq {S} (f : QuadNode -> S -> outcome (S * QuadNode))
  c cs s :
  updateChildren f (c :: cs) s =
  (r <- f c s ;; rs <- updateChildren f cs (fst r) ;;
   Ok (fst rs, snd r :: snd rs)).
Proof. reflexivity. Qed.

Lemma countNodes_eq n :
  countNodes n = S (list_sum (map countNodes (children n))).
Proof. destruct n; reflexivity. Qed.

Lemma postorderIDs_eq n :
  postorderIDs n = flat_map postorderIDs (children n) ++ [ID n].
Proof. destruct n; reflexivity. Qed.

Lemma clearIDs_eq n :
  clearIDs n = setID (setChildren n (isLeaf n) (map clearIDs (children n))) 0.
Proof. destruct n; reflexivity. Qed.

Lemma map_seq_from {A} (f : nat -> A) a k :
  map f (seq a k) = map (fun i => f (a + i)%nat) (seq 0 k).
Proof.
  revert a f. induction k as [|k IH]; intros a f; [reflexivity|].
  simpl. rewrite Nat.add_0_r. f_equal.
  rewrite (IH (S a) f), (IH 1%nat (fun i => f (a + i)%nat)).
  apply map_ext. intros i. f_equal. lia.
Qed.

Lemma consecutive_app start k k' :
  consecutive start (k + k')
  = consecutive start k ++ consecutive (start + Z.of_nat k) k'.
Proof.
  unfold consecutive. rewrite seq_app, map_app. f_equal.
  rewrite map_seq_from. apply map_ext. intros i. lia.
Qed.

Lemma consecutive_length start k : length (consecutive start k) = k.
Proof. unfold consecutive. now rewrite length_map, length_seq. Qed.

Lemma branching_children n :
  branching n -> Forall branching (children n).
Proof. now inversion 1. Qed.

(** Numbering a list of children. *)
Lemma updateChildren_indexSubtree cs :
  Forall (fun c => forall nextID, exists c',
            indexSubtree c nextID
            = Ok ((nextID + Z.of_nat (countNodes c))%Z, c') /\
            postorderIDs c' = consecutive nextID (countNodes c) /\
            clearIDs c' = clearIDs c /\ isLeaf c' = isLeaf c) cs ->
  forall nextID, exists cs',
    updateChildren indexSubtree cs nextID
    = Ok ((nextID + Z.of_nat (list_sum (map countNodes cs)))%Z, cs') /\
    flat_map postorderIDs cs'
    = consecutive nextID (list_sum (map countNodes cs)) /\
    map clearIDs cs' = map clearIDs cs /\
    map isLeaf cs' = map isLeaf cs /\ length cs' = length cs.
Proof.
  induction 1 as [|c cs Hc Hcs IH]; intros nextID.
  - exists []. simpl. rewrite Z.add_0_r. repeat split.
  - destruct (Hc nextID) as (c' & Hi & Hp & Hcl & Hl).
    destruct (IH (nextID + Z.of_nat (countNodes c))%Z)
      as (cs' & Hi' & Hp' & Hcl' & Hl' & Hlen).
    exists (c' :: cs'). rewrite updateChildren_eq, Hi. simpl bind.
    rewrite Hi'. simpl. repeat split.
    + do 2 f_equal. lia.
    + rewrite Hp, Hp'. symmetry. apply consecutive_app.
    + congruence.
    + congruence.
    + congruence.
Qed.

Lemma indexSubtree_postorder_all n :
  branching n ->
  forall nextID, exists n',
    indexSubtree n nextID = Ok ((nextID + Z.of_nat (countNodes n))%Z, n') /\
    postorderIDs n' = consecutive nextID (countNodes n) /\
    clearIDs n' = clearIDs n /\ isLeaf n' = isLeaf n.
Proof.
  induction n as [n IH] using QuadNode_induction.
  intros Hb nextID.
  assert (Hkids : Forall (fun c => forall nextID, exists c',
            indexSubtree c nextID
            = Ok ((nextID + Z.of_nat (countNodes c))%Z, c') /\
            postorderIDs c' = consecutive nextID (countNodes c) /\
            clearIDs c' = clearIDs c /\ isLeaf c' = isLeaf c) (children n)).
  { pose proof (branching_children _ Hb) as Hbc.
    rewrite Forall_forall in *. intros c Hc. apply IH; auto. }
  destruct (updateChildren_indexSubtree _ Hkids nextID)
    as (cs' & Hu & Hp & Hcl & Hl & Hlen).
  inversion Hb as [n0 Hfour _]; subst n0.
  rewrite indexSubtree_eq.
  replace ((length (children n) =? 4)%nat || (length (children n) =? 0)%nat)
    with true.
  2:{ symmetry. apply orb_true_iff.
      destruct Hfour as [-> | ->]; [now left | now right]. }
  simpl bind. rewrite Hu. simpl.
  eexists. split; [|split; [|split]].
  - rewrite countNodes_eq. do 2 f_equal. lia.
  - rewrite postorderIDs_eq. simpl. rewrite Hp, countNodes_eq.
    replace (S (list_sum (map countNodes (children n))))
      with (list_sum (map countNodes (children n)) + 1)%nat by lia.
    rewrite consecutive_app. f_equal.
    unfold consecutive. simpl. now rewrite Z.add_0_r.
  - rewrite clearIDs_eq, (clearIDs_eq n). simpl. now rewrite Hcl.
  - reflexivity.
Qed.

Lemma splitSquare_branching : branching splitSquare.
Proof.
  apply branching_node; [now left|].
  repeat (apply Forall_cons;
          [apply branching_node; [now right | apply Forall_nil]|]).
  apply Forall_nil.
Qed.

(** ** Coarsening *)

Lemma removeFromChildren_each remove cs :
  forall removed0 al0 cs' removedF alF,
    removeFromChildren remove cs removed0 al0 = Ok (cs', removedF, alF) ->
    Forall2 (fun c c' => exists b, remove c = Ok (b, c')) cs cs' /\
    alF = al0 && forallb isLeaf cs.
Proof.
  induction cs as [|c cs IH]; intros removed0 al0 cs' removedF alF H.
  - simpl in H. injection H as <- <- <-. split; [constructor|].
    now rewrite andb_true_r.
  - rewrite removeFromChildren_eq in H. cbv zeta in H.
    apply bind_Ok in H. destruct H as ([b c'] & Hc & H).
    apply bind_Ok in H. destruct H as (removed' & _ & H).
    apply bind_Ok in H. destruct H as ([[cs1 rF] aF] & Hrest & H).
    simpl in H. injection H as <- <- <-.
    destruct (IH _ _ _ _ _ Hrest) as [Hall Hal]. split.
    + constructor; eauto.
    + rewrite Hal. simpl. destruct (isLeaf c), al0; reflexivity.
Qed.

Lemma child_not_responsible n pos :
  wf n -> isLeaf n = false -> responsible n pos = false ->
  Forall (fun c => responsible c pos = false) (children n).
Proof.
  intros Hwf Hl Hr. apply wf_internal_iff in Hwf; [|exact Hl].
  destruct Hwf as ((_ & (mx & my & Hx & Hy & Hq) & _) & _).
  apply Forall_forall. intros c Hc.
  destruct (responsible c pos) eqn:E; [|reflexivity].
  rewrite (quadrant_responsible n mx my (children n) c pos Hx Hy Hq Hc E)
    in Hr. discriminate.
Qed.

Lemma Forall2_same {A} (P : A -> A -> Prop) (l : list A) :
  Forall (fun x => P x x) l -> Forall2 P l l.
Proof. induction 1; constructor; auto. Qed.

Lemma forallb_isLeaf cs :
  forallb isLeaf cs = true <-> Forall (fun c => isLeaf c = true) cs.
Proof. rewrite forallb_forall, Forall_forall. tauto. Qed.

(** ** A coarsened tree *)

Lemma threeInSquare_built :
  addContent 2 3%Z (mkPoint (1 / 2) (-1 / 2)) splitSquare = Ok threeInSquare.
Proof.
  unfold splitSquare, originSquare. run.
  unfold threeInSquare, originSquare. fields.
  repeat f_equal; lra.
Qed.

Lemma Reqb_distance_self p : Reqb (distance p p) 0 = true.
Proof. apply Reqb_true_iff, distance_self. Qed.

Lemma coarsenedSquare_built :
  removeContent 3%Z (mkPoint (1 / 2) (-1 / 2)) threeInSquare
  = Ok (true, coarsenedSquare).
Proof.
  rewrite removeContent_eq.
  unfold threeInSquare, originSquare. run.
  rewrite Reqb_distance_self. unfold erase. simpl.
  unfold coarsenedSquare, originSquare. fields. reflexivity.
Qed.

Lemma threeInSquare_reachable : reachable threeInSquare.
Proof.
  eapply reach_add; [exact splitSquare_reachable | exact threeInSquare_built].
Qed.

Lemma coarsenedSquare_reachable : reachable coarsenedSquare.
Proof.
  eapply reach_remove;
    [exact threeInSquare_reachable | exact coarsenedSquare_built].
Qed.

(** ** Occupancy of the leaves *)

Lemma leaves_eq n :
  leaves n = if isLeaf n then [n] else flat_map leaves (children n).
Proof. destruct n; reflexivity. Qed.

Lemma wf_leaves n :
  wf n ->
  Forall (fun l => wf l /\ isLeaf l = true /\ capacity l = capacity n)
         (leaves n).
Proof.
  induction n as [n IH] using QuadNode_induction.
  intros Hwf. rewrite leaves_eq.
  destruct (isLeaf n) eqn:Hleaf.
  - apply Forall_cons; [|apply Forall_nil]. auto.
  - apply wf_internal_iff in Hwf; [|exact Hleaf].
    destruct Hwf as ((_ & _ & Hcap & Hk) & _).
    apply Forall_flat_map. rewrite Forall_forall in *.
    intros c Hc. specialize (IH c Hc (Hk c Hc)).
    rewrite Forall_forall in *. intros l Hl.
    destruct (IH l Hl) as (Hw & Hlf & Hcp).
    repeat split; auto. rewrite Hcp. auto.
Qed.

Lemma addContent_internal_stays fuel input pos n n' :
  isLeaf n = false -> addContent fuel input pos n = Ok n' ->
  isLeaf n' = false.
Proof.
  intros Hl H. destruct fuel as [|fuel]; [discriminate|].
  rewrite addContent_eq in H.
  do 3 (apply bind_Ok in H; destruct H as (? & _ & H)).
  rewrite Hl in H.
  do 2 (apply bind_Ok in H; destruct H as (? & _ & H)).
  injection H as <-. reflexivity.
Qed.

(** What [addContent] does to a leaf: it appends while there is room, and
    otherwise the leaf is split, hence internal, when the call returns. *)
Lemma addContent_leaf fuel input pos l l' :
  isLeaf l = true ->
  addContent (S fuel) input pos l = Ok l' ->
  if (Z.of_nat (length (content l)) + 1 <? capacity l)%Z
  then l' = setBuffers l (content l ++ [input]) (positions l ++ [pos])
  else (exists l1, split l = Ok l1) /\ isLeaf l' = false.
Proof.
  intros Hl H. rewrite addContent_eq in H.
  do 3 (apply bind_Ok in H; destruct H as (? & _ & H)).
  rewrite Hl in H.
  destruct (Z.of_nat (length (content l)) + 1 <? capacity l)%Z.
  - now injection H as <-.
  - apply bind_Ok in H; destruct H as (l1 & Hs & H).
    apply bind_Ok in H; destruct H as (l2 & Hre & H).
    apply bind_Ok in H; destruct H as (? & _ & H).
    split; [eauto|].
    eapply addContent_internal_stays; [|exact H]. simpl.
    (* the node stays internal through the loop *)
    assert (Hl1 : isLeaf l1 = false).
    { destruct (split_Ok _ _ Hs) as (mx & my & _ & _ & ->). reflexivity. }
    clear - Hre Hl1. unfold reAddAll in Hre.
    remember (combine (content l1) (positions l1)) as buffered eqn:E.
    clear E. revert l1 Hl1 Hre.
    induction buffered as [|ip rest IH]; intros l1 Hl1 Hre.
    + simpl in Hre. now injection Hre as <-.
    + simpl in Hre. apply bind_Ok in Hre. destruct Hre as (m & Hm & Hre).
      apply (IH m); [|exact Hre].
      eapply addContent_internal_stays; eauto.
Qed.

(** ** Positions outside the region *)

Lemma addContent_outside fuel input pos n :
  responsible n pos = false -> addContent (S fuel) input pos n = Abort.
Proof.
  intros H. rewrite addContent_eq, H.
  destruct (belowSanityLimit input); [|reflexivity].
  destruct (length (content n) =? length (positions n))%nat; reflexivity.
Qed.

(** ** Sorting the leaves *)

Lemma insertSorted_perm {A} (comp : A -> A -> bool) x l :
  Permutation (insertSorted comp x l) (x :: l).
Proof.
  induction l as [|y l IH]; simpl; [reflexivity|].
  destruct (comp x y); [reflexivity|].
  rewrite IH. apply perm_swap.
Qed.

Lemma std_sort_perm {A} (comp : A -> A -> bool) l :
  Permutation (std_sort comp l) l.
Proof.
  induction l as [|x l IH]; simpl; [reflexivity|].
  unfold std_sort in *. simpl. rewrite insertSorted_perm. now constructor.
Qed.

Lemma insertSorted_sorted {A} (key : A -> R) x l :
  StronglySorted (fun a b => key a <= key b) l ->
  StronglySorted (fun a b => key a <= key b)
                 (insertSorted (fun a b => Rltb (key a) (key b)) x l).
Proof.
  induction 1 as [|y l Hl IH Hy]; simpl.
  - repeat constructor.
  - destruct (Rltb (key x) (key y)) eqn:E.
    + apply Rltb_true_iff in E. constructor.
      * now constructor.
      * constructor; [lra|].
        eapply Forall_impl; [|exact Hy]. simpl. intros z Hz. lra.
    + apply Rltb_false_iff in E. constructor; [exact IH|].
      eapply Permutation_Forall;
        [apply Permutation_sym, insertSorted_perm|].
      constructor; assumption.
Qed.

Lemma std_sort_sorted {A} (key : A -> R) l :
  StronglySorted (fun a b => key a <= key b)
                 (std_sort (fun a b => Rltb (key a) (key b)) l).
Proof.
  induction l as [|x l IH]; simpl; [constructor|].
  now apply insertSorted_sorted.
Qed.

Lemma StronglySorted_map {A B} (f : A -> B) (RA : A -> A -> Prop)
  (RB : B -> B -> Prop) l :
  (forall a b, RA a b -> RB (f a) (f b)) ->
  StronglySorted RA l -> StronglySorted RB (map f l).
Proof.
  intros Hf. induction 1 as [|x l Hl IH Hx]; simpl; constructor; auto.
  apply Forall_map. eapply Forall_impl; [|exact Hx]. auto.
Qed.

(** Reading a vector at the indices of [permutation]. *)
Lemma pick_in_range {A} (v : list A) (d : A) permutation :
  Forall (fun i => (i < length v)%nat) permutation ->
  fold_right (fun perm acc =>
                rest <- acc ;;
                match nth_error v perm with
                | Some x => Ok (x :: rest)
                | None => Abort
                end) (Ok []) permutation
  = Ok (map (fun i => nth i v d) permutation).
Proof.
  induction 1 as [|i l Hi Hl IH]; simpl; [reflexivity|].
  rewrite IH. simpl.
  rewrite (nth_error_nth' v d Hi). reflexivity.
Qed.

Lemma combine_map_same {A B C} (f : A -> B) (g : A -> C) l :
  combine (map f l) (map g l) = map (fun x => (f x, g x)) l.
Proof. induction l as [|x l IH]; simpl; [reflexivity|]. now rewrite IH. Qed.

Lemma combine_by_index {A B} (l : list A) (l' : list B) a b :
  length l = length l' ->
  combine l l' = map (fun i => (nth i l a, nth i l' b)) (seq 0 (length l)).
Proof.
  revert l'. induction l as [|x l IH]; intros [|y l'] H; simpl in *;
    try discriminate; [reflexivity|].
  f_equal. rewrite <- seq_shift, map_map. apply IH. congruence.
Qed.

Lemma Forall2_framePost cs cs' :
  Forall2 framePost cs cs' ->
  Forall wf cs' /\ map region cs' = map region cs /\
  map capacity cs' = map capacity cs /\ sumSizes cs' = sumSizes cs.
Proof.
  induction 1 as [|c c' cs cs' (Hw & Hr & Hc & Hs & _) _ (IH1 & IH2 & IH3 & IH4)].
  - simpl. auto.
  - split; [now constructor|]. rewrite !sumSizes_cons. simpl.
    repeat split; congruence.
Qed.

(** Replacing the children of an internal node by children with the same
    frame keeps the invariants. *)
Lemma framePost_internal n cs' :
  wf n -> isLeaf n = false -> Forall2 framePost (children n) cs' ->
  framePost n (setChildren n (isLeaf n) cs').
Proof.
  intros Hwf Hl H2.
  destruct (Forall2_framePost _ _ H2) as (Hw & Hr & Hc & Hs).
  rewrite Hl. unfold framePost. simpl.
  split; [|unfold size; simpl; rewrite Hl; auto].
  apply wf_internal_iff in Hwf; [|exact Hl].
  destruct Hwf as ((_ & (mx & my & Hx & Hy & Hq) & Hcap & Hk) & Hc0 & Hp0 & Hs0).
  apply (wf_internal _ mx my); simpl; auto.
  - unfold quadrants in *. simpl. congruence.
  - eapply Forall_map_eq; eauto.
  - congruence.
Qed.

Lemma Forall2_flat_map {A B C D} (P : A -> B -> Prop) (Q : C -> D -> Prop)
  (f : A -> list C) (g : B -> list D) l l' :
  Forall2 (fun a b => Forall2 Q (f a) (g b)) l l' ->
  Forall2 Q (flat_map f l) (flat_map g l').
Proof.
  induction 1; simpl; [constructor|]. now apply Forall2_app.
Qed.

Lemma map_snd_combine {A B} (l : list A) (l' : list B) :
  length l = length l' -> map snd (combine l l') = l'.
Proof.
  revert l'. induction l as [|x l IH]; intros [|y l'] H; simpl in *;
    try discriminate; [reflexivity|].
  f_equal. apply IH. congruence.
Qed.

Lemma sortLeaf_spec n :
  length (content n) = length (positions n) ->
  exists c' p',
    sortLeaf n = Ok (setBuffers n c' p') /\
    length c' = length p' /\
    Permutation (combine c' p') (buffer n) /\
    StronglySorted byX (combine c' p').
Proof.
  intros Hlen. unfold sortLeaf.
  rewrite Hlen, Nat.leb_refl. simpl bind.
  set (xOf := fun i : nat => getX (nth i (positions n) (mkPoint 0 0))).
  set (permutation := std_sort (fun i j => Rltb (xOf i) (xOf j))
                               (seq 0 (length (positions n)))).
  assert (Hperm : Permutation permutation (seq 0 (length (positions n))))
    by apply std_sort_perm.
  assert (Hrange : Forall (fun i => (i < length (positions n))%nat)
                          permutation).
  { eapply Permutation_Forall; [apply Permutation_sym, Hperm|].
    apply Forall_forall. intros i Hi. apply in_seq in Hi. lia. }
  rewrite (pick_in_range (content n) 0%Z); [|now rewrite Hlen].
  simpl bind.
  rewrite (pick_in_range (positions n) (mkPoint 0 0)); [|exact Hrange].
  simpl bind.
  eexists _, _. split; [reflexivity|].
  rewrite combine_map_same. split; [now rewrite !length_map|]. split.
  - unfold buffer.
    rewrite (combine_by_index (content n) (positions n) 0%Z (mkPoint 0 0))
      by exact Hlen.
    rewrite Hlen. now apply Permutation_map.
  - apply (StronglySorted_map _ (fun i j => xOf i <= xOf j)).
    + intros a b Hab. exact Hab.
    + apply std_sort_sorted.
Qed.

Lemma sortPointsInLeaves_eq n :
  sortPointsInLeaves n =
  if isLeaf n then sortLeaf n
  else
    r <- updateFirstChildren
           (fun c (_ : unit) => c' <- sortPointsInLeaves c ;; Ok (tt, c'))
           4 (children n) tt ;;
    Ok (setChildren n (isLeaf n) (snd r)).
Proof. destruct n; reflexivity. Qed.

Lemma updateFirstChildren_eq {S}
  (f : QuadNode -> S -> outcome (S * QuadNode)) k c cs s :
  updateFirstChildren f (Datatypes.S k) (c :: cs) s =
  (r <- f c s ;; rs <- updateFirstChildren f k cs (fst r) ;;
   Ok (fst rs, snd r :: snd rs)).
Proof. reflexivity. Qed.

Lemma updateFirstChildren_sort cs :
  Forall (fun c => exists c', sortPointsInLeaves c = Ok c' /\ sortPost c c')
         cs ->
  exists cs',
    updateFirstChildren
      (fun c (_ : unit) => c' <- sortPointsInLeaves c ;; Ok (tt, c'))
      (length cs) cs tt = Ok (tt, cs') /\
    Forall2 sortPost cs cs'.
Proof.
  induction 1 as [|c cs (c' & Hc & Hp) _ (cs' & Hcs & Hps)].
  - exists []. split; [reflexivity | constructor].
  - exists (c' :: cs'). simpl length.
    rewrite updateFirstChildren_eq, Hc. simpl bind. rewrite Hcs. simpl.
    split; [reflexivity | now constructor].
Qed.

Lemma wf_four_children n :
  wf n -> isLeaf n = false -> length (children n) = 4%nat.
Proof.
  intros Hwf Hl. apply wf_internal_iff in Hwf; [|exact Hl].
  destruct Hwf as ((_ & (mx & my & _ & _ & Hq) & _) & _).
  destruct (quadrants_inv _ _ _ _ Hq) as (sw & se & nw & ne & -> & _).
  reflexivity.
Qed.

Lemma wf_children n : wf n -> isLeaf n = false -> Forall wf (children n).
Proof.
  intros Hwf Hl. apply wf_internal_iff in Hwf; [|exact Hl].
  now destruct Hwf as ((_ & _ & _ & Hk) & _).
Qed.

(** Sorting the leaves returns on every tree that satisfies the
    invariants, keeps them, and leaves in every leaf a permutation of its
    pairs ordered by x. *)
Lemma sortPointsInLeaves_spec n :
  wf n -> exists n', sortPointsInLeaves n = Ok n' /\ sortPost n n'.
Proof.
  induction n as [n IH] using QuadNode_induction.
  intros Hwf. rewrite sortPointsInLeaves_eq.
  destruct (isLeaf n) eqn:Hleaf.
  - inversion Hwf as [n0 _ Hch Hlen Hresp Hb | n0 mx my Hl]; subst n0;
      [|congruence].
    destruct (sortLeaf_spec n Hlen) as (c' & p' & Hs & Hlen' & Hperm & Hsort).
    exists (setBuffers n c' p'). split; [exact Hs|].
    assert (Hpp : Permutation p' (positions n)).
    { rewrite <- (map_snd_combine c' p' Hlen').
      rewrite <- (map_snd_combine (content n) (positions n) Hlen).
      now apply Permutation_map. }
    assert (Hcc : length c' = length (content n)).
    { rewrite Hlen', Hlen. now apply Permutation_length. }
    unfold sortPost, framePost. rewrite !leaves_eq. simpl. rewrite Hleaf.
    repeat split; auto.
    + apply wf_leaf; simpl; auto.
      * eapply Permutation_Forall; [apply Permutation_sym, Hpp|].
        exact Hresp.
      * rewrite Hcc. exact Hb.
    + unfold size. simpl. rewrite Hleaf. now rewrite Hcc.
  - pose proof (wf_four_children _ Hwf Hleaf) as Hfour.
    pose proof (wf_children _ Hwf Hleaf) as Hk.
    assert (Hkids : Forall (fun c => exists c',
                       sortPointsInLeaves c = Ok c' /\ sortPost c c')
                      (children n)).
    { rewrite Forall_forall in *. intros c Hc. apply IH; auto. }
    destruct (updateFirstChildren_sort _ Hkids) as (cs' & Hu & H2).
    rewrite Hfour in Hu. rewrite Hu. simpl.
    eexists. split; [reflexivity|].
    assert (Hframe : Forall2 framePost (children n) cs').
    { eapply Forall2_impl; [|exact H2]. intros a b [Hf _]. exact Hf. }
    unfold sortPost. split.
    + rewrite <- Hleaf. now apply framePost_internal.
    + rewrite (leaves_eq n), Hleaf, leaves_eq. simpl.
      apply (Forall2_flat_map sortPost).
      eapply Forall2_impl; [|exact H2]. intros a b [_ Hl]. exact Hl.
Qed.

(** ** Reindexing *)

Lemma generateFrom_consecutive c : forall p,
  generateFrom p c = consecutive p (length c).
Proof.
  induction c as [|x c IH]; intros p; [reflexivity|].
  simpl. rewrite IH.
  change (S (length c)) with (1 + length c)%nat.
  rewrite consecutive_app. unfold consecutive at 2. simpl.
  now rewrite Z.add_0_r.
Qed.

Lemma reindex_eq n offset :
  reindex n offset =
  if isLeaf n then
    let n' := setBuffers n (generateFrom offset (content n)) (positions n) in
    Ok ((offset + size n')%Z, n')
  else
    r <- updateFirstChildren reindex 4 (children n) offset ;;
    Ok (fst r, setChildren n (isLeaf n) (snd r)).
Proof. destruct n; reflexivity. Qed.

Lemma updateFirstChildren_reindex cs :
  Forall (fun c => forall offset, exists c',
            reindex c offset
            = Ok ((offset + Z.of_nat (length (storedPairs c)))%Z, c') /\
            reindexPost c offset c') cs ->
  forall offset, exists cs',
    updateFirstChildren reindex (length cs) cs offset
    = Ok ((offset + Z.of_nat (length (flat_map storedPairs cs)))%Z, cs') /\
    Forall2 framePost cs cs' /\
    map positions (flat_map leaves cs') = map positions (flat_map leaves cs) /\
    flat_map content (flat_map leaves cs')
    = consecutive offset (length (flat_map storedPairs cs)).
Proof.
  induction 1 as [|c cs Hc _ IH]; intros offset.
  - exists []. simpl. rewrite Z.add_0_r. repeat split. constructor.
  - destruct (Hc offset) as (c' & Hr & Hf & Hp & Hi).
    destruct (IH (offset + Z.of_nat (length (storedPairs c)))%Z)
      as (cs' & Hrs & Hfs & Hps & His).
    exists (c' :: cs'). simpl length.
    rewrite updateFirstChildren_eq, Hr. simpl bind. rewrite Hrs. simpl.
    rewrite !length_app, !map_app, Hp, Hps.
    rewrite flat_map_app, Hi, His, consecutive_app.
    repeat split.
    + do 2 f_equal. lia.
    + now constructor.
Qed.

(** Reindexing returns on every tree that satisfies the invariants, keeps
    them, leaves every position where it is, and stores the identifiers
    [offset, offset + 1, ...] in the order of the traversal. *)
Lemma reindex_spec n :
  wf n -> forall offset, exists n',
    reindex n offset = Ok ((offset + Z.of_nat (length (storedPairs n)))%Z, n')
    /\ reindexPost n offset n'.
Proof.
  induction n as [n IH] using QuadNode_induction.
  intros Hwf offset. rewrite reindex_eq.
  destruct (isLeaf n) eqn:Hleaf.
  - inversion Hwf as [n0 _ Hch Hlen Hresp Hb | n0 mx my Hl]; subst n0;
      [|congruence].
    assert (Hg : length (generateFrom offset (content n))
                 = length (content n)).
    { now rewrite generateFrom_consecutive, consecutive_length. }
    assert (Hsp : length (storedPairs n) = length (content n)).
    { rewrite storedPairs_eq, Hleaf, length_combine, <- Hlen.
      apply Nat.min_id. }
    eexists. cbv zeta. split.
    + unfold size. simpl. rewrite Hleaf, Hg, Hsp. reflexivity.
    + unfold reindexPost, framePost. rewrite !leaves_eq. simpl.
      rewrite Hleaf. simpl. rewrite app_nil_r, Hsp.
      repeat split; auto.
      * apply wf_leaf; simpl; auto; try congruence.
        rewrite Hg. exact Hb.
      * unfold size. simpl. rewrite Hleaf. congruence.
      * apply generateFrom_consecutive.
  - pose proof (wf_four_children _ Hwf Hleaf) as Hfour.
    pose proof (wf_children _ Hwf Hleaf) as Hk.
    assert (Hkids : Forall (fun c => forall offset, exists c',
               reindex c offset
               = Ok ((offset + Z.of_nat (length (storedPairs c)))%Z, c') /\
               reindexPost c offset c') (children n)).
    { rewrite Forall_forall in *. intros c Hc. apply IH; auto. }
    destruct (updateFirstChildren_reindex _ Hkids offset)
      as (cs' & Hu & H2 & Hp & Hi).
    rewrite Hfour in Hu. rewrite Hu. simpl.
    eexists. split.
    + rewrite (storedPairs_eq n), Hleaf. reflexivity.
    + unfold reindexPost. split; [|split].
      * rewrite <- Hleaf. now apply framePost_internal.
      * rewrite (leaves_eq n), Hleaf, leaves_eq. simpl. exact Hp.
      * rewrite (storedPairs_eq n), Hleaf, leaves_eq. simpl. exact Hi.
Qed.

(** ** Stable indexing and recounting keep the invariants *)

Lemma framePost_setID n i : wf n -> framePost n (setID n i).
Proof.
  intros Hwf. unfold framePost. repeat split; auto.
  inversion Hwf as [n0 Hl Hch Hlen Hresp Hb | n0 mx my Hl Hc Hp Hx Hy Hq Hcap Hs Hk];
    subst n0.
  - apply wf_leaf; auto.
  - apply (wf_internal _ mx my); auto.
Qed.

Lemma framePost_trans a b c : framePost a b -> framePost b c -> framePost a c.
Proof.
  intros (_ & H1 & H2 & H3 & H4) (Hw & H1' & H2' & H3' & H4').
  unfold framePost. repeat split; congruence.
Qed.

Lemma framePost_refl n : wf n -> framePost n n.
Proof. intros H. unfold framePost. auto. Qed.

Lemma updateChildren_frame {S} (f : QuadNode -> S -> outcome (S * QuadNode))
  cs :
  Forall (fun c => forall s s' c', f c s = Ok (s', c') -> framePost c c') cs ->
  forall s s' cs',
    updateChildren f cs s = Ok (s', cs') -> Forall2 framePost cs cs'.
Proof.
  induction 1 as [|c cs Hc _ IH]; intros s s' cs' H.
  - simpl in H. injection H as <- <-. constructor.
  - rewrite updateChildren_eq in H.
    apply bind_Ok in H. destruct H as ([s1 c1] & Hf & H).
    apply bind_Ok in H. destruct H as ([s2 cs2] & Hrest & H).
    simpl in H. injection H as <- <-.
    constructor; eauto.
Qed.

Lemma indexSubtree_frame n :
  wf n -> forall nextID r n',
    indexSubtree n nextID = Ok (r, n') -> framePost n n'.
Proof.
  induction n as [n IH] using QuadNode_induction.
  intros Hwf nextID r n' H. rewrite indexSubtree_eq in H.
  apply bind_Ok in H. destruct H as (u & _ & H).
  apply bind_Ok in H. destruct H as ([r1 cs'] & Hu & H).
  simpl in H. injection H as <- <-.
  destruct (isLeaf n) eqn:Hleaf.
  - inversion Hwf as [n0 _ Hch Hlen Hresp Hb | n0 mx my Hl]; subst n0;
      [|congruence].
    rewrite Hch in Hu. simpl in Hu. injection Hu as <- <-.
    rewrite <- Hch, <- Hleaf, setChildren_same. now apply framePost_setID.
  - assert (H2 : Forall2 framePost (children n) cs').
    { eapply updateChildren_frame; [|exact Hu].
      pose proof (wf_children _ Hwf Hleaf) as Hk.
      rewrite Forall_forall in *. intros c Hc s s' c'. apply IH; auto. }
    pose proof (framePost_internal n cs' Hwf Hleaf H2) as Hf.
    rewrite Hleaf in Hf.
    eapply framePost_trans; [exact Hf|].
    apply framePost_setID. now destruct Hf.
Qed.

Lemma recount_eq n :
  recount n =
  let cs := map recount (children n) in
  setSubTreeSize (setChildren n (isLeaf n) cs)
                 (fold_left (fun s c => s + size c)%Z cs 0%Z).
Proof. destruct n; reflexivity. Qed.

Lemma fold_left_sizes cs : forall s,
  fold_left (fun s c => s + size c)%Z cs s = (s + sumSizes cs)%Z.
Proof.
  induction cs as [|c cs IH]; intros s; [simpl; lia|].
  rewrite sumSizes_cons. simpl. rewrite IH. lia.
Qed.

Lemma recount_frame n : wf n -> framePost n (recount n).
Proof.
  induction n as [n IH] using QuadNode_induction.
  intros Hwf. rewrite recount_eq. cbv zeta. rewrite fold_left_sizes.
  destruct (isLeaf n) eqn:Hleaf.
  - inversion Hwf as [n0 _ Hch Hlen Hresp Hb | n0 mx my Hl]; subst n0;
      [|congruence].
    rewrite Hch. simpl. unfold framePost. simpl.
    repeat split; auto.
    + apply wf_leaf; simpl; auto.
    + unfold size. simpl. now rewrite Hleaf.
  - assert (H2 : Forall2 framePost (children n) (map recount (children n))).
    { pose proof (wf_children _ Hwf Hleaf) as Hk.
      clear - IH Hk. induction (children n) as [|c cs IHcs]; simpl;
        [constructor|].
      inversion IH; inversion Hk; subst. constructor; auto. }
    destruct (Forall2_framePost _ _ H2) as (Hw & Hr & Hc & Hs).
    pose proof Hwf as Hwf0.
    apply wf_internal_iff in Hwf; [|exact Hleaf].
    destruct Hwf as ((_ & (mx & my & Hx & Hy & Hq) & Hcap & Hk) & Hc0 & Hp0 & Hs0).
    unfold framePost. simpl. repeat split; auto.
    + apply (wf_internal _ mx my); simpl; auto; try lia;
        try (unfold quadrants in *; simpl; congruence);
        try (eapply Forall_map_eq; eauto).
    + unfold size. simpl. rewrite Hleaf. lia.
Qed.

(** Every tree built by the operations satisfies the data-model
    invariants. *)
Theorem reachable_wf t : reachable t -> wf t.
Proof.
  induction 1 as [lower upper cap th | t fuel input pos t' _ IH H
                  | t input pos found t' _ IH H
                  | t t' _ IH H | t offset next t' _ IH H
                  | t nextID next t' _ IH H | t _ IH].
  - apply wf_newNode.
  - exact (proj1 (addContent_sound_all _ _ _ _ _ IH H)).
  - exact (proj1 (removeContent_sound _ _ _ _ _ IH H)).
  - destruct (sortPointsInLeaves_spec t IH) as (t1 & H1 & (Hw & _) & _).
    congruence.
  - destruct (reindex_spec t IH offset) as (t1 & H1 & (Hw & _) & _).
    congruence.
  - exact (proj1 (indexSubtree_frame t IH _ _ _ H)).
  - exact (proj1 (recount_frame t IH)).
Qed.

(** ** When the sanity assertions of the distance bounds hold *)

Lemma distance_as_dist_euc p q :
  distance p q = dist_euc (getX p) (getY p) (getX q) (getY q).
Proof.
  unfold distance, squaredDistance, dist_euc, Rsqr. f_equal. ring.
Qed.

Lemma length2D_as_dist_euc p :
  length2D p = dist_euc (getX p) (getY p) 0 0.
Proof. unfold length2D, dist_euc, Rsqr. f_equal. ring. Qed.

Lemma distance_triangle c q : distance c q <= length2D q + length2D c.
Proof.
  rewrite distance_as_dist_euc, !length2D_as_dist_euc.
  pose proof (triangle (getX c) (getY c) (getX q) (getY q) 0 0) as H.
  replace (dist_euc 0 0 (getX q) (getY q))
    with (dist_euc (getX q) (getY q) 0 0) in H; [lra|].
  unfold dist_euc, Rsqr. f_equal. ring.
Qed.

Lemma length2D_lt c u :
  getX c * getX c + getY c * getY c < getX u * getX u + getY u * getY u ->
  length2D c < length2D u.
Proof.
  intros H. unfold length2D. apply sqrt_lt_1_alt. split; [|lra].
  pose proof (Rle_0_sqr (getX c)). pose proof (Rle_0_sqr (getY c)).
  unfold Rsqr in *. lra.
Qed.

Lemma fst_le_corner n query c :
  In c [mkPoint (minX n) (minY n); mkPoint (minX n) (maxY n);
        mkPoint (maxX n) (minY n); mkPoint (maxX n) (maxY n)] ->
  fst (distanceBounds n query) <= distance c query.
Proof.
  intros Hc. rewrite distanceBounds_eq.
  apply (foldBounds_min query (boundaryCandidates n query)).
  now apply corners_are_candidates.
Qed.

(** The first assertion holds for a region away from the origin: a corner
    next to the upper one is strictly nearer to the origin. *)
Lemma first_assertion_holds n query :
  awayFromOrigin n ->
  fst (distanceBounds n query)
  < length2D query + length2D (mkPoint (maxX n) (maxY n)).
Proof.
  intros (Hx & Hy & [H0 | H0]).
  - eapply Rle_lt_trans;
      [apply (fst_le_corner n query (mkPoint (minX n) (maxY n)));
       simpl; tauto|].
    eapply Rle_lt_trans; [apply distance_triangle|].
    apply Rplus_lt_compat_l, length2D_lt. simpl. nra.
  - eapply Rle_lt_trans;
      [apply (fst_le_corner n query (mkPoint (maxX n) (minY n)));
       simpl; tauto|].
    eapply Rle_lt_trans; [apply distance_triangle|].
    apply Rplus_lt_compat_l, length2D_lt. simpl. nra.
Qed.

Lemma distance_lt_x a b y query :
  Rabs (a - getX query) < Rabs (b - getX query) ->
  distance (mkPoint a y) query < distance (mkPoint b y) query.
Proof.
  intros H. unfold distance, squaredDistance. simpl.
  apply sqrt_lt_1_alt.
  assert (Hsq : (a - getX query) * (a - getX query)
                < (b - getX query) * (b - getX query)).
  { apply Rsqr_lt_abs_1 in H. exact H. }
  pose proof (Rle_0_sqr (a - getX query)).
  pose proof (Rle_0_sqr (y - getY query)).
  unfold Rsqr in *. lra.
Qed.

(** The second assertion holds as soon as the region has some width. *)
Lemma second_assertion_holds n query :
  minX n < maxX n ->
  fst (distanceBounds n query) < snd (distanceBounds n query).
Proof.
  intros Hx.
  assert (Hmin : forall c, In c (boundaryCandidates n query) ->
             fst (distanceBounds n query) <= distance c query).
  { intros c Hc. rewrite distanceBounds_eq.
    now apply (foldBounds_min query (boundaryCandidates n query)). }
  assert (Hmax : forall c, In c (boundaryCandidates n query) ->
             distance c query <= snd (distanceBounds n query)).
  { intros c Hc. rewrite distanceBounds_eq.
    now apply (foldBounds_max query (boundaryCandidates n query)). }
  assert (Hc1 : In (mkPoint (minX n) (maxY n)) (boundaryCandidates n query))
    by (apply corners_are_candidates; simpl; tauto).
  assert (Hc2 : In (mkPoint (maxX n) (maxY n)) (boundaryCandidates n query))
    by (apply corners_are_candidates; simpl; tauto).
  destruct (Rtotal_order (Rabs (minX n - getX query))
                         (Rabs (maxX n - getX query))) as [H | [H | H]].
  - eapply Rle_lt_trans; [apply (Hmin _ Hc1)|].
    eapply Rlt_le_trans; [apply distance_lt_x, H | apply (Hmax _ Hc2)].
  - (* the query is on the vertical midline: the point above it on the
       upper edge is nearer than the corners *)
    assert (Hin : minX n < getX query < maxX n).
    { unfold Rabs in H. repeat destruct Rcase_abs; lra. }
    assert (Hc3 : In (mkPoint (getX query) (maxY n))
                     (boundaryCandidates n query))
      by (apply horizontal_candidates; [exact Hin | simpl; tauto]).
    eapply Rle_lt_trans; [apply (Hmin _ Hc3)|].
    eapply Rlt_le_trans; [|apply (Hmax _ Hc2)].
    apply distance_lt_x. unfold Rabs. repeat destruct Rcase_abs; lra.
  - eapply Rle_lt_trans; [apply (Hmin _ Hc2)|].
    eapply Rlt_le_trans; [apply distance_lt_x, H | apply (Hmax _ Hc1)].
Qed.

Lemma EuclideanDistances_awayFromOrigin n query :
  awayFromOrigin n ->
  EuclideanDistances n query = Ok (distanceBounds n query).
Proof.
  intros H. apply EuclideanDistances_returns.
  - now apply first_assertion_holds.
  - apply second_assertion_holds. now destruct H.
Qed.

(** Whenever [EuclideanDistances] returns on a proper rectangle, with a
    corner within [DBL_MAX] of the query, what it returns is exactly the
    least and the greatest distance from the query to the rectangle. *)
Lemma EuclideanDistances_exact n query mm :
  EuclideanDistances n query = Ok mm ->
  minX n <= maxX n -> minY n <= maxY n ->
  distance (mkPoint (minX n) (minY n)) query <= DBL_MAX ->
  (forall p, inClosedRegion n p -> fst mm <= distance p query <= snd mm) /\
  (exists p, inClosedRegion n p /\ distance p query = fst mm) /\
  (exists p, inClosedRegion n p /\ distance p query = snd mm) /\
  (inClosedRegion n query -> fst mm = 0).
Proof.
  intros H Hx Hy Hrep. apply EuclideanDistances_Ok in H.
  destruct H as (-> & _ & _).
  destruct (distanceBounds_exact n query Hx Hy Hrep) as (H1 & H2 & H3).
  repeat split; try apply H1; auto.
  intros Hq. pose proof (proj1 (H1 query Hq)) as Hle.
  rewrite distance_self in Hle.
  pose proof (fst_distanceBounds_nonneg n query). lra.
Qed.

(** ** The circle query on trees away from the origin *)

Lemma awayFromOrigin_children n :
  wf n -> isLeaf n = false -> awayFromOrigin n ->
  Forall awayFromOrigin (children n).
Proof.
  intros Hwf Hl (Hx & Hy & H0).
  apply wf_internal_iff in Hwf; [|exact Hl].
  destruct Hwf as ((_ & (mx & my & Hmx & Hmy & Hq) & _) & _).
  destruct (quadrants_inv _ _ _ _ Hq)
    as (sw & se & nw & ne & -> & Hsw & Hse & Hnw & Hne).
  unfold awayFromOrigin.
  repeat (apply Forall_cons; [repeat split; destruct H0; lra|]).
  apply Forall_nil.
Qed.

Lemma circleScan_returns rsq qx qy cs : forall ps result,
  length cs = length ps ->
  Forall (fun c => belowSanityLimit c = true) cs ->
  exists result', circleScan rsq qx qy cs ps result = Ok result'.
Proof.
  induction cs as [|c cs IH]; intros [|p ps] result Hlen Hs;
    simpl in *; try discriminate; [eauto|].
  inversion Hs as [|c0 cs0 Hc Hcs]; subst.
  destruct (Rltb _ rsq).
  - rewrite Hc. simpl. apply IH; [congruence | assumption].
  - apply IH; [congruence | assumption].
Qed.

(** On a tree whose root region is away from the origin and whose
    identifiers are below the sanity limit, the circle query returns. *)
Lemma getElementsInEuclideanCircle_returns n :
  wf n -> awayFromOrigin n ->
  Forall (fun ip => belowSanityLimit (fst ip) = true) (storedPairs n) ->
  forall center radius result, exists result',
    getElementsInEuclideanCircle n center radius result = Ok result'.
Proof.
  induction n as [n IH] using QuadNode_induction.
  intros Hwf Haway Hs center radius result.
  rewrite getElementsInEuclideanCircle_eq. unfold outOfReach.
  rewrite (EuclideanDistances_awayFromOrigin n center Haway). simpl bind.
  destruct (Rltb radius (fst (distanceBounds n center))); [eauto|].
  rewrite storedPairs_eq in Hs.
  destruct (isLeaf n) eqn:Hleaf.
  - inversion Hwf as [n0 _ _ Hlen _ _ | n0 mx my Hl]; subst n0;
      [|congruence].
    apply circleScan_returns; [exact Hlen|].
    rewrite <- (map_fst_combine (content n) (positions n) Hlen).
    apply Forall_map. exact Hs.
  - pose proof (awayFromOrigin_children n Hwf Hleaf Haway) as Hac.
    pose proof (wf_children n Hwf Hleaf) as Hk.
    clear Hleaf Hwf Haway. revert result.
    induction (children n) as [|c cs IHcs]; intros result; [simpl; eauto|].
    inversion IH as [|c0 cs0 IHc IHrest]; subst c0 cs0.
    inversion Hac as [|c0 cs0 Hc Hcs]; subst c0 cs0.
    inversion Hk as [|c0 cs0 Hkc Hkcs]; subst c0 cs0.
    simpl in Hs. apply Forall_app in Hs. destruct Hs as [Hsc Hscs].
    rewrite throughChildren_eq.
    destruct (IHc Hkc Hc Hsc center radius result) as (r1 & ->).
    simpl bind. now apply IHcs.
Qed.

(** In the exact arithmetic of the model the circle query returns on every
    tree away from the origin, with the brute-force answer appended. *)
Theorem circle_query_away_from_origin t center radius result :
  reachable t -> awayFromOrigin t ->
  Forall (fun ip => belowSanityLimit (fst ip) = true) (storedPairs t) ->
  getElementsInEuclideanCircle t center radius result
  = Ok (result ++ bruteForceCircle t center radius).
Proof.
  intros Hr Ha Hs. pose proof (reachable_wf _ Hr) as Hwf.
  destruct (getElementsInEuclideanCircle_returns t Hwf Ha Hs
              center radius result) as (r & H).
  rewrite H. f_equal.
  now apply (getElementsInEuclideanCircle_sound t center radius result r).
Qed.

(** ** The loops of the probabilistic query never use up their fuel *)

Lemma bind_no_fuel {A B} (c : outcome A) (k : A -> outcome B) :
  c <> OutOfFuel -> (forall a, c = Ok a -> k a <> OutOfFuel) ->
  bind c k <> OutOfFuel.
Proof. destruct c; simpl; intros Hc Hk; [now apply Hk | easy | easy]. Qed.

Lemma assert_no_fuel b : assert b <> OutOfFuel.
Proof. destruct b; discriminate. Qed.

Lemma EuclideanDistances_no_fuel n query :
  EuclideanDistances n query <> OutOfFuel.
Proof.
  unfold EuclideanDistances.
  repeat (apply bind_no_fuel; [apply assert_no_fuel | intros _ _]).
  discriminate.
Qed.

(** Truncation of a value above an integer that is not negative stays
    above it: a jump never moves the index backwards. *)
Lemma trunc_above (i : Z) x : (0 <= i)%Z -> IZR i <= x -> (i <= trunc x)%Z.
Proof.
  intros Hi Hx. unfold trunc.
  assert (0 <= x) by (apply IZR_le in Hi; lra).
  destruct (Rle_dec 0 x) as [_ | Hn]; [|contradiction].
  pose proof (Int_part_bounds x) as [_ Hhi].
  apply Z.lt_succ_r, lt_IZR. rewrite succ_IZR. lra.
Qed.

Section Termination.

Variable prob : R -> R.
Variable log : R -> R.
Variable real : nat -> R.

Lemma jump_forward probdenom i st i1 st1 :
  (0 <= i)%Z -> jump log real probdenom i st = Ok (i1, st1) -> (i <= i1)%Z.
Proof.
  intros Hi H. unfold jump in H.
  apply bind_Ok in H. destruct H as (u & Ha & H).
  apply assert_Ok, Rleb_true_iff in Ha. injection H as <- _.
  apply trunc_above; [exact Hi | lra].
Qed.

Lemma jump_no_fuel probdenom i st : jump log real probdenom i st <> OutOfFuel.
Proof.
  unfold jump. apply bind_no_fuel; [apply assert_no_fuel|]. discriminate.
Qed.

Lemma maybeGetKthElement_eq n upperBound euQuery k st :
  maybeGetKthElement prob real n upperBound euQuery k st =
  (assert (k <? size n)%Z ;;;
   if isLeaf n then
     assert (0 <=? k)%Z ;;;
     match nth_error (positions n) (Z.to_nat k) with
     | None => Abort
     | Some p =>
         let acceptance := prob (distance euQuery p) / upperBound in
         if Rltb (real (fst st)) acceptance then
           match nth_error (content n) (Z.to_nat k) with
           | None => Abort
           | Some c => Ok (push_back (drawn st) c)
           end
         else Ok (drawn st)
     end
   else
     (fix loop (cs : list QuadNode) (offset : Z) : outcome sampling :=
        match cs with
        | [] => Ok st
        | c :: cs' =>
            let childsize := size c in
            if (k - offset <? childsize)%Z then
              maybeGetKthElement prob real c upperBound euQuery
                                 (k - offset)%Z st
            else loop cs' (offset + childsize)%Z
        end) (children n) 0%Z).
Proof. destruct n; reflexivity. Qed.

Lemma maybeGetKthElement_no_fuel n : forall upperBound euQuery k st,
  maybeGetKthElement prob real n upperBound euQuery k st <> OutOfFuel.
Proof.
  induction n as [n IH] using QuadNode_induction.
  intros upperBound euQuery k st. rewrite maybeGetKthElement_eq.
  apply bind_no_fuel; [apply assert_no_fuel | intros _ _].
  destruct (isLeaf n).
  - apply bind_no_fuel; [apply assert_no_fuel | intros _ _].
    destruct (nth_error (positions n) (Z.to_nat k)); [|discriminate].
    cbv zeta. destruct (Rltb _ _); [|discriminate].
    destruct (nth_error (content n) (Z.to_nat k)); discriminate.
  - generalize 0%Z. induction (children n) as [|c cs IHcs]; intros offset.
    + discriminate.
    + inversion IH as [|c0 cs0 IHc IHrest]; subst c0 cs0.
      cbv zeta. destruct (k - offset <? size c)%Z; [apply IHc|].
      now apply IHcs.
Qed.

Lemma leafJumpLoop_eq n euQuery distancePair probUB probdenom fuel i
  candidatesTested st :
  leafJumpLoop prob log real n euQuery distancePair probUB probdenom
               (S fuel) i candidatesTested st =
  (let lsize := Z.of_nat (length (content n)) in
   if negb (i <? lsize)%Z then Ok (candidatesTested, st)
   else
     js <- (if Rltb probUB 1 then jump log real probdenom i st
            else Ok (i, st)) ;;
     let i1 := fst js in
     let st1 := snd js in
     if Rltb probUB 1 && (lsize <=? i1)%Z then Ok (candidatesTested, st1)
     else
       assert (0 <=? i1)%Z ;;;
       match nth_error (positions n) (Z.to_nat i1) with
       | None => Abort
       | Some p =>
           let dist := distance p euQuery in
           assert (Rleb (fst distancePair) dist) ;;;
           assert (Rleb dist (snd distancePair)) ;;;
           let q := prob dist / probUB in
           assert (Rleb q 1) ;;;
           let acc := real (fst st1) in
           st2 <- (if Rltb acc q then
                     match nth_error (content n) (Z.to_nat i1) with
                     | None => Abort
                     | Some c => Ok (push_back (drawn st1) c)
                     end
                   else Ok (drawn st1)) ;;
           leafJumpLoop prob log real n euQuery distancePair probUB
                        probdenom fuel (i1 + 1)%Z (candidatesTested + 1)%Z
                        st2
       end).
Proof. reflexivity. Qed.

Lemma directJumpLoop_eq n euQuery probUB probdenom fuel i
  candidatesTested st :
  directJumpLoop prob log real n euQuery probUB probdenom
                 (S fuel) i candidatesTested st =
  (let stsize := size n in
   if negb (i <? stsize)%Z then Ok (candidatesTested, st)
   else
     js <- jump log real probdenom i st ;;
     let i1 := fst js in
     if (i1 <? size n)%Z then
       st2 <- maybeGetKthElement prob real n probUB euQuery i1 (snd js) ;;
       directJumpLoop prob log real n euQuery probUB probdenom fuel
                      (i1 + 1)%Z (candidatesTested + 1)%Z st2
     else Ok (candidatesTested, snd js)).
Proof. reflexivity. Qed.

(** Splits a goal [(if b then _ else _) <> OutOfFuel] on [b]. *)
Ltac split_if :=
  match goal with
  | |- (if ?b then _ else _) <> _ => destruct b
  | |- match ?o with Some _ => _ | None => _ end <> _ => destruct o
  end.

Lemma leafJumpLoop_no_fuel n euQuery distancePair probUB probdenom fuel :
  forall i candidatesTested st,
    (0 <= i)%Z ->
    (Z.of_nat (length (content n)) - i <= Z.of_nat fuel)%Z ->
    leafJumpLoop prob log real n euQuery distancePair probUB probdenom
                 (S fuel) i candidatesTested st <> OutOfFuel.
Proof.
  induction fuel as [|fuel IH]; intros i ct st Hi Hf;
    rewrite leafJumpLoop_eq; cbv zeta;
    destruct (i <? Z.of_nat (length (content n)))%Z eqn:E; simpl negb;
    cbv iota; try discriminate; apply Z.ltb_lt in E; [lia|].
  apply bind_no_fuel.
  { split_if; [apply jump_no_fuel | discriminate]. }
  intros [i1 st1] Hj. cbn [fst snd].
  assert (Hi1 : (i <= i1)%Z).
  { destruct (Rltb probUB 1).
    - now apply (jump_forward probdenom i st i1 st1).
    - injection Hj as <- _. lia. }
  split_if; [discriminate|].
  apply bind_no_fuel; [apply assert_no_fuel | intros _ _].
  split_if; [|discriminate].
  do 3 (apply bind_no_fuel; [apply assert_no_fuel | intros _ _]).
  apply bind_no_fuel.
  { split_if; [|discriminate]. split_if; discriminate. }
  intros st2 _. apply IH; lia.
Qed.

Lemma directJumpLoop_no_fuel n euQuery probUB probdenom fuel :
  forall i candidatesTested st,
    (0 <= i)%Z ->
    (size n - i <= Z.of_nat fuel)%Z ->
    directJumpLoop prob log real n euQuery probUB probdenom
                   (S fuel) i candidatesTested st <> OutOfFuel.
Proof.
  induction fuel as [|fuel IH]; intros i ct st Hi Hf;
    rewrite directJumpLoop_eq; cbv zeta;
    destruct (i <? size n)%Z eqn:E; simpl negb;
    cbv iota; try discriminate; apply Z.ltb_lt in E; [lia|].
  apply bind_no_fuel; [apply jump_no_fuel|].
  intros [i1 st1] Hj. cbn [fst snd].
  pose proof (jump_forward probdenom i st i1 st1 Hi Hj) as Hi1.
  split_if; [|discriminate].
  apply bind_no_fuel; [apply maybeGetKthElement_no_fuel|].
  intros st2 _. apply IH; lia.
Qed.

(** The probabilistic query ends with a result or with a failed
    assertion; the fuel handed to its loops is enough. *)
Lemma getElementsProbabilistically_no_fuel n : forall euQuery st,
  getElementsProbabilistically prob log real n euQuery st <> OutOfFuel.
Proof.
  induction n as [n IH] using QuadNode_induction.
  intros euQuery st. rewrite getElementsProbabilistically_eq.
  apply bind_no_fuel; [apply EuclideanDistances_no_fuel|].
  intros distancePair _. cbv zeta.
  apply bind_no_fuel; [apply assert_no_fuel | intros _ _].
  destruct (Reqb _ 0); [discriminate|].
  destruct (Reqb _ 0); [discriminate|].
  apply bind_no_fuel.
  - destruct (isLeaf n).
    + apply leafJumpLoop_no_fuel; lia.
    + destruct (selectsDirectly _ _).
      * apply bind_no_fuel; [apply assert_no_fuel | intros _ _].
        apply directJumpLoop_no_fuel; lia.
      * generalize (0%Z, st).
        induction (children n) as [|c cs IHcs]; intros acc; [discriminate|].
        inversion IH as [|c0 cs0 IHc IHrest]; subst c0 cs0.
        rewrite throughChildren_eq.
        apply bind_no_fuel.
        -- apply bind_no_fuel; [apply IHc | discriminate].
        -- intros acc' _. now apply IHcs.
  - intros r _. apply bind_no_fuel; [|discriminate].
    destruct (Reqb _ 1); [apply assert_no_fuel | discriminate].
Qed.

End Termination.

(** ** Pairing and sample bounds *)

Lemma wf_paired t : wf t -> paired t.
Proof.
  intros Hwf. unfold paired.
  eapply Forall_impl; [|apply wf_leaves, Hwf].
  intros l (Hw & Hl & _).
  inversion Hw as [n0 _ _ Hlen _ _ | n0 mx my Hl']; subst n0;
    [exact Hlen | congruence].
Qed.

(** The stored pairs are the buffers of the leaves, one after the other. *)
Lemma storedPairs_leaves n : storedPairs n = flat_map buffer (leaves n).
Proof.
  induction n as [n IH] using QuadNode_induction.
  rewrite storedPairs_eq, leaves_eq.
  destruct (isLeaf n).
  - simpl. now rewrite app_nil_r.
  - induction (children n) as [|c cs IHcs]; simpl; [reflexivity|].
    inversion IH; subst. rewrite flat_map_app. f_equal; auto.
Qed.

Lemma splitSquare_bounds_at_origin :
  EuclideanDistances splitSquare origin
  = Ok (distanceBounds splitSquare origin) /\
  fst (distanceBounds splitSquare origin) = 0.
Proof.
  assert (Hfst : fst (distanceBounds splitSquare origin) = 0).
  { pose proof (fst_distanceBounds_nonneg splitSquare origin).
    assert (Hr : responsible splitSquare origin = true).
    { unfold responsible, splitSquare, origin. simpl. now rdecide. }
    pose proof (distanceBounds_lower splitSquare origin origin Hr) as Hl.
    rewrite distance_self in Hl. lra. }
  assert (Hsnd : sqrt 2 <= snd (distanceBounds splitSquare origin)).
  { replace (sqrt 2) with (distance (mkPoint 1 1) origin)
      by (rewrite distance_origin; f_equal; ring).
    apply distanceBounds_above.
    unfold inClosedRegion, splitSquare. simpl. lra. }
  assert (Hs : 0 < sqrt 2) by (apply sqrt_lt_R0; lra).
  split; [|exact Hfst].
  apply EuclideanDistances_returns.
  - rewrite Hfst, length2D_origin.
    replace (length2D (mkPoint (maxX splitSquare) (maxY splitSquare)))
      with (sqrt 2).
    + lra.
    + unfold length2D, splitSquare. simpl. f_equal. ring.
  - lra.
Qed.

(** ** A leaf that holds one identifier twice *)



(** * The claims *)

(** C1 (code defect).  [splitSquare] is built by two insertions into the
    square [-1,1] x [-1,1]; both stored points lie within distance 1 of the
    origin, so the brute-force answer to the query (origin, 1) is [1; 2].
    The query does not return: it descends to the south-west child, whose
    upper corner is the origin, and the sanity assertion of
    [EuclideanDistances] fails there. *)
Theorem circle_query_fails_at_origin :
  reachable splitSquare /\
  bruteForceCircle splitSquare origin 1 = [1%Z; 2%Z] /\
  getElementsInEuclideanCircle splitSquare origin 1 [] = Abort.
Proof.
  split; [exact splitSquare_reachable|]. split.
  - unfold bruteForceCircle. simpl. rewrite !distance_origin.
    replace (-1 / 2 * (-1 / 2) + -1 / 2 * (-1 / 2)) with (/ 2) by field.
    replace (1 / 2 * (1 / 2) + 1 / 2 * (1 / 2)) with (/ 2) by field.
    rewrite (proj2 (Rltb_true_iff _ _) half_below_one). reflexivity.
  - assert (Hfst : fst (distanceBounds splitSquare origin) = 0).
    { pose proof (fst_distanceBounds_nonneg splitSquare origin).
      assert (Hr : responsible splitSquare origin = true).
      { unfold responsible, splitSquare, origin. simpl. now rdecide. }
      pose proof (distanceBounds_lower splitSquare origin origin Hr) as Hl.
      rewrite distance_self in Hl. lra. }
    assert (Hsnd : sqrt 2 <= snd (distanceBounds splitSquare origin)).
    { replace (sqrt 2) with (distance (mkPoint 1 1) origin)
        by (rewrite distance_origin; f_equal; ring).
      apply distanceBounds_above.
      unfold inClosedRegion, splitSquare. simpl. lra. }
    assert (Hs : 0 < sqrt 2) by (apply sqrt_lt_R0; lra).
    apply (query_aborts_in_first_child splitSquare southWestCell
             [ leafOf (mkPoint 0 (-1)) (mkPoint 1 0) 2 [] [];
               leafOf (mkPoint (-1) 0) (mkPoint 0 1) 2 [] [];
               leafOf (mkPoint 0 0) (mkPoint 1 1) 2
                      [2%Z] [mkPoint (1 / 2) (1 / 2)] ]
             origin 1 [] (distanceBounds splitSquare origin)).
    + reflexivity.
    + reflexivity.
    + apply EuclideanDistances_returns.
      * rewrite Hfst, length2D_origin.
        replace (length2D (mkPoint (maxX splitSquare) (maxY splitSquare)))
          with (sqrt 2).
        -- lra.
        -- unfold length2D, splitSquare. simpl. f_equal. ring.
      * lra.
    + lra.
    + exact southWestCell_aborts.
Qed.

(** C2 (code defect).  With an upper bound of 1/2000 and a subtree of 10000
    elements, [probUB] is below 0.001, so the spec sends the node to the
    direct candidate selection; the expected count is 5, not below 4, and
    the second operand of the code's test compares [probUB] with the integer
    quotient [1/1000 = 0]: the test is false and the node recurses into its
    children. *)
Theorem direct_selection_misses_small_bound :
  1 / 2000 < 1 / 1000 /\
  trunc (1 / 2000 * IZR 10000) = 5%Z /\
  selectsDirectly (trunc (1 / 2000 * IZR 10000)) (1 / 2000) = false.
Proof.
  assert (H5 : trunc (1 / 2000 * IZR 10000) = 5%Z).
  { replace (1 / 2000 * IZR 10000) with (IZR 5) by lra.
    apply trunc_IZR. lia. }
  split; [lra|]. split; [exact H5|].
  destruct (selectsDirectly (trunc (1 / 2000 * IZR 10000)) (1 / 2000)) eqn:E;
    [|reflexivity].
  apply selectsDirectly_iff in E. lra.
Qed.

(** C3 (code defect).  For the square [-1,0] x [-1,0] and the query point
    (0,0), a corner of the square, the pair computed is the exact one,
    (0, sqrt 2), but the call does not return it: the closing assertion
    [minDistance < query.length() + Point2D(maxX, maxY).length()] compares
    0 with 0 + 0 and fails. *)
Theorem EuclideanDistances_fails_at_corner :
  distanceBounds southWestCell origin = (0, sqrt 2) /\
  inClosedRegion southWestCell origin /\
  EuclideanDistances southWestCell origin = Abort.
Proof.
  split; [exact southWestCell_bounds|]. split.
  - unfold inClosedRegion, southWestCell, origin. simpl. lra.
  - exact southWestCell_aborts.
Qed.

(** C4, counterexample.  [coarsenedSquare] is built by three insertions and
    one removal with capacity 2; it is a leaf, and it holds two elements,
    more than capacity - 1 = 1: the coarsening merged the buffers of four
    leaves without looking at the capacity. *)
Lemma coarsened_leaf_exceeds_capacity :
  reachable coarsenedSquare /\
  In coarsenedSquare (leaves coarsenedSquare) /\
  capacity coarsenedSquare = 2%Z /\
  content coarsenedSquare = [1%Z; 2%Z] /\
  ~ (Z.of_nat (length (content coarsenedSquare))
     <= capacity coarsenedSquare - 1)%Z.
Proof.
  split; [exact coarsenedSquare_reachable|].
  split; [simpl; now left|].
  repeat split. simpl. lia.
Qed.

(** C4, amended.  In a tree built by insertions and removals every leaf
    holds at most [max (capacity - 1) (coarsenLimit - 1)] elements, hence at
    most [capacity - 1] when the capacity is 4 or more; [addContent] on a
    leaf appends exactly when [length + 1 < capacity], and otherwise splits
    the leaf before the element is placed. *)
Theorem leaf_occupancy t :
  reachable t ->
  Forall (fun l =>
            isLeaf l = true /\ capacity l = capacity t /\
            (Z.of_nat (length (content l))
             <= Z.max (capacity t - 1) (coarsenLimit - 1))%Z /\
            (coarsenLimit <= capacity t ->
             Z.of_nat (length (content l)) <= capacity t - 1)%Z /\
            forall fuel input pos l',
              addContent (S fuel) input pos l = Ok l' ->
              if (Z.of_nat (length (content l)) + 1 <? capacity l)%Z
              then l' = setBuffers l (content l ++ [input])
                                   (positions l ++ [pos])
              else (exists l1, split l = Ok l1) /\ isLeaf l' = false)
         (leaves t).
Proof.
  intros Hr. apply reachable_wf in Hr.
  eapply Forall_impl; [|apply wf_leaves, Hr].
  intros l (Hw & Hl & Hcap).
  inversion Hw as [n0 _ _ _ _ Hb | n0 mx my Hl']; subst n0; [|congruence].
  rewrite Hcap in Hb. unfold coarsenLimit in *.
  repeat split; auto; try lia.
  intros fuel input pos l'. now apply addContent_leaf.
Qed.

Lemma leaf_occupancy_witness :
  Forall (fun l =>
            isLeaf l = true /\ capacity l = capacity splitSquare /\
            (Z.of_nat (length (content l))
             <= Z.max (capacity splitSquare - 1) (coarsenLimit - 1))%Z /\
            (coarsenLimit <= capacity splitSquare ->
             Z.of_nat (length (content l)) <= capacity splitSquare - 1)%Z /\
            forall fuel input pos l',
              addContent (S fuel) input pos l = Ok l' ->
              if (Z.of_nat (length (content l)) + 1 <? capacity l)%Z
              then l' = setBuffers l (content l ++ [input])
                                   (positions l ++ [pos])
              else (exists l1, split l = Ok l1) /\ isLeaf l' = false)
         (leaves splitSquare).
Proof. apply (leaf_occupancy splitSquare). exact splitSquare_reachable. Defined.

(** C5.  When [removeContent] runs on an internal node and returns, the
    node has become a leaf exactly when an element was removed, all four
    children were leaves, and the size after the removal is below
    [coarsenLimit = 4]; in that case the children are gone and the buffers
    are the concatenation, in the order of the children, of the buffers the
    children hold after their own removal. *)
Theorem coarsening_rule input pos n found n' :
  wf n -> isLeaf n = false ->
  removeContent input pos n = Ok (found, n') ->
  exists cs',
    Forall2 (fun c c' => exists b, removeContent input pos c = Ok (b, c'))
            (children n) cs' /\
    (isLeaf n' = true <->
     found = true /\ Forall (fun c => isLeaf c = true) (children n)
     /\ (size n - 1 < coarsenLimit)%Z) /\
    (isLeaf n' = true ->
     length (children n) = 4%nat /\ children n' = [] /\
     Forall (fun c => isLeaf c = true) cs' /\
     content n' = flat_map content cs' /\
     positions n' = flat_map positions cs' /\
     storedPairs n' = flat_map storedPairs cs') /\
    (isLeaf n' = false -> children n' = cs').
Proof.
  intros Hwf Hleaf H.
  assert (Hfour : length (children n) = 4%nat).
  { pose proof Hwf as Hwf'. apply wf_internal_iff in Hwf'; [|exact Hleaf].
    destruct Hwf' as ((_ & (mx & my & _ & _ & Hq) & _) & _).
    destruct (quadrants_inv _ _ _ _ Hq) as (sw & se & nw & ne & -> & _).
    reflexivity. }
  rewrite removeContent_eq in H.
  destruct (responsible n pos) eqn:Hresp; simpl in H.
  2:{ injection H as <- <-. exists (children n).
      split; [|split; [|split]].
      - apply Forall2_same.
        eapply Forall_impl; [|apply (child_not_responsible n pos); auto].
        intros c Hc. exists false.
        now apply removeContent_not_responsible.
      - split; [congruence|]. intros (Hf & _). discriminate.
      - congruence.
      - reflexivity. }
  rewrite Hleaf in H.
  apply bind_Ok in H. destruct H as (u & _ & H).
  apply bind_Ok in H. destruct H as ([[cs' removed] allLeaves] & Hloop & H).
  cbn [fst snd] in H.
  destruct (removeFromChildren_each _ _ _ _ _ _ _ Hloop) as [Heach Hal].
  assert (Hk : Forall wf (children n)).
  { apply wf_internal_iff in Hwf; [|exact Hleaf]. now destruct Hwf as ((_ & _ & _ & Hk) & _). }
  assert (IHs : Forall (fun c => forall found c',
                   wf c -> removeContent input pos c = Ok (found, c') ->
                   removePost input pos c found c') (children n)).
  { rewrite Forall_forall. intros c _ b c'. apply removeContent_sound. }
  destruct (removeFromChildren_post _ input pos _ IHs Hk _ _ _ _ _ Hloop)
    as (Hw & _ & _ & _ & Hlv & _).
  simpl in Hal. subst allLeaves.
  exists cs'. split; [exact Heach|].
  assert (Hsize : size (if removed
                        then setSubTreeSize (setChildren n false cs')
                               (subTreeSize (setChildren n false cs') - 1)
                        else setChildren n false cs')
                  = if removed then (size n - 1)%Z else size n).
  { unfold size. rewrite Hleaf. destruct removed; reflexivity. }
  match type of H with
  | (if ?b then _ else _) = _ => destruct b eqn:Hco
  end.
  - (* coarsened *)
    apply bind_Ok in H. destruct H as (u' & _ & H). injection H as <- <-.
    apply andb_true_iff in Hco. destruct Hco as [Hco Hlt].
    apply andb_true_iff in Hco. destruct Hco as [-> Hall].
    apply Z.ltb_lt in Hlt. unfold size in Hlt. simpl in Hlt.
    assert (Hlt' : (size n - 1 < coarsenLimit)%Z)
      by (unfold size; rewrite Hleaf; exact Hlt).
    pose proof (Hlv Hall) as Hall'.
    destruct (leaves_buffers _ Hw Hall') as [_ Hcomb].
    apply forallb_isLeaf in Hall, Hall'.
    simpl. split; [|split].
    + split; auto.
    + intros _. repeat split; auto.
    + discriminate.
  - (* not coarsened *)
    injection H as <- <-.
    destruct removed; simpl.
    + split; [|split]; [|discriminate|reflexivity].
      split; [discriminate|].
      intros (_ & Hall & Hlt). exfalso.
      apply forallb_isLeaf in Hall. rewrite Hall in Hco. simpl in Hco.
      apply Z.ltb_ge in Hco. unfold size in Hco, Hlt. simpl in Hco.
      rewrite Hleaf in Hlt. lia.
    + split; [|split]; [|discriminate|reflexivity].
      split; [discriminate|]. intros (Hf & _). discriminate.
Qed.

(** A witness for C5: removing the third element of [threeInSquare]
    coarsens the root. *)
Lemma coarsening_rule_witness :
  exists cs',
    Forall2 (fun c c' =>
               exists b, removeContent 3%Z (mkPoint (1 / 2) (-1 / 2)) c
                         = Ok (b, c'))
            (children threeInSquare) cs' /\
    (isLeaf coarsenedSquare = true <->
     true = true /\
     Forall (fun c => isLeaf c = true) (children threeInSquare)
     /\ (size threeInSquare - 1 < coarsenLimit)%Z) /\
    (isLeaf coarsenedSquare = true ->
     length (children threeInSquare) = 4%nat /\
     children coarsenedSquare = [] /\
     Forall (fun c => isLeaf c = true) cs' /\
     content coarsenedSquare = flat_map content cs' /\
     positions coarsenedSquare = flat_map positions cs' /\
     storedPairs coarsenedSquare = flat_map storedPairs cs') /\
    (isLeaf coarsenedSquare = false -> children coarsenedSquare = cs').
Proof.
  apply (coarsening_rule 3%Z (mkPoint (1 / 2) (-1 / 2)) threeInSquare
           true coarsenedSquare).
  - exact (reachable_wf _ threeInSquare_reachable).
  - reflexivity.
  - exact coarsenedSquare_built.
Defined.




Section DegenerateBounds.

Variable prob : R -> R.
Variable log : R -> R.
Variable real : nat -> R.

(** C7.  Once the distance bounds are computed and the bounds of the
    probability are in order, an upper bound [probUB] equal to zero, or a
    logarithm [log (1 - probUB)] equal to zero, ends the call at once: it
    returns zero candidates, leaves the result vector and the random
    source untouched, and does not fail. *)
Theorem degenerate_bound_returns_zero n euQuery st distancePair :
  EuclideanDistances n euQuery = Ok distancePair ->
  prob (snd distancePair) <= prob (fst distancePair) ->
  (let probUB := if Rltb 0.5 (prob (fst distancePair)) then 1
                 else prob (fst distancePair) in
   probUB = 0 \/ log (1 - probUB) = 0) ->
  getElementsProbabilistically prob log real n euQuery st = Ok (0%Z, st).
Proof.
  intros Hd Hle Hdeg. cbv zeta in Hdeg.
  rewrite getElementsProbabilistically_eq, Hd. simpl bind. cbv zeta.
  rewrite (proj2 (Rleb_true_iff _ _) Hle). simpl bind.
  destruct Hdeg as [H0 | H0].
  - rewrite (proj2 (Reqb_true_iff _ _) H0). reflexivity.
  - destruct (Reqb _ 0); [reflexivity|].
    rewrite (proj2 (Reqb_true_iff _ _) H0). reflexivity.
Qed.

End DegenerateBounds.

(** A witness for C7: a probability function that is zero everywhere. *)
Lemma degenerate_bound_returns_zero_witness :
  getElementsProbabilistically (fun _ => 0) (fun x => x) (fun _ => 0)
    splitSquare origin (O, []) = Ok (0%Z, (O, [])).
Proof.
  apply (degenerate_bound_returns_zero (fun _ => 0) (fun x => x) (fun _ => 0)
           splitSquare origin (O, []) (distanceBounds splitSquare origin)).
  - exact (proj1 splitSquare_bounds_at_origin).
  - simpl. lra.
  - cbv zeta. left.
    rewrite (proj2 (Rltb_false_iff 0.5 0)) by lra. reflexivity.
Defined.

(** C8, counterexample.  On the tree [splitSquare], an internal root with
    four leaves, [indexSubtree(0)] numbers the leaves 0 to 3, assigns the
    identifier 4 to the internal root, and returns 5. *)
Lemma indexSubtree_numbers_internal_node :
  exists n',
    indexSubtree splitSquare 0 = Ok (5%Z, n') /\
    isLeaf n' = false /\ ID splitSquare = 0%Z /\ ID n' = 4%Z /\
    leafIDs n' = [0; 1; 2; 3]%Z.
Proof.
  eexists. split; [reflexivity|]. repeat split.
Qed.

(** C8, amended.  On a tree whose nodes have four children or none, and
    for a start [nextID] such that neither it nor [nextID] plus the number
    of nodes leaves the range of the 64-bit [index], [indexSubtree(nextID)]
    returns, and it numbers every node of the subtree, internal nodes
    included, in post-order: the identifiers read in post-order are
    [nextID, nextID + 1, ...], the returned index is [nextID] plus the
    number of nodes, and nothing but identifiers changes. *)
Theorem indexSubtree_postorder n nextID :
  branching n ->
  (- 2 ^ 63 <= nextID)%Z ->
  (nextID + Z.of_nat (countNodes n) < 2 ^ 63)%Z ->
  exists n',
    indexSubtree n nextID = Ok ((nextID + Z.of_nat (countNodes n))%Z, n') /\
    postorderIDs n' = consecutive nextID (countNodes n) /\
    clearIDs n' = clearIDs n /\
    Forall (fun i => (- 2 ^ 63 <= i < 2 ^ 63)%Z) (postorderIDs n').
Proof.
  intros Hb Hlow Hhigh.
  destruct (indexSubtree_postorder_all n Hb nextID) as (n' & H1 & H2 & H3 & _).
  exists n'. split; [exact H1|]. split; [exact H2|]. split; [exact H3|].
  rewrite H2. unfold consecutive. rewrite Forall_forall.
  intros i Hi. apply in_map_iff in Hi. destruct Hi as (k & <- & Hk).
  apply in_seq in Hk. lia.
Qed.

Lemma indexSubtree_postorder_witness :
  exists n',
    indexSubtree splitSquare 0
    = Ok ((0 + Z.of_nat (countNodes splitSquare))%Z, n') /\
    postorderIDs n' = consecutive 0 (countNodes splitSquare) /\
    clearIDs n' = clearIDs splitSquare /\
    Forall (fun i => (- 2 ^ 63 <= i < 2 ^ 63)%Z) (postorderIDs n').
Proof.
  apply (indexSubtree_postorder splitSquare 0).
  - exact splitSquare_branching.
  - lia.
  - simpl. lia.
Defined.

(** C9.  [responsible] is the half-open test; a position on the upper x- or
    y-boundary of a node is outside its responsibility; inserting such a
    position at the root fails the precondition assertion of [addContent];
    and in a tree built by insertions and removals no stored position lies
    on the upper boundary of the root, so every identifier a circle query
    returns belongs to a stored position strictly below both upper
    boundaries. *)
Theorem region_is_half_open t pos :
  reachable t ->
  getX pos = maxX t \/ getY pos = maxY t ->
  (forall n p, responsible n p = true <->
               minX n <= getX p < maxX n /\ minY n <= getY p < maxY n) /\
  responsible t pos = false /\
  (forall fuel input, addContent (S fuel) input pos t = Abort) /\
  ~ In pos (map snd (storedPairs t)) /\
  (forall center radius result,
     getElementsInEuclideanCircle t center radius [] = Ok result ->
     forall id, In id result ->
       exists p, In (id, p) (storedPairs t) /\ p <> pos /\
                 getX p < maxX t /\ getY p < maxY t).
Proof.
  intros Hr Hup. pose proof (reachable_wf _ Hr) as Hwf.
  assert (Hout : responsible t pos = false).
  { destruct (responsible t pos) eqn:E; [|reflexivity].
    apply responsible_iff in E. lra. }
  assert (Hstored : forall ip, In ip (storedPairs t) ->
             snd ip <> pos /\ getX (snd ip) < maxX t /\ getY (snd ip) < maxY t).
  { intros ip Hip. pose proof (wf_stored_responsible _ Hwf _ Hip) as Hresp.
    split; [congruence|]. apply responsible_iff in Hresp. lra. }
  split; [exact responsible_iff|]. split; [exact Hout|].
  split; [intros; now apply addContent_outside|]. split.
  - intros Hin. apply in_map_iff in Hin. destruct Hin as (ip & <- & Hip).
    now apply (Hstored ip).
  - intros center radius result Hq id Hid.
    apply getElementsInEuclideanCircle_sound in Hq; [|exact Hwf].
    simpl in Hq. subst result. unfold bruteForceCircle in Hid.
    apply in_map_iff in Hid. destruct Hid as ([i p] & <- & Hip).
    apply filter_In in Hip. destruct Hip as [Hip _].
    exists p. split; [exact Hip|]. now apply (Hstored (i, p)).
Qed.

Lemma region_is_half_open_witness :
  (forall n p, responsible n p = true <->
               minX n <= getX p < maxX n /\ minY n <= getY p < maxY n) /\
  responsible splitSquare (mkPoint 1 0) = false /\
  (forall fuel input,
     addContent (S fuel) input (mkPoint 1 0) splitSquare = Abort) /\
  ~ In (mkPoint 1 0) (map snd (storedPairs splitSquare)) /\
  (forall center radius result,
     getElementsInEuclideanCircle splitSquare center radius [] = Ok result ->
     forall id, In id result ->
       exists p, In (id, p) (storedPairs splitSquare) /\ p <> mkPoint 1 0 /\
                 getX p < maxX splitSquare /\ getY p < maxY splitSquare).
Proof.
  apply (region_is_half_open splitSquare (mkPoint 1 0) splitSquare_reachable).
  left. reflexivity.
Defined.

(** C10.  A tree built by the operations is paired: in every leaf the
    identifier buffer and the position buffer have one length.  Each
    operation run on it keeps that: an insertion adds the pair it was given
    to the stored pairs; a removal takes the pair out or changes nothing;
    [sortPointsInLeaves] returns and leaves in every leaf a permutation of
    its (identifier, position) pairs, in non-decreasing order of x;
    [reindex] returns and leaves every position buffer as it was, the
    identifiers being [offset, offset + 1, ...] in the order of the
    traversal. *)
Theorem pairing_is_preserved t :
  reachable t ->
  paired t /\
  (forall fuel input pos t',
     addContent fuel input pos t = Ok t' ->
     paired t' /\
     Permutation (storedPairs t') ((input, pos) :: storedPairs t)) /\
  (forall input pos found t',
     removeContent input pos t = Ok (found, t') ->
     paired t' /\
     if found
     then Permutation (storedPairs t) ((input, pos) :: storedPairs t')
     else t' = t) /\
  (exists t',
     sortPointsInLeaves t = Ok t' /\ paired t' /\
     Forall2 (fun l l' => Permutation (buffer l') (buffer l) /\
                          StronglySorted byX (buffer l'))
             (leaves t) (leaves t')) /\
  (forall offset, exists t',
     reindex t offset = Ok ((offset + size t)%Z, t') /\ paired t' /\
     map positions (leaves t') = map positions (leaves t) /\
     flat_map content (leaves t')
     = consecutive offset (length (storedPairs t))).
Proof.
  intros Hr. pose proof (reachable_wf _ Hr) as Hwf.
  split; [now apply wf_paired|]. split; [|split; [|split]].
  - intros fuel input pos t' H.
    destruct (addContent_sound_all _ _ _ _ _ Hwf H) as (Hw & _ & _ & Hp).
    split; [now apply wf_paired | exact Hp].
  - intros input pos found t' H.
    destruct (removeContent_sound _ _ _ _ _ Hwf H)
      as (Hw & _ & _ & _ & Hnf & Hf).
    split; [now apply wf_paired|].
    destruct found; auto.
  - destruct (sortPointsInLeaves_spec t Hwf) as (t' & H & (Hw & _) & Hl).
    exists t'. split; [exact H|]. split; [now apply wf_paired | exact Hl].
  - intros offset.
    destruct (reindex_spec t Hwf offset) as (t' & H & (Hw & _) & Hp & Hi).
    exists t'. rewrite (wf_size _ Hwf).
    split; [exact H|]. split; [now apply wf_paired|]. auto.
Qed.

Lemma pairing_is_preserved_witness :
  paired splitSquare /\
  (forall fuel input pos t',
     addContent fuel input pos splitSquare = Ok t' ->
     paired t' /\
     Permutation (storedPairs t') ((input, pos) :: storedPairs splitSquare)) /\
  (forall input pos found t',
     removeContent input pos splitSquare = Ok (found, t') ->
     paired t' /\
     if found
     then Permutation (storedPairs splitSquare)
                      ((input, pos) :: storedPairs t')
     else t' = splitSquare) /\
  (exists t',
     sortPointsInLeaves splitSquare = Ok t' /\ paired t' /\
     Forall2 (fun l l' => Permutation (buffer l') (buffer l) /\
                          StronglySorted byX (buffer l'))
             (leaves splitSquare) (leaves t')) /\
  (forall offset, exists t',
     reindex splitSquare offset
     = Ok ((offset + size splitSquare)%Z, t') /\ paired t' /\
     map positions (leaves t') = map positions (leaves splitSquare) /\
     flat_map content (leaves t')
     = consecutive offset (length (storedPairs splitSquare))).
Proof. exact (pairing_is_preserved splitSquare splitSquare_reachable). Defined.

(** * Further properties of the code *)

(** ** Listing the stored elements *)

Lemma getElements_eq n :
  getElements n =
  if isLeaf n then Ok (content n)
  else
    assert (length (content n) =? 0)%nat ;;;
    assert (length (positions n) =? 0)%nat ;;;
    throughChildren
      (fun c result => subresult <- getElements c ;; Ok (result ++ subresult))
      (children n) [].
Proof. destruct n; reflexivity. Qed.

Lemma getCoordinates_eq n pointContainer :
  getCoordinates n pointContainer =
  if isLeaf n then Ok (pointContainer ++ positions n)
  else
    assert (length (content n) =? 0)%nat ;;;
    assert (length (positions n) =? 0)%nat ;;;
    throughChildren getCoordinates (children n) pointContainer.
Proof. destruct n; reflexivity. Qed.

Lemma getElements_stored n :
  wf n -> getElements n = Ok (map fst (storedPairs n)).
Proof.
  induction n as [n IH] using QuadNode_induction. intros Hwf.
  rewrite getElements_eq, storedPairs_eq.
  destruct (isLeaf n) eqn:Hleaf.
  - inversion Hwf as [n0 _ _ Hlen _ _ | n0 mx my Hl']; subst n0;
      [|congruence].
    now rewrite map_fst_combine.
  - pose proof (wf_children n Hwf Hleaf) as Hk.
    apply wf_internal_iff in Hwf; [|exact Hleaf].
    destruct Hwf as (_ & -> & -> & _). simpl.
    assert (Hgen : forall acc,
      throughChildren
        (fun c result => subresult <- getElements c ;; Ok (result ++ subresult))
        (children n) acc
      = Ok (acc ++ map fst (flat_map storedPairs (children n)))).
    { induction (children n) as [|c cs IHcs]; intros acc.
      - simpl. now rewrite app_nil_r.
      - inversion IH as [|? ? Hc Hcs]; subst.
        inversion Hk as [|? ? Hwc Hwcs]; subst.
        rewrite throughChildren_eq, (Hc Hwc). simpl bind.
        rewrite (IHcs Hcs Hwcs). simpl flat_map.
        now rewrite map_app, app_assoc. }
    apply Hgen.
Qed.

Lemma getCoordinates_stored n :
  wf n -> forall pointContainer,
  getCoordinates n pointContainer
  = Ok (pointContainer ++ map snd (storedPairs n)).
Proof.
  induction n as [n IH] using QuadNode_induction. intros Hwf pc.
  rewrite getCoordinates_eq, storedPairs_eq.
  destruct (isLeaf n) eqn:Hleaf.
  - inversion Hwf as [n0 _ _ Hlen _ _ | n0 mx my Hl']; subst n0;
      [|congruence].
    now rewrite map_snd_combine.
  - pose proof (wf_children n Hwf Hleaf) as Hk.
    apply wf_internal_iff in Hwf; [|exact Hleaf].
    destruct Hwf as (_ & -> & -> & _). simpl.
    revert pc.
    induction (children n) as [|c cs IHcs]; intros pc.
    + simpl. now rewrite app_nil_r.
    + inversion IH as [|? ? Hc Hcs]; subst.
      inversion Hk as [|? ? Hwc Hwcs]; subst.
      rewrite throughChildren_eq, (Hc Hwc). simpl bind.
      rewrite (IHcs Hcs Hwcs). simpl flat_map.
      now rewrite map_app, app_assoc.
Qed.

(** X1.  On a tree built by the operations, [getElements] returns the
    stored identifiers leaf by leaf in the order of the children, and the
    cached [size()] is the number of identifiers it returns. *)
Theorem getElements_lists_the_stored_elements t :
  reachable t ->
  getElements t = Ok (map fst (storedPairs t)) /\
  size t = Z.of_nat (length (map fst (storedPairs t))).
Proof.
  intros Hr. pose proof (reachable_wf _ Hr) as Hwf.
  split; [now apply getElements_stored|].
  now rewrite length_map, wf_size.
Qed.

Lemma getElements_lists_the_stored_elements_witness :
  getElements threeInSquare = Ok (map fst (storedPairs threeInSquare)) /\
  size threeInSquare
  = Z.of_nat (length (map fst (storedPairs threeInSquare))).
Proof.
  exact (getElements_lists_the_stored_elements threeInSquare
           threeInSquare_reachable).
Defined.

(** X2.  [getCoordinates] appends the stored positions to the container it
    is given, in the order in which [getElements] lists the identifiers:
    entry by entry the two vectors are the stored pairs. *)
Theorem getCoordinates_matches_getElements t pointContainer :
  reachable t ->
  exists elements coordinates,
    getElements t = Ok elements /\
    getCoordinates t pointContainer = Ok (pointContainer ++ coordinates) /\
    length elements = length coordinates /\
    combine elements coordinates = storedPairs t.
Proof.
  intros Hr. pose proof (reachable_wf _ Hr) as Hwf.
  exists (map fst (storedPairs t)), (map snd (storedPairs t)).
  split; [now apply getElements_stored|].
  split; [now apply getCoordinates_stored|].
  split; [now rewrite !length_map|].
  rewrite combine_map_same.
  rewrite <- (map_id (storedPairs t)) at 2.
  apply map_ext. now intros [a b].
Qed.

Lemma getCoordinates_matches_getElements_witness :
  exists elements coordinates,
    getElements threeInSquare = Ok elements /\
    getCoordinates threeInSquare [mkPoint 0 0]
    = Ok ([mkPoint 0 0] ++ coordinates) /\
    length elements = length coordinates /\
    combine elements coordinates = storedPairs threeInSquare.
Proof.
  exact (getCoordinates_matches_getElements threeInSquare [mkPoint 0 0]
           threeInSquare_reachable).
Defined.

(** ** Insertion followed by a listing or a removal *)

(** X3.  A successful insertion into a tree built by the operations shows
    in the listing: [getElements] returns the former identifiers and the
    new one, [size()] has grown by one, and the rectangle of the root is the
    same. *)
Theorem addContent_shows_in_getElements t fuel input pos t' :
  reachable t ->
  addContent fuel input pos t = Ok t' ->
  exists elements elements',
    getElements t = Ok elements /\ getElements t' = Ok elements' /\
    Permutation elements' (input :: elements) /\
    size t' = (size t + 1)%Z /\ region t' = region t.
Proof.
  intros Hr Hadd. pose proof (reachable_wf _ Hr) as Hwf.
  destruct (addContent_sound_all _ _ _ _ _ Hwf Hadd) as (Hw' & Hreg & _ & Hp).
  exists (map fst (storedPairs t)), (map fst (storedPairs t')).
  split; [now apply getElements_stored|].
  split; [now apply getElements_stored|].
  split; [exact (Permutation_map fst Hp)|].
  split; [|exact Hreg].
  rewrite (wf_size _ Hw'), (wf_size _ Hwf).
  apply Permutation_length in Hp. simpl in Hp. lia.
Qed.

Lemma addContent_shows_in_getElements_witness :
  exists elements elements',
    getElements splitSquare = Ok elements /\
    getElements threeInSquare = Ok elements' /\
    Permutation elements' (3%Z :: elements) /\
    size threeInSquare = (size splitSquare + 1)%Z /\
    region threeInSquare = region splitSquare.
Proof.
  exact (addContent_shows_in_getElements splitSquare 2 3%Z
           (mkPoint (1 / 2) (-1 / 2)) threeInSquare
           splitSquare_reachable threeInSquare_built).
Defined.

(** X4.  Inserting a fresh identifier and removing it again at the same
    position gives back the stored pairs: the removal finds the element, and
    the tree it leaves holds the pairs held before the insertion, with the
    same [size()].  (The shape may differ: the insertion may have split a
    leaf.) *)
Theorem addContent_then_removeContent t fuel input pos t' :
  reachable t ->
  NoDup (map fst (storedPairs t)) ->
  ~ In input (map fst (storedPairs t)) ->
  addContent fuel input pos t = Ok t' ->
  exists t'',
    removeContent input pos t' = Ok (true, t'') /\
    Permutation (storedPairs t'') (storedPairs t) /\
    size t'' = size t.
Proof.
  intros Hr Hnd Hfresh Hadd. pose proof (reachable_wf _ Hr) as Hwf.
  destruct (addContent_sound_all _ _ _ _ _ Hwf Hadd) as (Hw' & _ & _ & Hp).
  assert (Hin : In (input, pos) (storedPairs t')).
  { eapply Permutation_in; [symmetry; exact Hp | now left]. }
  assert (Hnd' : NoDup (map fst (storedPairs t'))).
  { eapply Permutation_NoDup; [symmetry; exact (Permutation_map fst Hp)|].
    simpl. now constructor. }
  destruct (removeContent_present _ _ _ Hw' Hin Hnd') as (t'' & Hrem).
  destruct (removeContent_sound _ _ _ _ _ Hw' Hrem)
    as (Hw'' & _ & _ & _ & _ & Hperm).
  specialize (Hperm eq_refl).
  assert (Hback : Permutation (storedPairs t'') (storedPairs t)).
  { apply (Permutation_cons_inv (a := (input, pos))).
    rewrite <- Hperm. exact Hp. }
  exists t''. split; [exact Hrem|]. split; [exact Hback|].
  rewrite (wf_size _ Hw''), (wf_size _ Hwf).
  now rewrite (Permutation_length Hback).
Qed.

Lemma addContent_then_removeContent_witness :
  exists t'',
    removeContent 3%Z (mkPoint (1 / 2) (-1 / 2)) threeInSquare
    = Ok (true, t'') /\
    Permutation (storedPairs t'') (storedPairs splitSquare) /\
    size t'' = size splitSquare.
Proof.
  apply (addContent_then_removeContent splitSquare 2 3%Z
           (mkPoint (1 / 2) (-1 / 2)) threeInSquare splitSquare_reachable).
  - simpl. repeat constructor; simpl; intuition discriminate.
  - simpl. intuition discriminate.
  - exact threeInSquare_built.
Defined.

(** ** Recounting, height and leaves *)





Lemma height_eq n :
  height n
  = fold_left (fun result child => Z.max result (height child + 1))%Z
              (children n) 1%Z.
Proof. destruct n; reflexivity. Qed.

Lemma countLeaves_eq n :
  countLeaves n
  = if isLeaf n then 1%Z
    else fold_left (fun s c => s + countLeaves c)%Z (children n) 0%Z.
Proof. destruct n; reflexivity. Qed.

Lemma wf_four n :
  wf n -> isLeaf n = false ->
  exists sw se nw ne, children n = [sw; se; nw; ne].
Proof.
  intros Hwf Hleaf. apply wf_internal_iff in Hwf; [|exact Hleaf].
  destruct Hwf as ((_ & (mx & my & _ & _ & Hq) & _) & _).
  destruct (quadrants_inv _ _ _ _ Hq) as (sw & se & nw & ne & -> & _).
  now exists sw, se, nw, ne.
Qed.

Lemma wf_leaf_no_children n : wf n -> isLeaf n = true -> children n = [].
Proof.
  intros Hwf Hleaf.
  destruct Hwf as [n _ Hc | n mx my Hl']; [exact Hc | congruence].
Qed.

Lemma height_countLeaves n :
  wf n ->
  (1 <= height n)%Z /\
  (3 * (height n - 1) + 1 <= countLeaves n)%Z /\
  (countLeaves n <= 4 ^ (height n - 1))%Z.
Proof.
  induction n as [n IH] using QuadNode_induction. intros Hwf.
  rewrite height_eq, countLeaves_eq.
  destruct (isLeaf n) eqn:Hleaf.
  - rewrite (wf_leaf_no_children n Hwf Hleaf). simpl. lia.
  - pose proof (wf_children n Hwf Hleaf) as Hk.
    destruct (wf_four n Hwf Hleaf) as (sw & se & nw & ne & Hcs).
    rewrite Hcs in *. cbn [fold_left].
    inversion IH as [|? ? H1 IH1]; subst. inversion IH1 as [|? ? H2 IH2]; subst.
    inversion IH2 as [|? ? H3 IH3]; subst. inversion IH3 as [|? ? H4 _]; subst.
    inversion Hk as [|? ? K1 Hk1]; subst. inversion Hk1 as [|? ? K2 Hk2]; subst.
    inversion Hk2 as [|? ? K3 Hk3]; subst. inversion Hk3 as [|? ? K4 _]; subst.
    destruct (H1 K1) as (A1 & B1 & C1). destruct (H2 K2) as (A2 & B2 & C2).
    destruct (H3 K3) as (A3 & B3 & C3). destruct (H4 K4) as (A4 & B4 & C4).
    set (H := Z.max (Z.max (Z.max (Z.max 1 (height sw + 1)) (height se + 1))
                           (height nw + 1)) (height ne + 1)).
    assert (Hpow : forall h, (1 <= h)%Z -> (h + 1 <= H)%Z ->
                             (4 * 4 ^ (h - 1) <= 4 ^ (H - 1))%Z).
    { intros h Hh HhH.
      replace (4 * 4 ^ (h - 1))%Z with (4 ^ (Z.succ (h - 1)))%Z
        by (rewrite Z.pow_succ_r; lia).
      apply Z.pow_le_mono_r; lia. }
    assert (E1 : (height sw + 1 <= H)%Z) by (unfold H; lia).
    assert (E2 : (height se + 1 <= H)%Z) by (unfold H; lia).
    assert (E3 : (height nw + 1 <= H)%Z) by (unfold H; lia).
    assert (E4 : (height ne + 1 <= H)%Z) by (unfold H; lia).
    pose proof (Hpow _ A1 E1). pose proof (Hpow _ A2 E2).
    pose proof (Hpow _ A3 E3). pose proof (Hpow _ A4 E4).
    split; [unfold H; lia|]. split; [unfold H; lia | lia].
Qed.

Lemma countLeaves_leaves n : wf n -> countLeaves n = Z.of_nat (length (leaves n)).
Proof.
  induction n as [n IH] using QuadNode_induction. intros Hwf.
  rewrite countLeaves_eq, leaves_eq.
  destruct (isLeaf n) eqn:Hleaf; [reflexivity|].
  pose proof (wf_children n Hwf Hleaf) as Hk.
  assert (Hgen : forall s,
    fold_left (fun s c => s + countLeaves c)%Z (children n) s
    = (s + Z.of_nat (length (flat_map leaves (children n))))%Z).
  { induction (children n) as [|c cs IHcs]; intros s; simpl; [lia|].
    inversion IH as [|? ? Hc Hcs]; subst.
    inversion Hk as [|? ? Kc Kcs]; subst.
    rewrite (IHcs Hcs Kcs), (Hc Kc), length_app. lia. }
  rewrite Hgen. lia.
Qed.

(** X6.  On a tree built by the operations, [height] is at least one,
    [countLeaves] is the number of leaves of the traversal, and the two
    bound each other: a tree of height [h] has at least [3 (h - 1) + 1] and
    at most [4 ^ (h - 1)] leaves. *)
Theorem height_bounds_countLeaves t :
  reachable t ->
  (1 <= height t)%Z /\
  countLeaves t = Z.of_nat (length (leaves t)) /\
  (3 * (height t - 1) + 1 <= countLeaves t <= 4 ^ (height t - 1))%Z.
Proof.
  intros Hr. pose proof (reachable_wf _ Hr) as Hwf.
  destruct (height_countLeaves t Hwf) as (H1 & H2 & H3).
  split; [exact H1|]. split; [now apply countLeaves_leaves | lia].
Qed.

Lemma height_bounds_countLeaves_witness :
  (1 <= height threeInSquare)%Z /\
  countLeaves threeInSquare = Z.of_nat (length (leaves threeInSquare)) /\
  (3 * (height threeInSquare - 1) + 1 <= countLeaves threeInSquare
   <= 4 ^ (height threeInSquare - 1))%Z.
Proof.
  exact (height_bounds_countLeaves threeInSquare threeInSquare_reachable).
Defined.

(** ** Looking up cells by position *)

Lemma getCellID_eq n pos :
  getCellID n pos =
  if negb (responsible n pos) then Ok (-1)%Z
  else if isLeaf n then Ok (getID n)
  else firstCellID (fun c => getCellID c pos) 4 (children n).
Proof. destruct n; reflexivity. Qed.

Lemma getMaxIDInSubtree_eq n :
  getMaxIDInSubtree n =
  if isLeaf n then Ok (getID n)
  else
    result <- throughFirstChildren
                (fun c result =>
                   m <- getMaxIDInSubtree c ;; Ok (Z.max m result))
                4 (children n) (-1)%Z ;;
    Ok (Z.max result (getID n)).
Proof. destruct n; reflexivity. Qed.

Lemma quadrants_cover n mx my cs pos :
  quadrants n mx my cs -> responsible n pos = true ->
  Exists (fun c => responsible c pos = true) cs.
Proof.
  intros Hq Hr.
  destruct (quadrants_inv _ _ _ _ Hq)
    as (sw & se & nw & ne & -> & Hsw & Hse & Hnw & Hne).
  apply responsible_iff in Hr.
  destruct (Rlt_dec (getX pos) mx), (Rlt_dec (getY pos) my).
  - apply Exists_cons_hd. apply responsible_iff. lra.
  - apply Exists_cons_tl, Exists_cons_tl, Exists_cons_hd.
    apply responsible_iff. lra.
  - apply Exists_cons_tl, Exists_cons_hd. apply responsible_iff. lra.
  - apply Exists_cons_tl, Exists_cons_tl, Exists_cons_tl, Exists_cons_hd.
    apply responsible_iff. lra.
Qed.

Lemma wf_quadrants n :
  wf n -> isLeaf n = false ->
  exists mx my, minX n < mx < maxX n /\ minY n < my < maxY n /\
                quadrants n mx my (children n).
Proof.
  intros Hwf Hleaf. apply wf_internal_iff in Hwf; [|exact Hleaf].
  now destruct Hwf as ((_ & Hq & _) & _).
Qed.

(** A leaf of a subtree is responsible only for positions of the subtree. *)
Lemma leaf_within n :
  wf n -> forall l pos, In l (leaves n) -> responsible l pos = true ->
  responsible n pos = true.
Proof.
  induction n as [n IH] using QuadNode_induction. intros Hwf l pos Hin Hl.
  rewrite leaves_eq in Hin. destruct (isLeaf n) eqn:Hleaf.
  - destruct Hin as [<- | []]. exact Hl.
  - pose proof (wf_children n Hwf Hleaf) as Hk.
    destruct (wf_quadrants n Hwf Hleaf) as (mx & my & Hx & Hy & Hq).
    apply in_flat_map in Hin. destruct Hin as (c & Hc & Hlc).
    rewrite Forall_forall in IH, Hk.
    apply (quadrant_responsible n mx my (children n) c pos Hx Hy Hq Hc).
    exact (IH c Hc (Hk c Hc) l pos Hlc Hl).
Qed.

Lemma no_leaf_outside n pos :
  wf n -> responsible n pos = false ->
  filter (fun l => responsible l pos) (leaves n) = [].
Proof.
  intros Hwf Hout. apply filter_none. intros l Hl.
  destruct (responsible l pos) eqn:E; [|reflexivity].
  rewrite (leaf_within n Hwf l pos Hl E) in Hout. discriminate.
Qed.

Lemma firstCellID_skip f k cs c :
  Forall (fun d => f d = Ok (-1)%Z) cs ->
  (length cs < k)%nat ->
  forall rest, firstCellID f k (cs ++ c :: rest)
  = (childresult <- f c ;;
     if (0 <=? childresult)%Z then Ok childresult
     else firstCellID f (k - S (length cs)) rest).
Proof.
  intros Hall. revert k.
  induction Hall as [|d cs Hd Hcs IHcs]; intros k Hk rest.
  - destruct k; [lia|]. simpl. now rewrite Nat.sub_0_r.
  - destruct k; [simpl in Hk; lia|]. simpl. rewrite Hd. simpl.
    apply IHcs. simpl in Hk. lia.
Qed.

Lemma firstCellID_none f cs k :
  Forall (fun d => exists r, f d = Ok r /\ (r < 0)%Z) cs ->
  firstCellID f k cs = Abort.
Proof.
  intros Hall. revert k. induction Hall as [|d cs (r & Hd & Hr) Hcs IHcs];
    intros k; destruct k; simpl; try reflexivity.
  rewrite Hd. simpl. destruct (0 <=? r)%Z eqn:E; [lia | apply IHcs].
Qed.

(** The one child that is responsible for a position of the parent. *)
Lemma responsible_child n pos :
  wf n -> isLeaf n = false -> responsible n pos = true ->
  exists before c after,
    children n = before ++ c :: after /\
    Forall (fun d => responsible d pos = false) before /\
    responsible c pos = true /\
    Forall (fun d => responsible d pos = false) after /\
    (length before < 4)%nat.
Proof.
  intros Hwf Hleaf Hr.
  destruct (wf_quadrants n Hwf Hleaf) as (mx & my & Hx & Hy & Hq).
  pose proof (quadrants_cover _ _ _ _ pos Hq Hr) as Hex.
  pose proof (quadrants_exclusive _ _ _ _ pos Hq) as Hexcl.
  destruct (wf_four n Hwf Hleaf) as (sw & se & nw & ne & Hcs).
  rewrite Hcs in *.
  assert (Hsym : forall c d, In c [sw; se; nw; ne] -> In d [sw; se; nw; ne] ->
            True) by auto.
  inversion Hexcl as [|a l Ha Hl]; subst.
  inversion Hl as [|a l' Hb Hl']; subst.
  inversion Hl' as [|a l'' Hc Hl'']; subst.
  inversion Ha as [|? ? A1 Ha']; subst. inversion Ha' as [|? ? A2 Ha'']; subst.
  inversion Ha'' as [|? ? A3 _]; subst.
  inversion Hb as [|? ? B1 Hb']; subst. inversion Hb' as [|? ? B2 _]; subst.
  inversion Hc as [|? ? C1 _]; subst.
  destruct (responsible sw pos) eqn:E1.
  { exists [], sw, [se; nw; ne]. simpl. repeat split; auto. }
  destruct (responsible se pos) eqn:E2.
  { exists [sw], se, [nw; ne]. simpl. repeat split; auto. }
  destruct (responsible nw pos) eqn:E3.
  { exists [sw; se], nw, [ne]. simpl. repeat split; auto. }
  destruct (responsible ne pos) eqn:E4.
  { exists [sw; se; nw], ne, []. simpl. repeat split; auto. }
  exfalso.
  inversion Hex as [? ? F|? ? Hex1]; subst; [congruence|].
  inversion Hex1 as [? ? F|? ? Hex2]; subst; [congruence|].
  inversion Hex2 as [? ? F|? ? Hex3]; subst; [congruence|].
  inversion Hex3 as [? ? F|? ? Hex4]; subst; [congruence|].
  inversion Hex4.
Qed.

Lemma filter_flat_map_none {A B} (f : A -> list B) (p : B -> bool) l :
  Forall (fun a => filter p (f a) = []) l -> filter p (flat_map f l) = [].
Proof.
  induction 1 as [|a l Ha _ IH]; [reflexivity|].
  simpl. now rewrite filter_app, Ha, IH.
Qed.

(** On a tree whose leaves carry identifiers that are not negative,
    [getCellID] answers -1 outside the region and the identifier of the one
    leaf in charge inside. *)
Lemma getCellID_spec n pos :
  wf n -> Forall (fun l => (0 <= ID l)%Z) (leaves n) ->
  if responsible n pos
  then exists l, filter (fun l => responsible l pos) (leaves n) = [l] /\
                 getCellID n pos = Ok (ID l)
  else getCellID n pos = Ok (-1)%Z.
Proof.
  induction n as [n IH] using QuadNode_induction. intros Hwf Hids.
  rewrite getCellID_eq.
  destruct (responsible n pos) eqn:Hresp; cbn [negb]; [|reflexivity].
  rewrite leaves_eq in *.
  destruct (isLeaf n) eqn:Hleaf.
  - exists n. simpl. now rewrite Hresp.
  - pose proof (wf_children n Hwf Hleaf) as Hk.
    destruct (responsible_child n pos Hwf Hleaf Hresp)
      as (before & c & after & Hcs & Hb & Hc & Ha & Hlen).
    rewrite Hcs in *.
    apply Forall_app in IH. destruct IH as [IHb IH].
    inversion IH as [|? ? IHc IHa]; subst.
    apply Forall_app in Hk. destruct Hk as [Hkb Hk].
    inversion Hk as [|? ? Hkc Hka]; subst.
    rewrite flat_map_app in Hids. simpl in Hids.
    apply Forall_app in Hids. destruct Hids as [Hidb Hids].
    apply Forall_app in Hids. destruct Hids as [Hidc Hida].
    specialize (IHc Hkc Hidc). rewrite Hc in IHc.
    destruct IHc as (l & Hfl & Hget).
    assert (Hl0 : (0 <= ID l)%Z).
    { assert (Hin : In l (filter (fun l => responsible l pos) (leaves c)))
        by (rewrite Hfl; now left).
      apply filter_In in Hin. rewrite Forall_forall in Hidc.
      now apply Hidc. }
    exists l. split.
    + rewrite flat_map_app, filter_app. simpl. rewrite filter_app, Hfl.
      rewrite (filter_flat_map_none leaves), (filter_flat_map_none leaves).
      * reflexivity.
      * rewrite Forall_forall in *. intros d Hd.
        apply no_leaf_outside; auto.
      * rewrite Forall_forall in *. intros d Hd.
        apply no_leaf_outside; auto.
    + rewrite firstCellID_skip; [| |exact Hlen].
      * rewrite Hget. simpl.
        now rewrite (proj2 (Z.leb_le 0 (ID l)) Hl0).
      * rewrite Forall_forall in *. intros d Hd.
        rewrite getCellID_eq, (Hb d Hd). reflexivity.
Qed.

Lemma wf_branching n : wf n -> branching n.
Proof.
  induction n as [n IH] using QuadNode_induction. intros Hwf.
  constructor.
  - destruct (isLeaf n) eqn:Hleaf.
    + right. now rewrite (wf_leaf_no_children n Hwf Hleaf).
    + left. now apply wf_four_children.
  - destruct (isLeaf n) eqn:Hleaf.
    + rewrite (wf_leaf_no_children n Hwf Hleaf). constructor.
    + pose proof (wf_children n Hwf Hleaf) as Hk.
      rewrite Forall_forall in *. auto.
Qed.

Lemma leafID_in_postorder n l :
  In l (leaves n) -> In (ID l) (postorderIDs n).
Proof.
  induction n as [n IH] using QuadNode_induction. intros Hin.
  rewrite leaves_eq in Hin. rewrite postorderIDs_eq. apply in_or_app.
  destruct (isLeaf n).
  - destruct Hin as [<- | []]. right. now left.
  - left. apply in_flat_map in Hin. destruct Hin as (c & Hc & Hl).
    apply in_flat_map. exists c. split; [exact Hc|].
    rewrite Forall_forall in IH. auto.
Qed.

Lemma consecutive_In start k x :
  In x (consecutive start k) -> (start <= x < start + Z.of_nat k)%Z.
Proof.
  unfold consecutive. intros Hin. apply in_map_iff in Hin.
  destruct Hin as (i & <- & Hi). apply in_seq in Hi. lia.
Qed.

(** What [indexSubtree] leaves behind on a well-formed tree. *)
Lemma indexSubtree_result n nextID next n' :
  wf n -> indexSubtree n nextID = Ok (next, n') ->
  wf n' /\ region n' = region n /\ isLeaf n' = isLeaf n /\
  next = (nextID + Z.of_nat (countNodes n))%Z /\
  (forall l, In l (leaves n') -> (nextID <= ID l < next)%Z) /\
  ID n' = (next - 1)%Z.
Proof.
  intros Hwf H.
  destruct (indexSubtree_frame n Hwf _ _ _ H) as (Hw' & Hreg & _ & _ & Hl).
  destruct (indexSubtree_postorder_all n (wf_branching n Hwf) nextID)
    as (n'' & H' & Hpost & _).
  rewrite H in H'. injection H' as Hnext <-.
  split; [exact Hw'|]. split; [exact Hreg|]. split; [exact Hl|].
  split; [exact Hnext|]. split.
  - intros l Hin. apply leafID_in_postorder in Hin. rewrite Hpost in Hin.
    apply consecutive_In in Hin. lia.
  - rewrite indexSubtree_eq in H.
    apply bind_Ok in H. destruct H as (u & _ & H).
    apply bind_Ok in H. destruct H as (r & _ & H).
    cbv zeta in H. injection H as <- <-. simpl. lia.
Qed.

Lemma region_responsible n n' pos :
  region n' = region n -> responsible n' pos = responsible n pos.
Proof.
  unfold region, responsible. intros H. injection H as -> -> -> ->.
  reflexivity.
Qed.

(** X7.  After [indexSubtree] has numbered a tree from a start that is not
    negative, the returned index being within the range of the 64-bit
    [index], [getCellID(pos)] answers -1 for a position outside the region
    of the root, and for a position inside it the identifier of the one leaf
    that is responsible for the position, an identifier among those just
    handed out. *)
Theorem getCellID_after_indexSubtree t nextID next t' pos :
  reachable t -> (0 <= nextID)%Z ->
  indexSubtree t nextID = Ok (next, t') ->
  (next < 2 ^ 63)%Z ->
  if responsible t pos
  then exists l, filter (fun l => responsible l pos) (leaves t') = [l] /\
                 getCellID t' pos = Ok (ID l) /\
                 (nextID <= ID l < next)%Z
  else getCellID t' pos = Ok (-1)%Z.
Proof.
  intros Hr H0 H Hrange. pose proof (reachable_wf _ Hr) as Hwf.
  destruct (indexSubtree_result _ _ _ _ Hwf H)
    as (Hw' & Hreg & _ & _ & Hids & _).
  assert (Hnn : Forall (fun l => (0 <= ID l)%Z) (leaves t')).
  { rewrite Forall_forall. intros l Hl. specialize (Hids l Hl). lia. }
  pose proof (getCellID_spec t' pos Hw' Hnn) as Hspec.
  rewrite (region_responsible _ _ pos Hreg) in Hspec.
  destruct (responsible t pos); [|exact Hspec].
  destruct Hspec as (l & Hfl & Hget).
  exists l. split; [exact Hfl|]. split; [exact Hget|].
  apply Hids.
  assert (Hin : In l (filter (fun l => responsible l pos) (leaves t')))
    by (rewrite Hfl; now left).
  now apply filter_In in Hin.
Qed.

Lemma numberedSquare_built start :
  indexSubtree splitSquare start
  = Ok ((start + 1 + 1 + 1 + 1 + 1)%Z, numberedSquare start).
Proof. reflexivity. Qed.

Lemma getCellID_after_indexSubtree_witness :
  exists l,
    filter (fun l => responsible l (mkPoint (1 / 2) (1 / 2)))
           (leaves (numberedSquare 0)) = [l] /\
    getCellID (numberedSquare 0) (mkPoint (1 / 2) (1 / 2)) = Ok (ID l) /\
    (0 <= ID l < 5)%Z.
Proof.
  pose proof (getCellID_after_indexSubtree splitSquare 0 5 (numberedSquare 0)
                (mkPoint (1 / 2) (1 / 2)) splitSquare_reachable
                (Z.le_refl 0) (numberedSquare_built 0) eq_refl) as H.
  assert (E : responsible splitSquare (mkPoint (1 / 2) (1 / 2)) = true).
  { unfold responsible. simpl. now rdecide. }
  rewrite E in H. exact H.
Defined.

Lemma getCellID_negative n pos :
  wf n -> isLeaf n = false ->
  Forall (fun l => (ID l < 0)%Z) (leaves n) ->
  responsible n pos = true ->
  getCellID n pos = Abort.
Proof.
  induction n as [n IH] using QuadNode_induction.
  intros Hwf Hleaf Hids Hresp.
  rewrite getCellID_eq, Hresp, Hleaf. cbn [negb].
  pose proof (wf_children n Hwf Hleaf) as Hk.
  destruct (responsible_child n pos Hwf Hleaf Hresp)
    as (before & c & after & Hcs & Hb & Hc & Ha & Hlen).
  rewrite leaves_eq, Hleaf in Hids.
  rewrite Hcs in *.
  apply Forall_app in IH. destruct IH as [_ IH].
  inversion IH as [|? ? IHc _]; subst.
  apply Forall_app in Hk. destruct Hk as [_ Hk].
  inversion Hk as [|? ? Hkc _]; subst.
  rewrite flat_map_app in Hids. simpl in Hids.
  apply Forall_app in Hids. destruct Hids as [_ Hids].
  apply Forall_app in Hids. destruct Hids as [Hidc _].
  rewrite firstCellID_skip; [| |exact Hlen].
  - destruct (isLeaf c) eqn:Hlc.
    + rewrite getCellID_eq, Hc, Hlc. cbn [negb bind].
      rewrite leaves_eq, Hlc in Hidc. inversion Hidc as [|? ? Hneg _]; subst.
      unfold getID. destruct (0 <=? ID c)%Z eqn:E; [lia|].
      apply firstCellID_none. rewrite Forall_forall in *.
      intros d Hd. exists (-1)%Z. split; [|lia].
      rewrite getCellID_eq, (Ha d Hd). reflexivity.
    + rewrite (IHc Hkc eq_refl Hidc Hc). reflexivity.
  - rewrite Forall_forall in *. intros d Hd.
    rewrite getCellID_eq, (Hb d Hd). reflexivity.
Qed.

(** X8.  Numbering that ends at zero or below leaves every leaf with a
    negative identifier, and [getCellID] reads a negative answer of a child
    as "not here": on an internal root the search for a position inside the
    region then runs through all four children and fails on
    [assert(false)]. *)
Theorem getCellID_fails_on_negative_identifiers t nextID next t' pos :
  reachable t -> isLeaf t = false ->
  indexSubtree t nextID = Ok (next, t') -> (next <= 0)%Z ->
  responsible t pos = true ->
  getCellID t' pos = Abort.
Proof.
  intros Hr Hleaf H Hneg Hresp. pose proof (reachable_wf _ Hr) as Hwf.
  destruct (indexSubtree_result _ _ _ _ Hwf H)
    as (Hw' & Hreg & Hl & _ & Hids & _).
  apply getCellID_negative; auto.
  - congruence.
  - rewrite Forall_forall. intros l Hin. specialize (Hids l Hin). lia.
  - now rewrite (region_responsible _ _ pos Hreg).
Qed.

Lemma getCellID_fails_on_negative_identifiers_witness :
  getCellID (numberedSquare (-5)) (mkPoint (1 / 2) (1 / 2)) = Abort.
Proof.
  apply (getCellID_fails_on_negative_identifiers splitSquare (-5) 0
           (numberedSquare (-5)) (mkPoint (1 / 2) (1 / 2))
           splitSquare_reachable eq_refl (numberedSquare_built (-5))).
  - lia.
  - unfold responsible. simpl. now rdecide.
Defined.

Lemma updateChildren_Ok {S} (f : QuadNode -> S -> outcome (S * QuadNode))
  c cs s s' cs' :
  updateChildren f (c :: cs) s = Ok (s', cs') ->
  exists s1 c1 cs1,
    f c s = Ok (s1, c1) /\ updateChildren f cs s1 = Ok (s', cs1) /\
    cs' = c1 :: cs1.
Proof.
  rewrite updateChildren_eq. intros H.
  apply bind_Ok in H. destruct H as ([s1 c1] & Hc & H).
  apply bind_Ok in H. destruct H as ([s2 cs1] & Hcs & H).
  injection H as <- <-. exists s1, c1, cs1. auto.
Qed.

Lemma getMaxIDInSubtree_indexed n :
  wf n -> forall nextID next n',
  (0 <= nextID)%Z -> indexSubtree n nextID = Ok (next, n') ->
  getMaxIDInSubtree n' = Ok (next - 1)%Z /\ (nextID < next)%Z.
Proof.
  induction n as [n IH] using QuadNode_induction.
  intros Hwf nextID next n' H0 H.
  destruct (indexSubtree_result _ _ _ _ Hwf H)
    as (_ & _ & Hl & Hnext & _ & Hid).
  split; [|rewrite countNodes_eq in Hnext; lia].
  rewrite getMaxIDInSubtree_eq, Hl. unfold getID. rewrite Hid.
  destruct (isLeaf n) eqn:Hleaf; [reflexivity|].
  pose proof (wf_children n Hwf Hleaf) as Hk.
  pose proof (wf_four_children n Hwf Hleaf) as Hfour.
  rewrite indexSubtree_eq in H.
  apply bind_Ok in H. destruct H as (u & _ & H).
  apply bind_Ok in H. destruct H as ([result cs'] & Hloop & H).
  cbv zeta in H. cbn [fst snd] in H. injection H as <- <-.
  cbn [children setID setChildren].
  assert (Hgen : forall cs a b cs' acc,
    Forall (fun c => wf c -> forall nextID next n',
              (0 <= nextID)%Z -> indexSubtree c nextID = Ok (next, n') ->
              getMaxIDInSubtree n' = Ok (next - 1)%Z /\ (nextID < next)%Z) cs ->
    Forall wf cs -> (0 <= a)%Z ->
    updateChildren indexSubtree cs a = Ok (b, cs') ->
    exists r,
      throughFirstChildren
        (fun c result => m <- getMaxIDInSubtree c ;; Ok (Z.max m result))
        (length cs) cs' acc = Ok r /\
      (r <= Z.max acc (b - 1))%Z /\ (a <= b)%Z).
  { clear. induction cs as [|c cs IHcs]; intros a b cs' acc IH Hk Ha Hloop.
    - simpl in Hloop. injection Hloop as <- <-. exists acc. simpl.
      split; [reflexivity | lia].
    - apply updateChildren_Ok in Hloop.
      destruct Hloop as (s1 & c1 & cs1 & Hc & Hcs & ->).
      inversion IH as [|? ? IHc IHrest]; subst.
      inversion Hk as [|? ? Hkc Hkrest]; subst.
      destruct (IHc Hkc _ _ _ Ha Hc) as (Hmax & Hlt).
      destruct (IHcs s1 b cs1 (Z.max (s1 - 1) acc) IHrest Hkrest
                  ltac:(lia) Hcs) as (r & Hr & Hle & Hab).
      exists r. cbn [length throughFirstChildren]. rewrite Hmax.
      cbn [bind]. split; [exact Hr | lia]. }
  destruct (Hgen _ _ _ _ (-1)%Z IH Hk H0 Hloop) as (r & Hr & Hle & Hab).
  rewrite Hfour in Hr. rewrite Hr. cbn [bind]. f_equal. lia.
Qed.

(** X9.  After [indexSubtree] has numbered a tree from a start that is not
    negative, the returned index being within the range of the 64-bit
    [index], the root carries the largest identifier:
    [getMaxIDInSubtree] returns the identifier of the root, which is the
    returned index less one, and no answer of [getCellID] exceeds it. *)
Theorem getMaxIDInSubtree_after_indexSubtree t nextID next t' :
  reachable t -> (0 <= nextID)%Z ->
  indexSubtree t nextID = Ok (next, t') ->
  (next < 2 ^ 63)%Z ->
  getMaxIDInSubtree t' = Ok (next - 1)%Z /\
  getID t' = (next - 1)%Z /\
  forall pos id, getCellID t' pos = Ok id -> (id <= next - 1)%Z.
Proof.
  intros Hr H0 H Hrange. pose proof (reachable_wf _ Hr) as Hwf.
  destruct (getMaxIDInSubtree_indexed t Hwf _ _ _ H0 H) as (Hmax & Hlt).
  destruct (indexSubtree_result _ _ _ _ Hwf H)
    as (Hw' & Hreg & _ & _ & Hids & Hid).
  split; [exact Hmax|]. split; [exact Hid|].
  intros pos id Hget.
  assert (Hnn : Forall (fun l => (0 <= ID l)%Z) (leaves t')).
  { rewrite Forall_forall. intros l Hl. specialize (Hids l Hl). lia. }
  pose proof (getCellID_spec t' pos Hw' Hnn) as Hspec.
  destruct (responsible t' pos).
  - destruct Hspec as (l & Hfl & Hget').
    rewrite Hget in Hget'. injection Hget' as ->.
    assert (Hin : In l (filter (fun l => responsible l pos) (leaves t')))
      by (rewrite Hfl; now left).
    apply filter_In in Hin. destruct Hin as [Hin _].
    specialize (Hids l Hin). lia.
  - rewrite Hget in Hspec. injection Hspec as ->. lia.
Qed.

Lemma getMaxIDInSubtree_after_indexSubtree_witness :
  getMaxIDInSubtree (numberedSquare 0) = Ok (5 - 1)%Z /\
  getID (numberedSquare 0) = (5 - 1)%Z /\
  forall pos id, getCellID (numberedSquare 0) pos = Ok id -> (id <= 5 - 1)%Z.
Proof.
  exact (getMaxIDInSubtree_after_indexSubtree splitSquare 0 5
           (numberedSquare 0) splitSquare_reachable (Z.le_refl 0)
           (numberedSquare_built 0) eq_refl).
Defined.

(** ** Splitting *)

(** X10.  Whenever [split] returns, by either rule, the node was a leaf and
    is now internal with its buffers as they were; its four children are
    empty leaves of its capacity and rule, none of them degenerate, and they
    tile the region: a position the node is responsible for has exactly one
    responsible child, any other position has none. *)
Theorem split_tiles_the_region n n1 :
  split n = Ok n1 ->
  isLeaf n = true /\ isLeaf n1 = false /\
  content n1 = content n /\ positions n1 = positions n /\
  region n1 = region n /\ length (children n1) = 4%nat /\
  Forall (fun c => isLeaf c = true /\ content c = [] /\ positions c = [] /\
                   children c = [] /\ subTreeSize c = 0%Z /\
                   capacity c = capacity n /\
                   splitTheoretical c = splitTheoretical n /\
                   minX c < maxX c /\ minY c < maxY c) (children n1) /\
  forall pos,
    length (filter (fun c => responsible c pos) (children n1))
    = if responsible n pos then 1%nat else 0%nat.
Proof.
  intros H.
  assert (Hleaf : isLeaf n = true).
  { unfold split in H. now inv_bind H. }
  destruct (split_Ok _ _ H) as (mx & my & Hx & Hy & ->).
  split; [exact Hleaf|]. split; [reflexivity|]. split; [reflexivity|].
  split; [reflexivity|]. split; [reflexivity|]. split; [reflexivity|].
  split.
  { simpl. repeat constructor; simpl; lra. }
  intros pos. simpl. unfold responsible. simpl.
  destruct (Rlt_dec (getX pos) mx), (Rlt_dec (getY pos) my),
           (Rle_dec (minX n) (getX pos)), (Rlt_dec (getX pos) (maxX n)),
           (Rle_dec (minY n) (getY pos)), (Rlt_dec (getY pos) (maxY n));
    rdecide; simpl; try reflexivity; exfalso; lra.
Qed.

Lemma split_tiles_the_region_witness :
  exists n1,
    split originSquare = Ok n1 /\
    isLeaf originSquare = true /\ isLeaf n1 = false /\
    content n1 = content originSquare /\
    positions n1 = positions originSquare /\
    region n1 = region originSquare /\ length (children n1) = 4%nat /\
    Forall (fun c => isLeaf c = true /\ content c = [] /\ positions c = [] /\
                     children c = [] /\ subTreeSize c = 0%Z /\
                     capacity c = capacity originSquare /\
                     splitTheoretical c = splitTheoretical originSquare /\
                     minX c < maxX c /\ minY c < maxY c) (children n1) /\
    forall pos,
      length (filter (fun c => responsible c pos) (children n1))
      = if responsible originSquare pos then 1%nat else 0%nat.
Proof.
  assert (H : exists n1, split originSquare = Ok n1).
  { eexists. unfold split, originSquare. simpl. rdecide. simpl.
    reflexivity. }
  destruct H as (n1 & H). exists n1. split; [exact H|].
  exact (split_tiles_the_region originSquare n1 H).
Defined.

Lemma std_sort_Forall {A} (comp : A -> A -> bool) (P : A -> Prop) l :
  Forall P l -> Forall P (std_sort comp l).
Proof.
  intros H. rewrite Forall_forall in *. intros x Hx. apply H.
  eapply Permutation_in; [apply std_sort_perm | exact Hx].
Qed.

(** X11.  [split] fails on a node that is not a leaf.  By the median rule it
    also fails on a leaf whose buffered points all have the x-coordinate of
    its left edge, an empty buffer included: the median is then not strictly
    inside the rectangle (or, for the empty buffer, is read outside the
    sorted vector). *)
Theorem split_fails_without_interior_median n :
  isLeaf n = false \/
  (splitTheoretical n = false /\
   Forall (fun p => getX p = minX n) (positions n)) ->
  split n = Abort.
Proof.
  intros [Hleaf | [Hth Hall]]; unfold split.
  - now rewrite Hleaf.
  - destruct (isLeaf n); [|reflexivity]. cbn [assert bind]. rewrite Hth.
    assert (Hs : Forall (fun x => x = minX n)
                        (std_sort Rltb (map getX (positions n)))).
    { apply std_sort_Forall. rewrite Forall_forall in *.
      intros x Hx. apply in_map_iff in Hx. destruct Hx as (p & <- & Hp).
      now apply Hall. }
    revert Hs.
    generalize (std_sort Rltb (map getX (positions n))) as sortedX.
    generalize (std_sort Rltb (map getY (positions n))) as sortedY.
    generalize (length (positions n) / 2)%nat as half.
    intros half sortedY sortedX Hs.
    destruct (length sortedX =? length (positions n))%nat; [|reflexivity].
    cbn [assert bind].
    destruct (length sortedY =? length (positions n))%nat; [|reflexivity].
    cbn [assert bind].
    destruct (nth_error sortedX half) as [middleX|] eqn:Ex; [|reflexivity].
    destruct (nth_error sortedY half) as [middleY|]; [|reflexivity].
    cbn [bind getX].
    assert (HmX : middleX = minX n).
    { apply nth_error_In in Ex. rewrite Forall_forall in Hs. now apply Hs. }
    rewrite HmX, (proj2 (Rltb_false_iff (minX n) (minX n))) by lra.
    reflexivity.
Qed.

Lemma split_fails_without_interior_median_witness :
  split splitSquare = Abort /\ split edgeLeaf = Abort /\
  split (newNode (mkPoint 0 0) (mkPoint 1 1) 2 false) = Abort.
Proof.
  split; [|split].
  - apply (split_fails_without_interior_median splitSquare).
    left. reflexivity.
  - apply (split_fails_without_interior_median edgeLeaf).
    right. split; [reflexivity|]. simpl. repeat constructor.
  - apply (split_fails_without_interior_median
             (newNode (mkPoint 0 0) (mkPoint 1 1) 2 false)).
    right. split; [reflexivity | constructor].
Defined.

(** ** Insertion *)

(** X12.  [addContent] refuses an identifier that, read as an unsigned
    number, is not below [sanityNodeLimit = 10^16]: every negative
    identifier and every identifier from 10^16 on fails the first
    assertion, whatever the tree and the position. *)
Theorem addContent_refuses_identifier fuel input pos n :
  (- 2 ^ 63 <= input < 2 ^ 63)%Z ->
  (input < 0 \/ sanityNodeLimit <= input)%Z ->
  addContent (S fuel) input pos n = Abort.
Proof.
  intros Hrange Hbad. rewrite addContent_eq.
  assert (Hs : belowSanityLimit input = false).
  { unfold belowSanityLimit, asUnsigned, sanityNodeLimit in *.
    apply Z.ltb_ge. destruct Hbad as [Hneg | Hbig].
    - replace input with (input + 2 ^ 64 + (-1) * 2 ^ 64)%Z by ring.
      rewrite Z.mod_add by lia. rewrite Z.mod_small; lia.
    - rewrite Z.mod_small; lia. }
  now rewrite Hs.
Qed.

Lemma addContent_refuses_identifier_witness :
  addContent 1 (-1)%Z (mkPoint 0 0) originSquare = Abort.
Proof.
  apply (addContent_refuses_identifier 0 (-1)%Z (mkPoint 0 0) originSquare).
  - lia.
  - left. lia.
Defined.

(** ** Removal *)

Lemma findIndex_lt input c :
  In input c -> (findIndex input c < length c)%nat.
Proof.
  induction c as [|x c IH]; simpl; [contradiction|].
  intros [-> | Hin].
  - rewrite Z.eqb_refl. lia.
  - destruct (x =? input)%Z; [lia|]. apply IH in Hin. lia.
Qed.

Lemma removeFromChildren_aborts remove before c after :
  Forall (fun d => remove d = Ok (false, d)) before ->
  remove c = Abort ->
  forall removed allLeaves,
    removeFromChildren remove (before ++ c :: after) removed allLeaves
    = Abort.
Proof.
  intros Hb Hc. induction Hb as [|d before Hd _ IH]; intros removed allLeaves.
  - simpl app. rewrite removeFromChildren_eq. cbv zeta. now rewrite Hc.
  - simpl app. rewrite removeFromChildren_eq. cbv zeta. rewrite Hd. simpl.
    now rewrite IH.
Qed.

Lemma removeContent_in_one_leaf input pos n :
  wf n -> forall l,
  filter (fun l => responsible l pos) (leaves n) = [l] ->
  (~ In input (content l) -> removeContent input pos n = Ok (false, n)) /\
  (forall p,
     In input (content l) ->
     nth_error (positions l) (findIndex input (content l)) = Some p ->
     p <> pos ->
     removeContent input pos n = Abort).
Proof.
  induction n as [n IH] using QuadNode_induction.
  intros Hwf l Hfl.
  assert (Hresp : responsible n pos = true).
  { destruct (responsible n pos) eqn:E; [reflexivity|].
    rewrite (no_leaf_outside n pos Hwf E) in Hfl. discriminate. }
  rewrite removeContent_eq, Hresp. cbn [negb].
  rewrite leaves_eq in Hfl.
  destruct (isLeaf n) eqn:Hleaf.
  - simpl in Hfl. rewrite Hresp in Hfl. injection Hfl as <-. cbv zeta. split.
    + intros Habs. rewrite (findIndex_absent _ _ Habs), Nat.ltb_irrefl.
      reflexivity.
    + intros p Hin Hp Hne.
      rewrite (proj2 (Nat.ltb_lt _ _) (findIndex_lt _ _ Hin)), Hp.
      assert (Hd : Reqb (distance p pos) 0 = false).
      { apply Reqb_false_iff. intros H0. apply Hne.
        now apply distance_zero. }
      now rewrite Hd.
  - rewrite (wf_internal_children _ Hwf Hleaf). cbn [assert bind].
    pose proof (wf_children n Hwf Hleaf) as Hk.
    destruct (responsible_child n pos Hwf Hleaf Hresp)
      as (before & c & after & Hcs & Hb & Hc & Ha & _).
    assert (Hflc : filter (fun l => responsible l pos) (leaves c) = [l]).
    { rewrite Hcs, flat_map_app, filter_app in Hfl. simpl in Hfl.
      rewrite filter_app in Hfl.
      rewrite Hcs in Hk. apply Forall_app in Hk. destruct Hk as [Hkb Hk].
      inversion Hk as [|? ? Hkc Hka]; subst.
      rewrite (filter_flat_map_none leaves), (filter_flat_map_none leaves)
        in Hfl.
      - now rewrite app_nil_r in Hfl.
      - rewrite Forall_forall in *. intros d Hd. apply no_leaf_outside; auto.
      - rewrite Forall_forall in *. intros d Hd. apply no_leaf_outside; auto. }
    assert (Hin : In c (children n))
      by (rewrite Hcs; apply in_or_app; right; now left).
    rewrite Forall_forall in IH, Hk.
    destruct (IH c Hin (Hk c Hin) l Hflc) as [HA HB].
    split.
    + intros Habs. rewrite removeFromChildren_untouched.
      * simpl. do 2 f_equal. rewrite <- Hleaf. apply setChildren_same.
      * rewrite Hcs. apply Forall_app. split; [|constructor].
        -- eapply Forall_impl; [|exact Hb]. intros d Hd.
           now apply removeContent_not_responsible.
        -- now apply HA.
        -- eapply Forall_impl; [|exact Ha]. intros d Hd.
           now apply removeContent_not_responsible.
    + intros p Hinl Hp Hne. rewrite Hcs.
      rewrite removeFromChildren_aborts; [reflexivity| |].
      * eapply Forall_impl; [|exact Hb]. intros d Hd.
        now apply removeContent_not_responsible.
      * now apply (HB p).
Qed.

(** X13.  [removeContent(input, pos)] looks for the identifier in one leaf
    only, the one that is responsible for [pos].  When that leaf does not
    hold the identifier the call returns false and leaves the tree as it is,
    even if the identifier is stored in another leaf; when it holds the
    identifier at another position, the call fails on the assertion that
    compares the two positions. *)
Theorem removeContent_looks_in_one_leaf t input pos l :
  reachable t ->
  filter (fun l => responsible l pos) (leaves t) = [l] ->
  (~ In input (content l) -> removeContent input pos t = Ok (false, t)) /\
  (forall p,
     In input (content l) ->
     nth_error (positions l) (findIndex input (content l)) = Some p ->
     p <> pos ->
     removeContent input pos t = Abort).
Proof.
  intros Hr. apply removeContent_in_one_leaf. now apply reachable_wf.
Qed.

Lemma removeContent_looks_in_one_leaf_witness :
  removeContent 1%Z (mkPoint (1 / 2) (1 / 2)) threeInSquare
  = Ok (false, threeInSquare) /\
  removeContent 2%Z (mkPoint (1 / 4) (1 / 4)) threeInSquare = Abort.
Proof.
  split.
  - apply (removeContent_looks_in_one_leaf threeInSquare 1%Z
             (mkPoint (1 / 2) (1 / 2))
             (leafOf (mkPoint 0 0) (mkPoint 1 1) 2
                     [2%Z] [mkPoint (1 / 2) (1 / 2)])
             threeInSquare_reachable).
    + simpl. unfold responsible. simpl. now rdecide.
    + simpl. intuition discriminate.
  - apply (removeContent_looks_in_one_leaf threeInSquare 2%Z
             (mkPoint (1 / 4) (1 / 4))
             (leafOf (mkPoint 0 0) (mkPoint 1 1) 2
                     [2%Z] [mkPoint (1 / 2) (1 / 2)])
             threeInSquare_reachable) with (p := mkPoint (1 / 2) (1 / 2)).
    + simpl. unfold responsible. simpl. now rdecide.
    + simpl. now left.
    + reflexivity.
    + intros H. injection H as H _. lra.
Defined.

(** ** Insertions that cannot succeed *)

Lemma addContent_internal_counts fuel input pos n n' :
  isLeaf n = false -> addContent fuel input pos n = Ok n' ->
  exists fuel' cs,
    fuel = S fuel' /\
    addToResponsibleChild (addContent fuel' input pos) pos (children n)
    = Ok cs /\
    n' = setSubTreeSize (setChildren n false cs) (subTreeSize n + 1).
Proof.
  intros Hleaf H. destruct fuel as [|fuel']; [discriminate|].
  rewrite addContent_eq, Hleaf in H.
  inv_bind H. inv_bind H. inv_bind H. inv_bind H.
  apply bind_Ok in H. destruct H as (cs & Hcs & H). injection H as <-.
  exists fuel', cs. auto.
Qed.

Lemma reAdd_counts fuel buffered : forall n m,
  isLeaf n = false ->
  reAdd (addContent fuel) buffered n = Ok m ->
  isLeaf m = false /\ content m = content n /\ positions m = positions n /\
  subTreeSize m = (subTreeSize n + Z.of_nat (length buffered))%Z.
Proof.
  induction buffered as [|ip rest IH]; intros n m Hleaf H.
  - simpl in H. injection H as <-. repeat split; auto. simpl. lia.
  - simpl in H. apply bind_Ok in H. destruct H as (n1 & Hadd & H).
    destruct (addContent_internal_counts _ _ _ _ _ Hleaf Hadd)
      as (fuel' & cs & _ & _ & ->).
    destruct (IH (setSubTreeSize (setChildren n false cs) (subTreeSize n + 1))
                 m eq_refl H) as (Hl & Hc & Hp & Hs).
    simpl in Hc, Hp, Hs. repeat split; auto.
    rewrite Hs. simpl length. lia.
Qed.

(** X14.  A leaf that is full and carries a cached [subTreeSize] other than
    zero cannot be split: after the buffered elements have been handed to
    the new children the check [subTreeSize == content.size()] fails, so an
    insertion into it never returns a tree.  (A new leaf has the cache at
    zero; a leaf made by coarsening does not, see the next property.) *)
Theorem full_leaf_with_stale_size_cannot_split n :
  isLeaf n = true -> subTreeSize n <> 0%Z ->
  (capacity n <= Z.of_nat (length (content n)) + 1)%Z ->
  forall fuel input pos n', addContent fuel input pos n <> Ok n'.
Proof.
  intros Hleaf Hstale Hfull fuel input pos n' H.
  destruct fuel as [|fuel]; [discriminate|].
  rewrite addContent_eq, Hleaf in H.
  inv_bind H. inv_bind H. inv_bind H.
  rewrite (proj2 (Z.ltb_ge _ _) Hfull) in H.
  apply bind_Ok in H. destruct H as (n1 & Hsplit & H).
  apply bind_Ok in H. destruct H as (n2 & Hre & H).
  inv_bind H.
  destruct (split_inner _ _ Hsplit) as ((Hl1 & _) & Hc1 & Hp1 & _ & _ & Hs1 & _).
  unfold reAddAll in Hre.
  destruct (reAdd_counts _ _ _ _ Hl1 Hre) as (_ & Hc2 & _ & Hs2).
  apply Z.eqb_eq in Hstep2. apply Nat.eqb_eq in Hstep0.
  rewrite Hs2, Hc2, Hs1, Hc1, Hp1, length_combine, <- Hstep0 in Hstep2.
  rewrite Nat.min_id in Hstep2. lia.
Qed.

Lemma full_leaf_with_stale_size_cannot_split_witness :
  subTreeSize coarsenedSquare = 2%Z /\
  (capacity coarsenedSquare
   <= Z.of_nat (length (content coarsenedSquare)) + 1)%Z /\
  forall fuel input pos n',
    addContent fuel input pos coarsenedSquare <> Ok n'.
Proof.
  split; [reflexivity|]. split; [simpl; lia|].
  apply (full_leaf_with_stale_size_cannot_split coarsenedSquare).
  - reflexivity.
  - simpl. lia.
  - simpl. lia.
Defined.

(** X15.  When [removeContent] coarsens an internal node into a leaf, the
    cached [subTreeSize] keeps the count of the elements that remain; it is
    not reset to the zero of a new leaf.  [recount] sets it to zero. *)
Theorem coarsening_keeps_the_cached_size t input pos found t' :
  reachable t -> isLeaf t = false ->
  removeContent input pos t = Ok (found, t') -> isLeaf t' = true ->
  found = true /\
  subTreeSize t' = Z.of_nat (length (content t')) /\
  subTreeSize t' = (subTreeSize t - 1)%Z /\
  subTreeSize (recount t') = 0%Z.
Proof.
  intros Hr Hleaf H Hleaf'. pose proof (reachable_wf _ Hr) as Hwf.
  destruct (removeContent_sound _ _ _ _ _ Hwf H)
    as (Hw' & _ & _ & _ & Hnf & Hf).
  destruct found; [|rewrite (Hnf eq_refl) in Hleaf'; congruence].
  specialize (Hf eq_refl).
  assert (Hsz : subTreeSize t' = (subTreeSize t - 1)%Z).
  { rewrite removeContent_eq in H.
    destruct (responsible t pos); cbn [negb] in H;
      [|discriminate].
    rewrite Hleaf in H. inv_bind H.
    apply bind_Ok in H. destruct H as ([[cs' removed] al] & _ & H).
    cbn [fst snd] in H. cbv zeta in H.
    match type of H with
    | (if ?b then _ else _) = _ => destruct b
    end.
    - inv_bind H. injection H as -> <-. reflexivity.
    - injection H as -> <-. simpl in Hleaf'. congruence. }
  split; [reflexivity|]. split; [|split; [exact Hsz|]].
  - pose proof (wf_size _ Hw') as Hs'. pose proof (wf_size _ Hwf) as Hs.
    unfold size in Hs, Hs'. rewrite Hleaf in Hs. rewrite Hleaf' in Hs'.
    apply Permutation_length in Hf. simpl in Hf. lia.
  - rewrite recount_eq. cbv zeta. simpl.
    rewrite (wf_leaf_no_children _ Hw' Hleaf'). reflexivity.
Qed.

Lemma coarsening_keeps_the_cached_size_witness :
  true = true /\
  subTreeSize coarsenedSquare
  = Z.of_nat (length (content coarsenedSquare)) /\
  subTreeSize coarsenedSquare = (subTreeSize threeInSquare - 1)%Z /\
  subTreeSize (recount coarsenedSquare) = 0%Z.
Proof.
  exact (coarsening_keeps_the_cached_size threeInSquare 3%Z
           (mkPoint (1 / 2) (-1 / 2)) true coarsenedSquare
           threeInSquare_reachable eq_refl coarsenedSquare_built eq_refl).
Defined.

(** ** More points at one position than a leaf can hold *)

Lemma addToResponsibleChild_at add pos before c after :
  Forall (fun d => responsible d pos = false) before ->
  responsible c pos = true ->
  addToResponsibleChild add pos (before ++ c :: after)
  = (c' <- add c ;; Ok (before ++ c' :: after)).
Proof.
  intros Hb Hc. induction Hb as [|d before Hd _ IH]; simpl.
  - rewrite Hc. reflexivity.
  - rewrite Hd, IH. destruct (add c); reflexivity.
Qed.

Lemma quadrants_locate n mx my cs pos :
  quadrants n mx my cs -> responsible n pos = true ->
  exists before c after,
    cs = before ++ c :: after /\
    Forall (fun d => responsible d pos = false) before /\
    responsible c pos = true.
Proof.
  intros Hq Hr.
  pose proof (quadrants_cover _ _ _ _ pos Hq Hr) as Hex.
  clear Hq. induction Hex as [c cs Hc | d cs Hex IH].
  - exists [], c, cs. simpl. auto.
  - destruct (responsible d pos) eqn:Hd.
    + exists [], d, cs. simpl. auto.
    + destruct IH as (before & c & after & -> & Hb & Hc).
      exists (d :: before), c, after. simpl. auto.
Qed.

Lemma reAdd_crowded pos fuel :
  (forall f, (f < fuel)%nat -> forall n input n',
     isLeaf n = true -> Forall (fun p => p = pos) (positions n) ->
     (capacity n <= Z.of_nat (length (content n)) + 1)%Z ->
     addContent f input pos n <> Ok n') ->
  forall buffered, Forall (fun ip => snd ip = pos) buffered ->
  forall m m' before c after,
    isLeaf m = false -> children m = before ++ c :: after ->
    Forall (fun d => responsible d pos = false) before ->
    responsible c pos = true -> isLeaf c = true ->
    Forall (fun p => p = pos) (positions c) ->
    reAdd (addContent fuel) buffered m = Ok m' ->
    exists c',
      isLeaf m' = false /\ children m' = before ++ c' :: after /\
      responsible c' pos = true /\ isLeaf c' = true /\
      Forall (fun p => p = pos) (positions c') /\
      capacity c' = capacity c /\
      length (content c') = (length (content c) + length buffered)%nat.
Proof.
  intros Hcrowd buffered Hbuf.
  induction Hbuf as [|ip rest Hip _ IH];
    intros m m' before c after Hleaf Hcs Hb Hc Hlc Hall H.
  - simpl in H. injection H as <-. exists c. repeat split; auto.
  - simpl in H. apply bind_Ok in H. destruct H as (m1 & Hadd & H).
    rewrite Hip in Hadd.
    destruct (addContent_internal_counts _ _ _ _ _ Hleaf Hadd)
      as (f' & cs & Hf & Hloop & ->).
    rewrite Hcs, (addToResponsibleChild_at _ _ _ _ _ Hb Hc) in Hloop.
    apply bind_Ok in Hloop. destruct Hloop as (c1 & Hc1 & Hloop).
    injection Hloop as <-.
    pose proof Hc1 as Hc1'.
    destruct f' as [|f'']; [discriminate|].
    rewrite addContent_eq, Hlc in Hc1.
    inv_bind Hc1. inv_bind Hc1. inv_bind Hc1.
    destruct (Z.of_nat (length (content c)) + 1 <? capacity c)%Z eqn:Hroom.
    + injection Hc1 as <-.
      destruct (IH (setSubTreeSize
                      (setChildren m false
                         (before
                          ++ setBuffers c (content c ++ [fst ip])
                                        (positions c ++ [pos]) :: after))
                      (subTreeSize m + 1))
                   m' before
                   (setBuffers c (content c ++ [fst ip]) (positions c ++ [pos]))
                   after eq_refl eq_refl Hb Hc Hlc)
        as (c' & H1 & H2 & H3 & H4 & H5 & H6 & H7).
      * simpl. apply Forall_app. split; [exact Hall | now constructor].
      * exact H.
      * exists c'. repeat split; auto.
        rewrite H7. simpl. rewrite length_app. simpl. lia.
    + exfalso. apply Z.ltb_ge in Hroom.
      apply (Hcrowd (S f'') ltac:(lia) c (fst ip) c1 Hlc Hall Hroom Hc1').
Qed.

Lemma crowded_never_placed pos : forall fuel n input n',
  isLeaf n = true -> Forall (fun p => p = pos) (positions n) ->
  (capacity n <= Z.of_nat (length (content n)) + 1)%Z ->
  addContent fuel input pos n <> Ok n'.
Proof.
  induction fuel as [fuel IHf] using lt_wf_ind.
  intros n input n' Hleaf Hall Hfull H.
  destruct fuel as [|f]; [discriminate|].
  rewrite addContent_eq, Hleaf in H.
  inv_bind H. inv_bind H. inv_bind H.
  rewrite (proj2 (Z.ltb_ge _ _) Hfull) in H.
  apply bind_Ok in H. destruct H as (n1 & Hsplit & H).
  apply bind_Ok in H. destruct H as (n2 & Hre & H).
  inv_bind H.
  destruct (split_Ok _ _ Hsplit) as (mx & my & Hx & Hy & Hn1).
  destruct (split_inner _ _ Hsplit)
    as ((Hl1 & (mx' & my' & _ & _ & Hq) & _) & Hc1 & Hp1 & Hreg & _).
  assert (Hr1 : responsible n1 pos = true).
  { rewrite <- Hstep1. unfold region in Hreg. unfold responsible.
    injection Hreg as -> -> -> ->. reflexivity. }
  destruct (quadrants_locate _ _ _ _ pos Hq Hr1)
    as (before & c & after & Hcs & Hb & Hc).
  assert (Hnew : isLeaf c = true /\ content c = [] /\ positions c = [] /\
                 capacity c = capacity n).
  { assert (Hin : In c (children n1))
      by (rewrite Hcs; apply in_or_app; right; now left).
    rewrite Hn1 in Hin. simpl in Hin.
    destruct Hin as [<- | [<- | [<- | [<- | []]]]]; repeat split. }
  destruct Hnew as (Hlc & Hcc & Hpc & Hcap).
  unfold reAddAll in Hre.
  assert (Hbuf : Forall (fun ip => snd ip = pos)
                        (combine (content n1) (positions n1))).
  { rewrite Hc1, Hp1. rewrite Forall_forall in *. intros [i p] Hin.
    simpl. apply Hall. eapply in_combine_r; eauto. }
  assert (Hallc : Forall (fun p => p = pos) (positions c))
    by (rewrite Hpc; constructor).
  destruct (reAdd_crowded pos f (fun f' Hf' => IHf f' ltac:(lia)) _ Hbuf
              n1 n2 before c after Hl1 Hcs Hb Hc Hlc Hallc Hre)
    as (c2 & Hl2 & Hcs2 & Hr2 & Hlc2 & Hall2 & Hcap2 & Hlen2).
  cbv zeta in H.
  destruct (addContent_internal_counts f input pos
              (setBuffers (setSubTreeSize n2 (Z.of_nat (length (content n2))))
                          [] [])
              n' Hl2 H)
    as (f' & cs & Hf & Hloop & _).
  simpl in Hloop.
  rewrite Hcs2, (addToResponsibleChild_at _ _ _ _ _ Hb Hr2) in Hloop.
  apply bind_Ok in Hloop. destruct Hloop as (c3 & Hc3 & _).
  apply (IHf f' ltac:(lia) c2 input c3 Hlc2 Hall2); [|exact Hc3].
  rewrite Hcap2, Hcap, Hlen2, Hcc, Hc1, Hp1, length_combine.
  apply Nat.eqb_eq in Hstep0. rewrite <- Hstep0, Nat.min_id. simpl. lia.
Qed.

(** X16.  A leaf takes at most [capacity - 1] elements, and a split cannot
    separate elements that share one position.  So an insertion at [pos]
    into a full leaf whose buffered points all lie at [pos] never returns a
    tree: each split sends the buffered points and the new one to the same
    new leaf, which is full in turn.  With an empty buffer this is the case
    of a capacity of one or zero, where no insertion at all succeeds. *)
Theorem addContent_cannot_place_a_crowded_point n pos :
  isLeaf n = true -> Forall (fun p => p = pos) (positions n) ->
  (capacity n <= Z.of_nat (length (content n)) + 1)%Z ->
  forall fuel input n', addContent fuel input pos n <> Ok n'.
Proof.
  intros Hleaf Hall Hfull fuel input n'. now apply crowded_never_placed.
Qed.

Lemma addContent_cannot_place_a_crowded_point_witness :
  positions southWestCell = [mkPoint (-1 / 2) (-1 / 2)] /\
  (capacity southWestCell
   <= Z.of_nat (length (content southWestCell)) + 1)%Z /\
  forall fuel input n',
    addContent fuel input (mkPoint (-1 / 2) (-1 / 2)) southWestCell <> Ok n'.
Proof.
  split; [reflexivity|]. split; [simpl; lia|].
  apply (addContent_cannot_place_a_crowded_point southWestCell
           (mkPoint (-1 / 2) (-1 / 2))).
  - reflexivity.
  - simpl. repeat constructor.
  - simpl. lia.
Defined.

(** ** Pruning and the circle query *)

Lemma unitCell_reachable : reachable unitCell.
Proof.
  apply (reach_add (newNode (mkPoint 0 0) (mkPoint 1 1) 2 true) 1 7%Z
                   (mkPoint (1 / 2) (1 / 2))).
  - apply reach_new.
  - now run.
Qed.

Lemma unitCell_awayFromOrigin : awayFromOrigin unitCell.
Proof. unfold awayFromOrigin, unitCell. simpl. lra. Qed.

Lemma unitCell_query center radius result :
  exists result',
    getElementsInEuclideanCircle unitCell center radius result = Ok result'.
Proof.
  apply getElementsInEuclideanCircle_returns.
  - exact (reachable_wf _ unitCell_reachable).
  - exact unitCell_awayFromOrigin.
  - simpl. repeat constructor.
Qed.

Lemma fourInUnit_built :
  exists t1 t2 t3,
    addContent 1 1%Z (mkPoint (1 / 4) (1 / 4))
               (newNode (mkPoint 0 0) (mkPoint 1 1) 2 true) = Ok t1 /\
    addContent 3 2%Z (mkPoint (3 / 4) (1 / 4)) t1 = Ok t2 /\
    addContent 2 3%Z (mkPoint (1 / 4) (3 / 4)) t2 = Ok t3 /\
    addContent 2 4%Z (mkPoint (3 / 4) (3 / 4)) t3 = Ok fourInUnit.
Proof.
  eexists. eexists. eexists. split; [|split; [|split]].
  - run. reflexivity.
  - run. reflexivity.
  - run. reflexivity.
  - run. unfold fourInUnit. fields. repeat f_equal; lra.
Qed.

Lemma fourInUnit_reachable : reachable fourInUnit.
Proof.
  destruct fourInUnit_built as (t1 & t2 & t3 & H1 & H2 & H3 & H4).
  eapply reach_add; [|exact H4]. eapply reach_add; [|exact H3].
  eapply reach_add; [|exact H2]. eapply reach_add; [|exact H1].
  apply reach_new.
Qed.

Lemma fourInUnit_awayFromOrigin : awayFromOrigin fourInUnit.
Proof. unfold awayFromOrigin, fourInUnit. simpl. lra. Qed.

Lemma fourInUnit_populated : populated fourInUnit.
Proof.
  apply populated_internal; [reflexivity | simpl; unfold size; simpl; lia|].
  simpl. repeat constructor.
Qed.

Lemma fourInUnit_bounds center :
  Forall (fun m => exists mm, EuclideanDistances m center = Ok mm)
         (nodes fourInUnit).
Proof.
  simpl. repeat constructor;
    (eexists; apply EuclideanDistances_awayFromOrigin;
     unfold awayFromOrigin; simpl; lra).
Qed.

Lemma unitCell_near :
  outOfReach unitCell (mkPoint 0 0) 1 = Ok false.
Proof.
  unfold outOfReach.
  rewrite (EuclideanDistances_awayFromOrigin _ _ unitCell_awayFromOrigin).
  cbn [bind]. f_equal. apply Rltb_false_iff.
  assert (Hr : responsible unitCell (mkPoint 0 0) = true).
  { unfold responsible. simpl. now rdecide. }
  pose proof (distanceBounds_lower unitCell (mkPoint 0 0) (mkPoint 0 0) Hr)
    as Hl.
  rewrite distance_self in Hl. lra.
Qed.

Lemma unitCell_far :
  outOfReach unitCell (mkPoint 3 (1 / 2)) 1 = Ok true.
Proof.
  unfold outOfReach.
  rewrite (EuclideanDistances_awayFromOrigin _ _ unitCell_awayFromOrigin).
  cbn [bind]. f_equal. apply Rltb_true_iff.
  assert (Hd : distance (mkPoint (minX unitCell) (minY unitCell))
                        (mkPoint 3 (1 / 2)) <= DBL_MAX).
  { apply Rle_trans with 4.
    - rewrite <- (sqrt_square 4) by lra. apply sqrt_le_1_alt.
      unfold squaredDistance. simpl. lra.
    - unfold DBL_MAX.
      assert (H52 : 1 <= 2 ^ 52) by (apply pow_R1_Rle; lra).
      assert (Hinv : / 2 ^ 52 <= 1).
      { rewrite <- Rinv_1. apply Rinv_le_contravar; lra. }
      assert (H1021 : 1 <= 2 ^ 1021) by (apply pow_R1_Rle; lra).
      replace (2 ^ 1023) with (4 * 2 ^ 1021)
        by (change 1023%nat with (2 + 1021)%nat; rewrite pow_add; simpl; ring).
      nra. }
  destruct (distanceBounds_exact unitCell (mkPoint 3 (1 / 2)))
    as (_ & (p & Hp & Hpd) & _); [simpl; lra | simpl; lra | exact Hd|].
  rewrite <- Hpd. unfold inClosedRegion in Hp. simpl in Hp.
  assert (Hs : sqrt 1 < sqrt (squaredDistance p (mkPoint 3 (1 / 2)))).
  { apply sqrt_lt_1_alt. unfold squaredDistance. simpl.
    assert (H1 : 4 <= (getX p - 3) * (getX p - 3)) by nra.
    pose proof (Rle_0_sqr (getY p - 1 / 2)) as H2. unfold Rsqr in H2.
    lra. }
  rewrite sqrt_1 in Hs. exact Hs.
Qed.

(** X17.  [outOfReach] prunes safely and sharply.  When it answers true,
    every position the node is responsible for lies farther from the query
    point than the radius.  When it answers false, on a rectangle that is
    not inverted and for a query whose distance to the corner
    [(minX, minY)] does not exceed [DBL_MAX], the start value of the
    running minimum, some point of the closed rectangle lies within the
    radius. *)
Theorem outOfReach_prunes_exactly n query radius far :
  outOfReach n query radius = Ok far ->
  (far = true ->
   forall p, responsible n p = true -> radius < distance p query) /\
  (far = false ->
   minX n <= maxX n -> minY n <= maxY n ->
   distance (mkPoint (minX n) (minY n)) query <= DBL_MAX ->
   exists p, inClosedRegion n p /\ distance p query <= radius).
Proof.
  intros H. unfold outOfReach in H.
  apply bind_Ok in H. destruct H as (mm & Hmm & H). injection H as <-.
  destruct (EuclideanDistances_Ok _ _ _ Hmm) as (-> & _ & _).
  split.
  - intros Hfar p Hp. apply Rltb_true_iff in Hfar.
    pose proof (distanceBounds_lower n query p Hp). lra.
  - intros Hnear Hx Hy Hd. apply Rltb_false_iff in Hnear.
    destruct (distanceBounds_exact n query Hx Hy Hd)
      as (_ & (p & Hp & Hpd) & _).
    exists p. split; [exact Hp | lra].
Qed.

Lemma outOfReach_prunes_exactly_witness :
  ((true = true ->
    forall p, responsible unitCell p = true ->
              1 < distance p (mkPoint 3 (1 / 2))) /\
   (true = false ->
    minX unitCell <= maxX unitCell -> minY unitCell <= maxY unitCell ->
    distance (mkPoint (minX unitCell) (minY unitCell)) (mkPoint 3 (1 / 2))
    <= DBL_MAX ->
    exists p, inClosedRegion unitCell p /\
              distance p (mkPoint 3 (1 / 2)) <= 1)) /\
  ((false = true ->
    forall p, responsible unitCell p = true ->
              1 < distance p (mkPoint 0 0)) /\
   (false = false ->
    minX unitCell <= maxX unitCell -> minY unitCell <= maxY unitCell ->
    distance (mkPoint (minX unitCell) (minY unitCell)) (mkPoint 0 0)
    <= DBL_MAX ->
    exists p, inClosedRegion unitCell p /\ distance p (mkPoint 0 0) <= 1)).
Proof.
  split.
  - exact (outOfReach_prunes_exactly unitCell (mkPoint 3 (1 / 2)) 1 true
             unitCell_far).
  - exact (outOfReach_prunes_exactly unitCell (mkPoint 0 0) 1 false
             unitCell_near).
Defined.

(** X18.  Whenever the circle query returns on a tree built by the
    operations, it has appended to the vector it was given exactly the
    brute-force answer, in the order of the traversal; what the vector held
    before stays in front. *)
Theorem circle_query_appends_the_brute_force_answer t center radius
  result result' :
  reachable t ->
  getElementsInEuclideanCircle t center radius result = Ok result' ->
  result' = result ++ bruteForceCircle t center radius.
Proof.
  intros Hr. apply getElementsInEuclideanCircle_sound.
  now apply reachable_wf.
Qed.

Lemma circle_query_appends_the_brute_force_answer_witness :
  exists result',
    getElementsInEuclideanCircle unitCell (mkPoint 0 0) 1 [3%Z] = Ok result' /\
    result' = [3%Z] ++ bruteForceCircle unitCell (mkPoint 0 0) 1.
Proof.
  destruct (unitCell_query (mkPoint 0 0) 1 [3%Z]) as (result' & H).
  exists result'. split; [exact H|].
  exact (circle_query_appends_the_brute_force_answer unitCell (mkPoint 0 0) 1
           [3%Z] result' unitCell_reachable H).
Defined.

(** X19.  The radii at the two ends.  A circle query with a radius of
    zero or below that returns has found nothing.  A circle query whose
    radius exceeds the largest distance from the centre to the region of
    the root, and that returns, has found every stored element: its answer
    is the listing of [getElements]. *)
Theorem circle_query_at_extreme_radii t center radius result' :
  reachable t ->
  getElementsInEuclideanCircle t center radius [] = Ok result' ->
  (radius <= 0 -> result' = []) /\
  (forall mm, EuclideanDistances t center = Ok mm -> snd mm < radius ->
              getElements t = Ok result').
Proof.
  intros Hr H. pose proof (reachable_wf _ Hr) as Hwf.
  apply getElementsInEuclideanCircle_sound in H; [|exact Hwf].
  simpl in H. subst result'. unfold bruteForceCircle. split.
  - intros Hrad. rewrite filter_none; [reflexivity|].
    intros ip _. apply Rltb_false_iff.
    pose proof (distance_nonneg (snd ip) center). lra.
  - intros mm Hmm Hbig.
    destruct (EuclideanDistances_Ok _ _ _ Hmm) as (-> & _ & _).
    rewrite (getElements_stored t Hwf). do 2 f_equal.
    symmetry. apply forallb_filter_id. apply forallb_forall.
    intros ip Hip. apply Rltb_true_iff.
    pose proof (wf_stored_responsible t Hwf ip Hip) as Hresp.
    apply responsible_inClosedRegion in Hresp.
    pose proof (distanceBounds_above t center (snd ip) Hresp). lra.
Qed.

Lemma circle_query_at_extreme_radii_witness :
  exists result',
    getElementsInEuclideanCircle unitCell (mkPoint 0 0) 0 [] = Ok result' /\
    (0 <= 0 -> result' = []) /\
    (forall mm, EuclideanDistances unitCell (mkPoint 0 0) = Ok mm ->
                snd mm < 0 -> getElements unitCell = Ok result').
Proof.
  destruct (unitCell_query (mkPoint 0 0) 0 []) as (result' & H).
  exists result'. split; [exact H|].
  exact (circle_query_at_extreme_radii unitCell (mkPoint 0 0) 0 result'
           unitCell_reachable H).
Defined.

(** X20.  Whenever [EuclideanDistances] returns, on a rectangle that is not
    inverted and for a query point whose distance to the lower corner does
    not exceed [DBL_MAX], the pair is exact: the first component is the
    least and the second the greatest distance from the query point to a
    point of the closed rectangle, both are attained, and the first is zero
    when the query point lies in the closed rectangle. *)
Theorem EuclideanDistances_returns_exact_bounds n query mm :
  EuclideanDistances n query = Ok mm ->
  minX n <= maxX n -> minY n <= maxY n ->
  distance (mkPoint (minX n) (minY n)) query <= DBL_MAX ->
  (forall p, inClosedRegion n p -> fst mm <= distance p query <= snd mm) /\
  (exists p, inClosedRegion n p /\ distance p query = fst mm) /\
  (exists p, inClosedRegion n p /\ distance p query = snd mm) /\
  (inClosedRegion n query -> fst mm = 0).
Proof. apply EuclideanDistances_exact. Qed.

Lemma EuclideanDistances_returns_exact_bounds_witness :
  (forall p, inClosedRegion unitCell p ->
             fst (distanceBounds unitCell (mkPoint 0 0))
             <= distance p (mkPoint 0 0)
             <= snd (distanceBounds unitCell (mkPoint 0 0))) /\
  (exists p, inClosedRegion unitCell p /\
             distance p (mkPoint 0 0)
             = fst (distanceBounds unitCell (mkPoint 0 0))) /\
  (exists p, inClosedRegion unitCell p /\
             distance p (mkPoint 0 0)
             = snd (distanceBounds unitCell (mkPoint 0 0))) /\
  (inClosedRegion unitCell (mkPoint 0 0) ->
   fst (distanceBounds unitCell (mkPoint 0 0)) = 0).
Proof.
  apply (EuclideanDistances_returns_exact_bounds unitCell (mkPoint 0 0)
           (distanceBounds unitCell (mkPoint 0 0))).
  - exact (EuclideanDistances_awayFromOrigin _ _ unitCell_awayFromOrigin).
  - simpl. lra.
  - simpl. lra.
  - simpl. rewrite distance_self. pose proof DBL_MAX_pos. lra.
Defined.

Lemma point_region_bounds n query :
  minX n = maxX n -> minY n = maxY n ->
  distance (mkPoint (minX n) (minY n)) query <= DBL_MAX ->
  distanceBounds n query
  = (distance (mkPoint (minX n) (minY n)) query,
     distance (mkPoint (minX n) (minY n)) query).
Proof.
  intros Hx Hy Hd.
  pose proof (distance_nonneg (mkPoint (minX n) (minY n)) query) as H0.
  unfold distanceBounds, boundaryCandidates, responsible.
  rewrite <- Hx, <- Hy.
  assert (E1 : Rltb (minX n) (getX query) && Rltb (getX query) (minX n)
               = false).
  { destruct (Rltb (minX n) (getX query)) eqn:A; [|reflexivity].
    apply Rltb_true_iff in A. simpl. apply Rltb_false_iff. lra. }
  assert (E2 : Rltb (minY n) (getY query) && Rltb (getY query) (minY n)
               = false).
  { destruct (Rltb (minY n) (getY query)) eqn:A; [|reflexivity].
    apply Rltb_true_iff in A. simpl. apply Rltb_false_iff. lra. }
  assert (E3 : Rleb (minX n) (getX query) && Rleb (minY n) (getY query)
               && Rltb (getX query) (minX n) && Rltb (getY query) (minY n)
               = false).
  { destruct (Rleb (minX n) (getX query)) eqn:A; [|reflexivity].
    apply Rleb_true_iff in A.
    rewrite (proj2 (Rltb_false_iff (getX query) (minX n)) A).
    now rewrite andb_false_r. }
  rewrite E1, E2, E3. simpl. unfold updateMinMax. simpl.
  set (d := distance (mkPoint (minX n) (minY n)) query) in *.
  f_equal.
  - rewrite (Rmin_right DBL_MAX d Hd). now rewrite !(Rmin_left d d) by lra.
  - rewrite (Rmax_left d 0 H0). now rewrite !(Rmax_left d d) by lra.
Qed.

Lemma point_region_aborts n query :
  minX n = maxX n -> minY n = maxY n ->
  distance (mkPoint (minX n) (minY n)) query <= DBL_MAX ->
  EuclideanDistances n query = Abort.
Proof.
  intros Hx Hy Hd. unfold EuclideanDistances.
  rewrite (point_region_bounds n query Hx Hy Hd). cbn [fst snd].
  destruct (Rltb _ (_ + _)); [|reflexivity]. cbn [assert bind].
  rewrite (proj2 (Rltb_false_iff _ _)) by lra. reflexivity.
Qed.

(** X21.  On a node whose rectangle is a single point, such as the node of
    the default constructor, and for a query whose distance to that point
    does not exceed [DBL_MAX], the start value of the running minimum, the
    two bounds coincide and the closing assertion
    [minDistance < maxDistance] fails: [EuclideanDistances] does not
    return, and neither do [outOfReach] and the two queries, which start
    with it. *)
Theorem queries_fail_on_a_point_region n query :
  minX n = maxX n -> minY n = maxY n ->
  distance (mkPoint (minX n) (minY n)) query <= DBL_MAX ->
  EuclideanDistances n query = Abort /\
  (forall radius, outOfReach n query radius = Abort) /\
  (forall radius result,
     getElementsInEuclideanCircle n query radius result = Abort) /\
  (forall prob log real st,
     getElementsProbabilistically prob log real n query st = Abort).
Proof.
  intros Hx Hy Hd.
  pose proof (point_region_aborts n query Hx Hy Hd) as H.
  split; [exact H|]. split; [|split].
  - intros radius. unfold outOfReach. now rewrite H.
  - intros radius result. rewrite getElementsInEuclideanCircle_eq.
    unfold outOfReach. now rewrite H.
  - intros prob log real st. rewrite getElementsProbabilistically_eq.
    now rewrite H.
Qed.

Lemma queries_fail_on_a_point_region_witness :
  EuclideanDistances defaultNode (mkPoint 0 0) = Abort /\
  (forall radius, outOfReach defaultNode (mkPoint 0 0) radius = Abort) /\
  (forall radius result,
     getElementsInEuclideanCircle defaultNode (mkPoint 0 0) radius result
     = Abort) /\
  (forall prob log real st,
     getElementsProbabilistically prob log real defaultNode (mkPoint 0 0) st
     = Abort).
Proof.
  apply (queries_fail_on_a_point_region defaultNode (mkPoint 0 0)).
  - reflexivity.
  - reflexivity.
  - simpl. rewrite distance_self. pose proof DBL_MAX_pos. lra.
Defined.

Lemma nodes_eq n : nodes n = n :: flat_map nodes (children n).
Proof. destruct n; reflexivity. Qed.

Lemma circle_query_returns n :
  wf n ->
  Forall (fun ip => belowSanityLimit (fst ip) = true) (storedPairs n) ->
  forall center,
  Forall (fun m => exists mm, EuclideanDistances m center = Ok mm)
         (nodes n) ->
  forall radius result, exists result',
    getElementsInEuclideanCircle n center radius result = Ok result'.
Proof.
  induction n as [n IH] using QuadNode_induction.
  intros Hwf Hs center Hb radius result.
  rewrite nodes_eq in Hb. inversion Hb as [|? ? (mm & Hmm) Hbk]; subst.
  rewrite getElementsInEuclideanCircle_eq. unfold outOfReach.
  rewrite Hmm. cbn [bind].
  destruct (Rltb radius (fst mm)); [eauto|].
  rewrite storedPairs_eq in Hs.
  destruct (isLeaf n) eqn:Hleaf.
  - destruct Hwf as [n _ _ Hlen _ _ | n mx my Hl']; [|congruence].
    apply circleScan_returns; [exact Hlen|].
    rewrite <- (map_fst_combine (content n) (positions n) Hlen).
    apply Forall_map. exact Hs.
  - pose proof (wf_children n Hwf Hleaf) as Hk.
    clear Hleaf Hwf Hmm Hb. revert result.
    induction (children n) as [|c cs IHcs]; intros result; [simpl; eauto|].
    inversion IH as [|c0 cs0 IHc IHrest]; subst c0 cs0.
    inversion Hk as [|c0 cs0 Hkc Hkcs]; subst c0 cs0.
    simpl in Hs, Hbk. apply Forall_app in Hs. destruct Hs as [Hsc Hscs].
    apply Forall_app in Hbk. destruct Hbk as [Hbc Hbcs].
    rewrite throughChildren_eq.
    destruct (IHc Hkc Hsc center Hbc radius result) as (r1 & ->).
    cbn [bind]. now apply IHcs.
Qed.

(** X26.  The circle query fails in no other way than through the sanity
    assertions.  On a tree built by the operations whose identifiers pass
    the sanity check, if [EuclideanDistances] returns for the centre on
    every node of the tree, then the query returns, with the vector it was
    given extended by the brute-force answer. *)
Theorem circle_query_returns_when_the_bounds_do t center radius result :
  reachable t ->
  Forall (fun ip => belowSanityLimit (fst ip) = true) (storedPairs t) ->
  Forall (fun m => exists mm, EuclideanDistances m center = Ok mm)
         (nodes t) ->
  getElementsInEuclideanCircle t center radius result
  = Ok (result ++ bruteForceCircle t center radius).
Proof.
  intros Hr Hs Hb. pose proof (reachable_wf _ Hr) as Hwf.
  destruct (circle_query_returns t Hwf Hs center Hb radius result)
    as (result' & H).
  rewrite H. f_equal.
  now apply getElementsInEuclideanCircle_sound in H.
Qed.

Lemma circle_query_returns_when_the_bounds_do_witness :
  getElementsInEuclideanCircle fourInUnit (mkPoint (1 / 2) (1 / 2)) (1 / 2)
                               [9%Z]
  = Ok ([9%Z]
        ++ bruteForceCircle fourInUnit (mkPoint (1 / 2) (1 / 2)) (1 / 2)).
Proof.
  apply (circle_query_returns_when_the_bounds_do fourInUnit
           (mkPoint (1 / 2) (1 / 2)) (1 / 2) [9%Z]).
  - exact fourInUnit_reachable.
  - simpl. repeat constructor.
  - apply fourInUnit_bounds.
Defined.

(** ** The probabilistic query *)

Section ProbabilisticResults.

Variable prob : R -> R.
Variable log : R -> R.
Variable real : nat -> R.

Lemma wf_size_nonneg n : wf n -> (0 <= size n)%Z.
Proof. intros H. rewrite (wf_size n H). lia. Qed.

Lemma maybeGetKthElement_kth n :
  wf n -> forall upperBound euQuery k st,
  (0 <= k < size n)%Z ->
  exists e p,
    nth_error (storedPairs n) (Z.to_nat k) = Some (e, p) /\
    maybeGetKthElement prob real n upperBound euQuery k st
    = Ok (maybeAccept prob real upperBound euQuery e p st).
Proof.
  induction n as [n IH] using QuadNode_induction.
  intros Hwf upperBound euQuery k st Hk.
  rewrite maybeGetKthElement_eq, storedPairs_eq.
  rewrite (proj2 (Z.ltb_lt k (size n))) by lia. cbn [assert bind].
  pose proof (wf_size n Hwf) as Hsize. rewrite storedPairs_eq in Hsize.
  destruct (isLeaf n) eqn:Hleaf.
  - rewrite (proj2 (Z.leb_le 0 k)) by lia. cbn [assert bind].
    destruct Hwf as [n _ _ Hlen _ _ | n mx my Hl']; [|congruence].
    unfold size in Hk. rewrite Hleaf in Hk.
    destruct (nth_error (positions n) (Z.to_nat k)) as [p|] eqn:Hp.
    2:{ apply nth_error_None in Hp. lia. }
    destruct (nth_error (content n) (Z.to_nat k)) as [e|] eqn:He.
    2:{ apply nth_error_None in He. lia. }
    exists e, p. split; [now apply nth_error_combine|].
    unfold maybeAccept. cbv zeta. now destruct (Rltb _ _).
  - pose proof (wf_children n Hwf Hleaf) as Hkids.
    apply wf_internal_iff in Hwf; [|exact Hleaf].
    destruct Hwf as (_ & _ & _ & Hsub).
    unfold size in Hk. rewrite Hleaf, Hsub in Hk. clear Hsize Hsub.
    assert (Hgen : forall offset,
      (0 <= k - offset < sumSizes (children n))%Z ->
      exists e p,
        nth_error (flat_map storedPairs (children n)) (Z.to_nat (k - offset))
        = Some (e, p) /\
        (fix loop (cs : list QuadNode) (offset : Z) : outcome sampling :=
           match cs with
           | [] => Ok st
           | c :: cs' =>
               let childsize := size c in
               if (k - offset <? childsize)%Z then
                 maybeGetKthElement prob real c upperBound euQuery
                                    (k - offset)%Z st
               else loop cs' (offset + childsize)%Z
           end) (children n) offset
        = Ok (maybeAccept prob real upperBound euQuery e p st)).
    { clear Hk. induction (children n) as [|c cs IHcs]; intros offset Ho.
      - unfold sumSizes in Ho. simpl in Ho. lia.
      - inversion IH as [|? ? IHc IHrest]; subst.
        inversion Hkids as [|? ? Hwc Hwcs]; subst.
        rewrite sumSizes_cons in Ho. cbv zeta. simpl flat_map.
        destruct (k - offset <? size c)%Z eqn:E.
        + apply Z.ltb_lt in E.
          destruct (IHc Hwc upperBound euQuery (k - offset)%Z st
                        ltac:(lia)) as (e & p & Hnth & Hcall).
          exists e, p. split; [|exact Hcall].
          rewrite nth_error_app1; [exact Hnth|].
          apply nth_error_Some. congruence.
        + apply Z.ltb_ge in E.
          destruct (IHcs IHrest Hwcs (offset + size c)%Z ltac:(lia))
            as (e & p & Hnth & Hcall).
          exists e, p. split; [|exact Hcall].
          pose proof (wf_size c Hwc) as Hsc.
          rewrite nth_error_app2 by lia.
          rewrite <- Hnth. f_equal. lia. }
    destruct (Hgen 0%Z ltac:(lia)) as (e & p & Hnth & Hcall).
    rewrite Z.sub_0_r in Hnth. exists e, p. auto.
Qed.

Lemma maybeGetKthElement_outside n :
  wf n -> forall upperBound euQuery k st,
  (k < 0 \/ size n <= k)%Z ->
  maybeGetKthElement prob real n upperBound euQuery k st = Abort.
Proof.
  induction n as [n IH] using QuadNode_induction.
  intros Hwf upperBound euQuery k st Hk.
  rewrite maybeGetKthElement_eq.
  destruct (k <? size n)%Z eqn:E; [|reflexivity].
  apply Z.ltb_lt in E. destruct Hk as [Hk | Hk]; [|lia].
  cbn [assert bind].
  destruct (isLeaf n) eqn:Hleaf.
  - now rewrite (proj2 (Z.leb_gt 0 k)) by lia.
  - pose proof (wf_children n Hwf Hleaf) as Hkids.
    destruct (wf_four n Hwf Hleaf) as (sw & se & nw & ne & Hcs).
    rewrite Hcs in *.
    inversion IH as [|? ? IHc _]; subst.
    inversion Hkids as [|? ? Hwc _]; subst.
    cbv zeta. rewrite Z.sub_0_r.
    pose proof (wf_size_nonneg sw Hwc).
    rewrite (proj2 (Z.ltb_lt k (size sw))) by lia.
    apply IHc; [exact Hwc | now left].
Qed.

(** X22.  [maybeGetKthElement] reads the subtree as one flat vector, leaf
    after leaf: for an index [k] from zero up to [size()] less one it looks
    at the [k]-th stored pair of the traversal, draws one random number, and
    appends the element when the number is below
    [prob(distance) / upperBound]; for any other index it fails. *)
Theorem maybeGetKthElement_reads_the_kth_element t upperBound euQuery k st :
  reachable t ->
  ((0 <= k < size t)%Z ->
   exists e p,
     nth_error (storedPairs t) (Z.to_nat k) = Some (e, p) /\
     maybeGetKthElement prob real t upperBound euQuery k st
     = Ok (if Rltb (real (fst st)) (prob (distance euQuery p) / upperBound)
           then (S (fst st), snd st ++ [e]) else (S (fst st), snd st))) /\
  ((k < 0 \/ size t <= k)%Z ->
   maybeGetKthElement prob real t upperBound euQuery k st = Abort).
Proof.
  intros Hr. pose proof (reachable_wf _ Hr) as Hwf. split.
  - intros Hk.
    destruct (maybeGetKthElement_kth t Hwf upperBound euQuery k st Hk)
      as (e & p & Hnth & Hcall).
    exists e, p. split; [exact Hnth|]. exact Hcall.
  - now apply maybeGetKthElement_outside.
Qed.

Lemma jump_Ok probdenom i st i1 st1 :
  (0 <= i)%Z -> jump log real probdenom i st = Ok (i1, st1) ->
  (i <= i1)%Z /\ st1 = drawn st.
Proof.
  intros Hi H. split; [exact (jump_forward log real _ _ _ _ _ Hi H)|].
  unfold jump in H. apply bind_Ok in H. destruct H as (u & _ & H).
  now injection H as _ <-.
Qed.

Lemma leafJumpLoop_bounds n euQuery distancePair probUB probdenom :
  forall fuel i ct st ct' st',
    (0 <= i)%Z ->
    leafJumpLoop prob log real n euQuery distancePair probUB probdenom
                 fuel i ct st = Ok (ct', st') ->
    exists l,
      snd st' = snd st ++ l /\ incl l (content n) /\
      (Z.of_nat (length l) <= ct' - ct)%Z /\
      (ct' - ct <= Z.max 0 (Z.of_nat (length (content n)) - i))%Z.
Proof.
  induction fuel as [|fuel IH]; intros i ct st ct' st' Hi H;
    [discriminate|].
  rewrite leafJumpLoop_eq in H. cbv zeta in H.
  destruct (i <? Z.of_nat (length (content n)))%Z eqn:Hlt; cbn [negb] in H.
  2:{ injection H as <- <-. exists []. rewrite app_nil_r.
      split; [reflexivity|]. split; [apply incl_nil_l|]. simpl. lia. }
  apply Z.ltb_lt in Hlt.
  apply bind_Ok in H. destruct H as ([i1 st1] & Hjs & H).
  cbn [fst snd] in H.
  assert (Hj : (i <= i1)%Z /\ snd st1 = snd st /\
               (Rltb probUB 1 = false -> i1 = i)).
  { destruct (Rltb probUB 1).
    - destruct (jump_Ok _ _ _ _ _ Hi Hjs) as [Hle ->].
      repeat split; [exact Hle | discriminate].
    - injection Hjs as <- <-. repeat split; lia. }
  destruct Hj as (Hle & Hst1 & Hsame).
  destruct (Rltb probUB 1 && (Z.of_nat (length (content n)) <=? i1)%Z)
    eqn:Hbreak.
  { injection H as <- <-. exists []. rewrite app_nil_r.
    split; [exact Hst1|]. split; [apply incl_nil_l|]. simpl. lia. }
  assert (Hi1 : (i1 < Z.of_nat (length (content n)))%Z).
  { destruct (Rltb probUB 1); simpl in Hbreak.
    - apply Z.leb_gt in Hbreak. lia.
    - rewrite (Hsame eq_refl). lia. }
  inv_bind H.
  destruct (nth_error (positions n) (Z.to_nat i1)) as [p|]; [|discriminate].
  inv_bind H. inv_bind H. inv_bind H.
  apply bind_Ok in H. destruct H as (st2 & Hacc & H).
  destruct (IH (i1 + 1)%Z _ _ _ _ ltac:(lia) H)
    as (l & Hl & Hincl & Hlen & Hct).
  assert (Hst2 : exists l0, snd st2 = snd st ++ l0 /\ incl l0 (content n) /\
                            (length l0 <= 1)%nat).
  { match type of Hacc with
    | (if ?b then _ else _) = _ => destruct b
    end.
    - destruct (nth_error (content n) (Z.to_nat i1)) as [c|] eqn:Hc;
        [|discriminate].
      injection Hacc as <-. exists [c]. simpl. rewrite Hst1.
      split; [reflexivity|]. split; [|lia].
      intros x [<- | []]. eapply nth_error_In; eauto.
    - injection Hacc as <-. exists []. simpl. rewrite Hst1, app_nil_r.
      split; [reflexivity|]. split; [apply incl_nil_l | lia]. }
  destruct Hst2 as (l0 & Hl0 & Hincl0 & Hlen0).
  exists (l0 ++ l). rewrite Hl, Hl0, app_assoc.
  split; [reflexivity|]. split; [now apply incl_app|].
  rewrite length_app. lia.
Qed.

Lemma directJumpLoop_bounds n euQuery probUB probdenom :
  wf n ->
  forall fuel i ct st ct' st',
    (0 <= i)%Z ->
    directJumpLoop prob log real n euQuery probUB probdenom
                   fuel i ct st = Ok (ct', st') ->
    exists l,
      snd st' = snd st ++ l /\ incl l (map fst (storedPairs n)) /\
      (Z.of_nat (length l) <= ct' - ct)%Z /\
      (ct' - ct <= Z.max 0 (size n - i))%Z.
Proof.
  intros Hwf.
  induction fuel as [|fuel IH]; intros i ct st ct' st' Hi H;
    [discriminate|].
  rewrite directJumpLoop_eq in H. cbv zeta in H.
  destruct (i <? size n)%Z eqn:Hlt; cbn [negb] in H.
  2:{ injection H as <- <-. exists []. rewrite app_nil_r.
      split; [reflexivity|]. split; [apply incl_nil_l|]. simpl. lia. }
  apply Z.ltb_lt in Hlt.
  apply bind_Ok in H. destruct H as ([i1 st1] & Hjs & H).
  cbn [fst snd] in H.
  destruct (jump_Ok _ _ _ _ _ Hi Hjs) as [Hle ->].
  destruct (i1 <? size n)%Z eqn:Hi1.
  2:{ injection H as <- <-. exists []. rewrite app_nil_r.
      split; [reflexivity|]. split; [apply incl_nil_l|]. simpl. lia. }
  apply Z.ltb_lt in Hi1.
  apply bind_Ok in H. destruct H as (st2 & Hget & H).
  destruct (maybeGetKthElement_kth n Hwf probUB euQuery i1 (drawn st)
              ltac:(lia)) as (e & p & Hnth & Hcall).
  rewrite Hcall in Hget. injection Hget as <-.
  destruct (IH (i1 + 1)%Z _ _ _ _ ltac:(lia) H)
    as (l & Hl & Hincl & Hlen & Hct).
  assert (He : In e (map fst (storedPairs n))).
  { apply nth_error_In in Hnth. change e with (fst (e, p)).
    now apply in_map. }
  unfold maybeAccept in Hl.
  match type of Hl with
  | context [if ?b then _ else _] => destruct b
  end.
  - exists (e :: l). simpl in Hl. rewrite Hl, <- app_assoc.
    split; [reflexivity|]. split; [now apply incl_cons|].
    simpl length. lia.
  - exists l. simpl in Hl. split; [exact Hl|]. split; [exact Hincl | lia].
Qed.

Lemma getElementsProbabilistically_bounds n :
  wf n -> forall euQuery st c st',
  getElementsProbabilistically prob log real n euQuery st = Ok (c, st') ->
  exists l,
    snd st' = snd st ++ l /\ incl l (map fst (storedPairs n)) /\
    (Z.of_nat (length l) <= c <= size n)%Z.
Proof.
  induction n as [n IH] using QuadNode_induction.
  intros Hwf euQuery st c st' H.
  pose proof (wf_size_nonneg n Hwf) as Hnn.
  assert (Hnone : exists l,
            snd st = snd st ++ l /\ incl l (map fst (storedPairs n)) /\
            (Z.of_nat (length l) <= 0 <= size n)%Z).
  { exists []. rewrite app_nil_r. split; [reflexivity|].
    split; [apply incl_nil_l | simpl; lia]. }
  rewrite getElementsProbabilistically_eq in H.
  apply bind_Ok in H. destruct H as (distancePair & _ & H).
  inv_bind H. cbv zeta in H.
  destruct (Reqb _ 0); [injection H as <- <-; exact Hnone|].
  destruct (Reqb _ 0); [injection H as <- <-; exact Hnone|].
  apply bind_Ok in H. destruct H as ([c0 st0] & Hr & H).
  apply bind_Ok in H. destruct H as (u & _ & H). injection H as <- <-.
  clear Hnone.
  destruct (isLeaf n) eqn:Hleaf.
  - destruct (leafJumpLoop_bounds _ _ _ _ _ _ _ _ _ _ _ (Z.le_refl 0) Hr)
      as (l & Hl & Hincl & Hlen & Hct).
    exists l. split; [exact Hl|].
    rewrite storedPairs_eq, Hleaf. unfold size. rewrite Hleaf.
    destruct Hwf as [n _ _ Hlen' _ _ | n mx my Hl']; [|congruence].
    rewrite map_fst_combine by exact Hlen'.
    split; [exact Hincl | lia].
  - destruct (selectsDirectly _ _).
    + inv_bind Hr.
      destruct (directJumpLoop_bounds _ _ _ _ Hwf _ _ _ _ _ _ (Z.le_refl 0) Hr)
        as (l & Hl & Hincl & Hlen & Hct).
      exists l. split; [exact Hl|]. split; [exact Hincl | lia].
    + pose proof (wf_children n Hwf Hleaf) as Hk.
      apply wf_internal_iff in Hwf; [|exact Hleaf].
      destruct Hwf as (_ & _ & _ & Hsub).
      rewrite storedPairs_eq, Hleaf. unfold size. rewrite Hleaf, Hsub.
      clear Hnn Hsub.
      assert (Hgen : forall a s,
        throughChildren
          (fun c acc =>
             r <- getElementsProbabilistically prob log real c euQuery
                    (snd acc) ;;
             Ok ((fst acc + fst r)%Z, snd r))
          (children n) (a, s) = Ok (c0, st0) ->
        exists l,
          snd st0 = snd s ++ l /\
          incl l (map fst (flat_map storedPairs (children n))) /\
          (Z.of_nat (length l) <= c0 - a <= sumSizes (children n))%Z).
      { clear Hr. induction (children n) as [|d cs IHcs]; intros k0 s0 Hrun.
        - simpl in Hrun. injection Hrun as <- <-. exists [].
          rewrite app_nil_r. split; [reflexivity|].
          split; [apply incl_nil_l|]. unfold sumSizes. simpl. lia.
        - inversion IH as [|? ? IHd IHrest]; subst.
          inversion Hk as [|? ? Hwd Hwcs]; subst.
          rewrite throughChildren_eq in Hrun.
          apply bind_Ok in Hrun. destruct Hrun as ([a1 s1] & Hd & Hrun).
          apply bind_Ok in Hd. destruct Hd as ([cd sd] & Hd & Hacc).
          cbn [fst snd] in Hacc, Hd. injection Hacc as <- <-.
          destruct (IHd Hwd _ _ _ _ Hd) as (l1 & Hl1 & Hincl1 & Hlen1).
          destruct (IHcs IHrest Hwcs _ _ Hrun) as (l2 & Hl2 & Hincl2 & Hlen2).
          exists (l1 ++ l2). rewrite Hl2, Hl1, app_assoc.
          split; [reflexivity|]. rewrite sumSizes_cons. simpl flat_map.
          rewrite map_app, length_app. split; [|lia].
          apply incl_app; [now apply incl_appl | now apply incl_appr]. }
      destruct (Hgen _ _ Hr) as (l & Hl & Hincl & Hlen).
      exists l. split; [exact Hl|]. split; [exact Hincl | lia].
Qed.

(** X23.  When the probabilistic query returns on a tree built by the
    operations, the vector it was given is still in front of the result,
    every element appended is a stored element, and the count returned, the
    number of candidates tested, is at least the number of elements
    appended and at most [size()]. *)
Theorem probabilistic_query_tests_and_appends t euQuery st c st' :
  reachable t ->
  getElementsProbabilistically prob log real t euQuery st = Ok (c, st') ->
  exists l,
    snd st' = snd st ++ l /\ incl l (map fst (storedPairs t)) /\
    (Z.of_nat (length l) <= c <= size t)%Z.
Proof.
  intros Hr. apply getElementsProbabilistically_bounds.
  now apply reachable_wf.
Qed.

(** X24.  An internal node that holds fewer than four elements fails the
    probabilistic query whenever the probability at its least distance
    exceeds one half: the bound is raised to one, the expected count is the
    size and below four, so the node takes the direct candidate selection,
    which starts with [assert(probUB < 1)]. *)
Theorem probabilistic_query_fails_on_small_internal_node n euQuery st
  distancePair :
  isLeaf n = false -> (size n < 4)%Z ->
  EuclideanDistances n euQuery = Ok distancePair ->
  prob (snd distancePair) <= prob (fst distancePair) ->
  0.5 < prob (fst distancePair) ->
  log (1 - 1) <> 0 ->
  getElementsProbabilistically prob log real n euQuery st = Abort.
Proof.
  intros Hleaf Hsmall Hd Hle Hhigh Hlog.
  rewrite getElementsProbabilistically_eq, Hd. cbn [bind]. cbv zeta.
  rewrite (proj2 (Rleb_true_iff _ _) Hle). cbn [assert bind].
  rewrite (proj2 (Rltb_true_iff _ _) Hhigh).
  rewrite (proj2 (Reqb_false_iff 1 0)) by lra.
  rewrite (proj2 (Reqb_false_iff _ 0) Hlog).
  rewrite Hleaf.
  assert (Hsel : selectsDirectly (trunc (1 * IZR (size n))) 1 = true).
  { apply selectsDirectly_iff. left. rewrite Rmult_1_l.
    apply IZR_lt in Hsmall. exact Hsmall. }
  rewrite Hsel.
  rewrite (proj2 (Rltb_false_iff 1 1)) by lra. reflexivity.
Qed.

Section CertainAcceptance.

Hypothesis prob_one : forall x, prob x = 1.
Hypothesis log_zero : log (1 - 1) <> 0.
Hypothesis real_below_one : forall k, real k < 1.

Lemma leafJumpLoop_certain n euQuery probdenom :
  wf n -> isLeaf n = true ->
  forall k i ct st,
    (i + k = length (content n))%nat ->
    leafJumpLoop prob log real n euQuery (distanceBounds n euQuery) 1
                 probdenom (S k) (Z.of_nat i) ct st
    = Ok ((ct + Z.of_nat k)%Z,
          ((fst st + k)%nat, snd st ++ skipn i (content n))).
Proof.
  intros Hwf Hleaf.
  destruct Hwf as [n _ _ Hlen Hresp _ | n mx my Hl']; [|congruence].
  induction k as [|k IH]; intros i ct st Hik; rewrite leafJumpLoop_eq;
    cbv zeta.
  - rewrite (proj2 (Z.ltb_ge _ _)) by lia. cbn [negb].
    rewrite skipn_all2 by lia. rewrite app_nil_r, Z.add_0_r, Nat.add_0_r.
    now destruct st.
  - rewrite (proj2 (Z.ltb_lt _ _)) by lia. cbn [negb].
    rewrite (proj2 (Rltb_false_iff 1 1)) by lra. cbn [bind fst snd andb].
    rewrite (proj2 (Z.leb_le 0 (Z.of_nat i))) by lia. cbn [assert bind].
    rewrite Nat2Z.id.
    destruct (nth_error (positions n) i) as [p|] eqn:Hp.
    2:{ apply nth_error_None in Hp. lia. }
    destruct (nth_error (content n) i) as [c|] eqn:Hc.
    2:{ apply nth_error_None in Hc. lia. }
    assert (Hrp : responsible n p = true).
    { rewrite Forall_forall in Hresp. apply Hresp.
      eapply nth_error_In; eauto. }
    rewrite (proj2 (Rleb_true_iff _ _)
               (distanceBounds_lower n euQuery p Hrp)).
    rewrite (proj2 (Rleb_true_iff _ _)
               (distanceBounds_above n euQuery p
                  (responsible_inClosedRegion n p Hrp))).
    cbn [assert bind]. rewrite prob_one.
    rewrite (proj2 (Rleb_true_iff (1 / 1) 1)) by lra. cbn [assert bind].
    rewrite (proj2 (Rltb_true_iff _ (1 / 1))).
    2:{ pose proof (real_below_one (fst st)). lra. }
    cbn [bind].
    replace (Z.of_nat i + 1)%Z with (Z.of_nat (S i)) by lia.
    rewrite (IH (S i)) by lia.
    unfold push_back, drawn. cbn [fst snd].
    do 2 f_equal; [lia|]. f_equal; [lia|].
    rewrite <- app_assoc. f_equal.
    clear -Hc. revert i Hc. induction (content n) as [|x l IHl];
      intros [|i] Hc; simpl in *; try discriminate.
    + now injection Hc as ->.
    + now apply IHl.
Qed.

Lemma getElementsProbabilistically_certain n :
  wf n -> awayFromOrigin n -> populated n ->
  forall euQuery st,
  getElementsProbabilistically prob log real n euQuery st
  = Ok (size n,
        ((fst st + length (storedPairs n))%nat,
         snd st ++ map fst (storedPairs n))).
Proof.
  induction n as [n IH] using QuadNode_induction.
  intros Hwf Haway Hpop euQuery st.
  rewrite getElementsProbabilistically_eq.
  rewrite (EuclideanDistances_awayFromOrigin n euQuery Haway).
  cbn [bind]. cbv zeta. rewrite !prob_one.
  rewrite (proj2 (Rleb_true_iff 1 1)) by lra. cbn [assert bind].
  rewrite (proj2 (Rltb_true_iff 0.5 1)) by lra.
  rewrite (proj2 (Reqb_false_iff 1 0)) by lra.
  rewrite (proj2 (Reqb_false_iff _ 0) log_zero).
  rewrite (proj2 (Reqb_true_iff 1 1) eq_refl).
  pose proof (wf_size n Hwf) as Hsize.
  rewrite storedPairs_eq in *.
  destruct (isLeaf n) eqn:Hleaf.
  - change 0%Z with (Z.of_nat 0) at 1.
    rewrite (leafJumpLoop_certain n euQuery _ Hwf Hleaf) by lia.
    cbn [bind fst snd skipn].
    destruct Hwf as [n _ _ Hlen _ _ | n mx my Hl']; [|congruence].
    rewrite map_fst_combine by exact Hlen.
    rewrite length_combine, <- Hlen, Nat.min_id.
    unfold size. rewrite Hleaf.
    rewrite length_app, Nat2Z.inj_add, Z.eqb_refl. reflexivity.
  - pose proof (wf_children n Hwf Hleaf) as Hk.
    pose proof (awayFromOrigin_children n Hwf Hleaf Haway) as Hac.
    destruct Hpop as [n Hl' | n _ Hfour Hpc]; [congruence|].
    assert (Hsel : selectsDirectly (trunc (1 * IZR (size n))) 1 = false).
    { destruct (selectsDirectly _ _) eqn:E; [|reflexivity].
      apply selectsDirectly_iff in E. rewrite Rmult_1_l in E.
      apply IZR_le in Hfour. lra. }
    rewrite Hsel.
    apply wf_internal_iff in Hwf; [|exact Hleaf].
    destruct Hwf as (_ & _ & _ & Hsub).
    unfold size in Hsize |- *. rewrite Hleaf in *. rewrite Hsub in *.
    assert (Hgen : forall cs,
      Forall (fun n => wf n -> awayFromOrigin n -> populated n ->
                forall euQuery st,
                getElementsProbabilistically prob log real n euQuery st
                = Ok (size n,
                      ((fst st + length (storedPairs n))%nat,
                       snd st ++ map fst (storedPairs n)))) cs ->
      Forall wf cs -> Forall awayFromOrigin cs -> Forall populated cs ->
      forall k0 s0,
      throughChildren
        (fun c acc =>
           r <- getElementsProbabilistically prob log real c euQuery
                  (snd acc) ;;
           Ok ((fst acc + fst r)%Z, snd r))
        cs (k0, s0)
      = Ok ((k0 + sumSizes cs)%Z,
            ((fst s0 + length (flat_map storedPairs cs))%nat,
             snd s0 ++ map fst (flat_map storedPairs cs)))).
    { clear. induction cs as [|c cs IHcs]; intros IH Hk Hac Hpc k0 s0.
      - simpl. unfold sumSizes. simpl.
        rewrite Z.add_0_r, Nat.add_0_r, app_nil_r. now destruct s0.
      - inversion IH as [|? ? IHc IHrest]; subst.
        inversion Hk as [|? ? Hwc Hwcs]; subst.
        inversion Hac as [|? ? Hawc Hawcs]; subst.
        inversion Hpc as [|? ? Hpopc Hpopcs]; subst.
        rewrite throughChildren_eq. cbn [snd fst].
        rewrite (IHc Hwc Hawc Hpopc). cbn [bind fst snd].
        rewrite (IHcs IHrest Hwcs Hawcs Hpopcs). cbn [fst snd].
        rewrite sumSizes_cons. simpl flat_map.
        rewrite map_app, length_app, app_assoc.
        do 2 f_equal; [lia|]. f_equal. lia. }
    rewrite (Hgen _ IH Hk Hac Hpc). cbn [bind fst snd].
    rewrite length_app, length_map, Nat2Z.inj_add, <- Hsize, Z.add_0_l.
    rewrite Z.eqb_refl. reflexivity.
Qed.

Lemma getElementsProbabilistically_certain_returned n :
  wf n -> forall euQuery st c st',
  getElementsProbabilistically prob log real n euQuery st = Ok (c, st') ->
  c = size n /\
  st' = ((fst st + length (storedPairs n))%nat,
         snd st ++ map fst (storedPairs n)).
Proof.
  induction n as [n IH] using QuadNode_induction.
  intros Hwf euQuery st c st' H.
  rewrite getElementsProbabilistically_eq in H.
  apply bind_Ok in H. destruct H as (mm & Hmm & H).
  destruct (EuclideanDistances_Ok _ _ _ Hmm) as (-> & _ & _).
  inv_bind H. cbv zeta in H. rewrite !prob_one in H.
  rewrite (proj2 (Rltb_true_iff 0.5 1)) in H by lra.
  rewrite (proj2 (Reqb_false_iff 1 0)) in H by lra.
  rewrite (proj2 (Reqb_false_iff _ 0) log_zero) in H.
  apply bind_Ok in H. destruct H as ([c0 st0] & Hr & H).
  apply bind_Ok in H. destruct H as (u & _ & H). injection H as <- <-.
  pose proof (wf_size n Hwf) as Hsize.
  rewrite storedPairs_eq in *.
  destruct (isLeaf n) eqn:Hleaf.
  - change 0%Z with (Z.of_nat 0) in Hr at 1.
    rewrite (leafJumpLoop_certain n euQuery _ Hwf Hleaf) in Hr by lia.
    injection Hr as <- <-. cbn [skipn].
    destruct Hwf as [n _ _ Hlen _ _ | n mx my Hl']; [|congruence].
    rewrite map_fst_combine by exact Hlen.
    rewrite length_combine, <- Hlen, Nat.min_id.
    unfold size. rewrite Hleaf. split; [lia | reflexivity].
  - destruct (selectsDirectly _ _).
    { rewrite (proj2 (Rltb_false_iff 1 1)) in Hr by lra. discriminate. }
    pose proof (wf_children n Hwf Hleaf) as Hk.
    apply wf_internal_iff in Hwf; [|exact Hleaf].
    destruct Hwf as (_ & _ & _ & Hsub).
    unfold size in Hsize |- *. rewrite Hleaf in *. rewrite Hsub in *.
    assert (Hgen : forall cs,
      Forall (fun n => wf n -> forall euQuery st c st',
                getElementsProbabilistically prob log real n euQuery st
                = Ok (c, st') ->
                c = size n /\
                st' = ((fst st + length (storedPairs n))%nat,
                       snd st ++ map fst (storedPairs n))) cs ->
      Forall wf cs ->
      forall k0 s0 r,
      throughChildren
        (fun c acc =>
           r <- getElementsProbabilistically prob log real c euQuery
                  (snd acc) ;;
           Ok ((fst acc + fst r)%Z, snd r))
        cs (k0, s0) = Ok r ->
      r = ((k0 + sumSizes cs)%Z,
           ((fst s0 + length (flat_map storedPairs cs))%nat,
            snd s0 ++ map fst (flat_map storedPairs cs)))).
    { clear. induction cs as [|d cs IHcs]; intros IH Hk k0 s0 r Hrun.
      - simpl in Hrun. injection Hrun as <-. unfold sumSizes. simpl.
        rewrite Z.add_0_r, Nat.add_0_r, app_nil_r. now destruct s0.
      - inversion IH as [|? ? IHd IHrest]; subst.
        inversion Hk as [|? ? Hwd Hwcs]; subst.
        rewrite throughChildren_eq in Hrun.
        apply bind_Ok in Hrun. destruct Hrun as ([k1 s1] & Hd & Hrun).
        apply bind_Ok in Hd. destruct Hd as ([cd sd] & Hd & Hacc).
        cbn [fst snd] in Hacc, Hd. injection Hacc as <- <-.
        destruct (IHd Hwd _ _ _ _ Hd) as (-> & ->).
        rewrite (IHcs IHrest Hwcs _ _ _ Hrun). cbn [fst snd].
        rewrite sumSizes_cons. simpl flat_map.
        rewrite map_app, length_app.
        f_equal; [lia|]. f_equal; [lia|]. now rewrite app_assoc. }
    pose proof (Hgen _ IH Hk _ _ _ Hr) as E. injection E as -> ->.
    split; [lia | reflexivity].
Qed.

(** X25.  With a probability function that is one everywhere, a
    probabilistic query that returns is a listing: it has tested every
    stored element once, the count it returns is [size()], it has drawn one
    random number for each element, and it has appended all of them, in the
    order of [getElements]. *)
Theorem certain_acceptance_returns_every_element t euQuery st c st' :
  reachable t ->
  getElementsProbabilistically prob log real t euQuery st = Ok (c, st') ->
  c = size t /\
  st' = ((fst st + length (storedPairs t))%nat,
         snd st ++ map fst (storedPairs t)).
Proof.
  intros Hr. apply getElementsProbabilistically_certain_returned.
  now apply reachable_wf.
Qed.

End CertainAcceptance.

End ProbabilisticResults.

Lemma maybeGetKthElement_reads_the_kth_element_witness :
  ((0 <= 1 < size threeInSquare)%Z ->
   exists e p,
     nth_error (storedPairs threeInSquare) (Z.to_nat 1) = Some (e, p) /\
     maybeGetKthElement (fun _ => 1) (fun _ => 0) threeInSquare 1
                        (mkPoint 0 0) 1 (O, [])
     = Ok (if Rltb 0 (1 / 1) then (1%nat, [] ++ [e]) else (1%nat, []))) /\
  ((1 < 0 \/ size threeInSquare <= 1)%Z ->
   maybeGetKthElement (fun _ => 1) (fun _ => 0) threeInSquare 1
                      (mkPoint 0 0) 1 (O, []) = Abort).
Proof.
  exact (maybeGetKthElement_reads_the_kth_element (fun _ => 1) (fun _ => 0)
           threeInSquare 1 (mkPoint 0 0) 1 (O, []) threeInSquare_reachable).
Defined.

Lemma probabilistic_query_fails_on_small_internal_node_witness :
  getElementsProbabilistically (fun _ => 1) (fun _ => -1) (fun _ => 0)
    splitSquare origin (O, []) = Abort.
Proof.
  apply (probabilistic_query_fails_on_small_internal_node
           (fun _ => 1) (fun _ => -1) (fun _ => 0)
           splitSquare origin (O, []) (distanceBounds splitSquare origin)).
  - reflexivity.
  - reflexivity.
  - exact (proj1 splitSquare_bounds_at_origin).
  - lra.
  - lra.
  - lra.
Defined.

Lemma unitCell_certain st :
  getElementsProbabilistically (fun _ => 1) (fun _ => -1) (fun _ => 0)
    unitCell (mkPoint 0 0) st
  = Ok (1%Z, ((fst st + 1)%nat, snd st ++ [7%Z])).
Proof.
  apply (getElementsProbabilistically_certain (fun _ => 1) (fun _ => -1)
           (fun _ => 0)); try (intros; lra).
  - exact (reachable_wf _ unitCell_reachable).
  - exact unitCell_awayFromOrigin.
  - now apply populated_leaf.
Qed.

Lemma probabilistic_query_tests_and_appends_witness :
  exists l,
    snd (1%nat, [3%Z] ++ [7%Z]) = snd (O, [3%Z]) ++ l /\
    incl l (map fst (storedPairs unitCell)) /\
    (Z.of_nat (length l) <= 1 <= size unitCell)%Z.
Proof.
  exact (probabilistic_query_tests_and_appends (fun _ => 1) (fun _ => -1)
           (fun _ => 0) unitCell (mkPoint 0 0) (O, [3%Z]) 1%Z
           (1%nat, [3%Z] ++ [7%Z]) unitCell_reachable
           (unitCell_certain (O, [3%Z]))).
Defined.

Lemma fourInUnit_certain st :
  getElementsProbabilistically (fun _ => 1) (fun _ => -1) (fun _ => 0)
    fourInUnit (mkPoint (1 / 2) (1 / 2)) st
  = Ok (4%Z, ((fst st + 4)%nat, snd st ++ [1; 2; 3; 4]%Z)).
Proof.
  apply (getElementsProbabilistically_certain (fun _ => 1) (fun _ => -1)
           (fun _ => 0)); try (intros; lra).
  - exact (reachable_wf _ fourInUnit_reachable).
  - exact fourInUnit_awayFromOrigin.
  - exact fourInUnit_populated.
Qed.

Lemma certain_acceptance_returns_every_element_witness :
  4%Z = size fourInUnit /\
  ((fst (O, [9%Z]) + 4)%nat, snd (O, [9%Z]) ++ [1; 2; 3; 4]%Z)
  = ((fst (O, [9%Z]) + length (storedPairs fourInUnit))%nat,
     snd (O, [9%Z]) ++ map fst (storedPairs fourInUnit)).
Proof.
  apply (certain_acceptance_returns_every_element (fun _ => 1) (fun _ => -1)
           (fun _ => 0)) with (euQuery := mkPoint (1 / 2) (1 / 2));
    try (intros; lra).
  - exact fourInUnit_reachable.
  - exact (fourInUnit_certain (O, [9%Z])).
Defined.

(** ** Insertion into a leaf that has room *)

Lemma height_child n c : In c (children n) -> (height c + 1 <= height n)%Z.
Proof.
  rewrite (height_eq n).
  assert (Hgen : forall cs acc,
    (acc <= fold_left (fun result child => Z.max result (height child + 1))
                      cs acc)%Z /\
    (In c cs ->
     (height c + 1
      <= fold_left (fun result child => Z.max result (height child + 1))
                   cs acc)%Z)).
  { induction cs as [|d cs IH]; intros acc; simpl.
    - split; [lia | contradiction].
    - destruct (IH (Z.max acc (height d + 1))) as [Hle Hin].
      split; [lia|]. intros [-> | Hc]; [lia | auto]. }
  intros Hin. now apply Hgen.
Qed.

Lemma height_positive n : (1 <= height n)%Z.
Proof.
  rewrite height_eq. generalize 1%Z at 1 3.
  induction (children n) as [|d cs IH]; intros acc; simpl; [lia|].
  specialize (IH (Z.max acc (height d + 1))). lia.
Qed.

Lemma leaf_in_charge_of_child n pos l :
  wf n -> isLeaf n = false ->
  filter (fun l => responsible l pos) (leaves n) = [l] ->
  exists before c after,
    children n = before ++ c :: after /\
    Forall (fun d => responsible d pos = false) before /\
    responsible c pos = true /\
    filter (fun l => responsible l pos) (leaves c) = [l] /\
    filter (fun l => responsible l pos) (flat_map leaves before) = [] /\
    filter (fun l => responsible l pos) (flat_map leaves after) = [].
Proof.
  intros Hwf Hleaf Hfl.
  assert (Hresp : responsible n pos = true).
  { destruct (responsible n pos) eqn:E; [reflexivity|].
    rewrite (no_leaf_outside n pos Hwf E) in Hfl. discriminate. }
  pose proof (wf_children n Hwf Hleaf) as Hk.
  destruct (responsible_child n pos Hwf Hleaf Hresp)
    as (before & c & after & Hcs & Hb & Hc & Ha & _).
  rewrite leaves_eq, Hleaf, Hcs, flat_map_app, filter_app in Hfl.
  simpl in Hfl. rewrite filter_app in Hfl.
  rewrite Hcs in Hk. apply Forall_app in Hk. destruct Hk as [Hkb Hk].
  inversion Hk as [|? ? Hkc Hka]; subst.
  assert (Eb : filter (fun l => responsible l pos) (flat_map leaves before)
               = []).
  { apply filter_flat_map_none. rewrite Forall_forall in *.
    intros d Hd. apply no_leaf_outside; auto. }
  assert (Ea : filter (fun l => responsible l pos) (flat_map leaves after)
               = []).
  { apply filter_flat_map_none. rewrite Forall_forall in *.
    intros d Hd. apply no_leaf_outside; auto. }
  rewrite Eb, Ea, app_nil_r in Hfl. simpl in Hfl.
  exists before, c, after. repeat split; auto.
Qed.

Lemma addContent_room input pos n :
  belowSanityLimit input = true ->
  wf n -> forall l fuel,
  filter (fun l => responsible l pos) (leaves n) = [l] ->
  (Z.of_nat (length (content l)) + 1 < capacity l)%Z ->
  (height n <= Z.of_nat fuel)%Z ->
  exists n' before after,
    addContent fuel input pos n = Ok n' /\
    leaves n = before ++ l :: after /\
    leaves n'
    = before ++ setBuffers l (content l ++ [input]) (positions l ++ [pos])
             :: after.
Proof.
  intros Hsane.
  induction n as [n IH] using QuadNode_induction.
  intros Hwf l fuel Hfl Hroom Hfuel.
  pose proof (height_positive n) as Hpos.
  destruct fuel as [|fuel]; [lia|].
  assert (Hresp : responsible n pos = true).
  { destruct (responsible n pos) eqn:E; [reflexivity|].
    rewrite (no_leaf_outside n pos Hwf E) in Hfl. discriminate. }
  rewrite addContent_eq, Hsane, Hresp. cbn [assert bind].
  destruct (isLeaf n) eqn:Hleaf.
  - rewrite leaves_eq, Hleaf in Hfl |- *. simpl in Hfl.
    rewrite Hresp in Hfl. injection Hfl as <-.
    destruct Hwf as [n _ _ Hlen _ _ | n mx my Hl']; [|congruence].
    rewrite (proj2 (Nat.eqb_eq _ _) Hlen). cbn [assert bind].
    rewrite (proj2 (Z.ltb_lt _ _) Hroom).
    eexists. exists [], []. split; [reflexivity|]. split; [reflexivity|].
    rewrite leaves_eq. simpl. now rewrite Hleaf.
  - destruct (leaf_in_charge_of_child n pos l Hwf Hleaf Hfl)
      as (bc & c & ac & Hcs & Hb & Hc & Hflc & _ & _).
    pose proof (wf_children n Hwf Hleaf) as Hk.
    assert (Hin : In c (children n))
      by (rewrite Hcs; apply in_or_app; right; now left).
    pose proof (height_child n c Hin) as Hh.
    rewrite Forall_forall in IH, Hk.
    destruct (IH c Hin (Hk c Hin) l fuel Hflc Hroom ltac:(lia))
      as (c' & b & a & Hadd & Hlc & Hlc').
    rewrite (wf_internal_children n Hwf Hleaf). cbn [assert bind].
    apply wf_internal_iff in Hwf; [|exact Hleaf].
    destruct Hwf as (_ & Hcn & Hpn & _).
    rewrite Hcn, Hpn. cbn [length Nat.eqb assert bind].
    rewrite Hcs, (addToResponsibleChild_at _ _ _ _ _ Hb Hc), Hadd.
    cbn [bind].
    eexists. exists (flat_map leaves bc ++ b), (a ++ flat_map leaves ac).
    split; [reflexivity|]. split.
    + rewrite leaves_eq, Hleaf, Hcs, flat_map_app. simpl.
      rewrite Hlc, <- !app_assoc. reflexivity.
    + rewrite leaves_eq. cbn [isLeaf children setSubTreeSize setChildren].
      rewrite flat_map_app. simpl.
      rewrite Hlc', <- !app_assoc. reflexivity.
Qed.

(** X27.  An insertion that finds room succeeds without changing the shape
    of the tree.  When the identifier passes the sanity check and the leaf
    in charge of the position holds fewer than [capacity - 1] elements, the
    call returns, given fuel for the height of the tree; the leaf has the
    pair appended to its buffers, and the other leaves are as before. *)
Theorem addContent_appends_where_there_is_room t input pos l fuel :
  reachable t ->
  belowSanityLimit input = true ->
  filter (fun l => responsible l pos) (leaves t) = [l] ->
  (Z.of_nat (length (content l)) + 1 < capacity l)%Z ->
  (height t <= Z.of_nat fuel)%Z ->
  exists t' before after,
    addContent fuel input pos t = Ok t' /\
    leaves t = before ++ l :: after /\
    leaves t'
    = before ++ setBuffers l (content l ++ [input]) (positions l ++ [pos])
             :: after.
Proof.
  intros Hr Hsane. apply addContent_room; [exact Hsane|].
  now apply reachable_wf.
Qed.

Lemma addContent_appends_where_there_is_room_witness :
  exists t' before after,
    addContent 2 4%Z (mkPoint (-1 / 2) (1 / 2)) threeInSquare = Ok t' /\
    leaves threeInSquare
    = before ++ leafOf (mkPoint (-1) 0) (mkPoint 0 1) 2 [] [] :: after /\
    leaves t'
    = before
      ++ setBuffers (leafOf (mkPoint (-1) 0) (mkPoint 0 1) 2 [] [])
                    (content (leafOf (mkPoint (-1) 0) (mkPoint 0 1) 2 [] [])
                     ++ [4%Z])
                    (positions (leafOf (mkPoint (-1) 0) (mkPoint 0 1) 2 [] [])
                     ++ [mkPoint (-1 / 2) (1 / 2)])
      :: after.
Proof.
  apply (addContent_appends_where_there_is_room threeInSquare 4%Z
           (mkPoint (-1 / 2) (1 / 2))
           (leafOf (mkPoint (-1) 0) (mkPoint 0 1) 2 [] []) 2
           threeInSquare_reachable).
  - reflexivity.
  - simpl. unfold responsible. simpl. now rdecide.
  - simpl. lia.
  - simpl. lia.
Defined.

(** ** Points of any dimension *)

Lemma sumSquaredDiffs_acc p : forall q dist,
  Point.sumSquaredDiffs p q dist = dist + Point.sumSquaredDiffs p q 0.
Proof.
  induction p as [|x p IH]; intros [|y q] dist; simpl; try lra.
  rewrite (IH q (dist + _)), (IH q (0 + _)). lra.
Qed.

Lemma sumSquaredDiffs_nonneg p : forall q,
  0 <= Point.sumSquaredDiffs p q 0.
Proof.
  induction p as [|x p IH]; intros [|y q]; simpl; try lra.
  rewrite sumSquaredDiffs_acc. specialize (IH q).
  pose proof (Rle_0_sqr (x - y)). unfold Rsqr in *. lra.
Qed.

Lemma sumSquaredDiffs_sym p : forall q dist,
  Point.sumSquaredDiffs p q dist = Point.sumSquaredDiffs q p dist.
Proof.
  induction p as [|x p IH]; intros [|y q] dist; simpl; try reflexivity.
  rewrite IH. f_equal. ring.
Qed.

Lemma sumSquaredDiffs_zero p : forall q,
  length p = length q -> Point.sumSquaredDiffs p q 0 = 0 -> p = q.
Proof.
  induction p as [|x p IH]; intros [|y q] Hlen H; simpl in *;
    try discriminate; [reflexivity|].
  rewrite sumSquaredDiffs_acc in H.
  pose proof (sumSquaredDiffs_nonneg p q).
  pose proof (Rle_0_sqr (x - y)) as Hsq. unfold Rsqr in Hsq.
  assert (Hxy : (x - y) * (x - y) = 0) by lra.
  apply Rmult_integral in Hxy.
  f_equal; [destruct Hxy; lra|].
  apply IH; [congruence | lra].
Qed.

Lemma sumSquaredDiffs_self p : Point.sumSquaredDiffs p p 0 = 0.
Proof.
  induction p as [|x p IH]; simpl; [reflexivity|].
  rewrite sumSquaredDiffs_acc, IH. ring.
Qed.

(** X28.  [Point<T>::distance] of [Point.h].  Points of different
    dimensions fail the assertion of [squaredDistance].  For points of one
    dimension the call returns, the distance is the root of the squared
    distance, it does not depend on the order of the two points, it is not
    negative, and it is zero exactly when the points are equal. *)
Theorem Point_distance_separates_points p q :
  (length p <> length q ->
   Point.squaredDistance p q = Abort /\ Point.distance p q = Abort) /\
  (length p = length q ->
   exists d,
     Point.distance p q = Ok d /\ Point.distance q p = Ok d /\
     Point.squaredDistance p q = Ok (d * d) /\
     0 <= d /\ (d = 0 <-> p = q)).
Proof.
  unfold Point.distance, Point.squaredDistance. split.
  - intros Hne. apply Nat.eqb_neq in Hne. now rewrite Hne.
  - intros Hlen. rewrite Hlen, Nat.eqb_refl. cbn [assert bind].
    pose proof (sumSquaredDiffs_nonneg p q) as Hnn.
    exists (sqrt (Point.sumSquaredDiffs p q 0)).
    split; [reflexivity|]. split; [now rewrite sumSquaredDiffs_sym|].
    split; [now rewrite sqrt_sqrt|]. split; [apply sqrt_pos|].
    split.
    + intros H0. apply sumSquaredDiffs_zero; [exact Hlen|].
      now apply sqrt_eq_0.
    + intros ->. rewrite sumSquaredDiffs_self. apply sqrt_0.
Qed.

Lemma sumSquares_acc p : forall len,
  fold_left (fun len diff => len + diff * diff) p len
  = len + fold_left (fun len diff => len + diff * diff) p 0.
Proof.
  induction p as [|x p IH]; intros len; simpl; [lra|].
  rewrite (IH (len + _)), (IH (0 + _)). lra.
Qed.

Lemma sumSquares_nonneg p :
  0 <= fold_left (fun len diff => len + diff * diff) p 0.
Proof.
  induction p as [|x p IH]; simpl; [lra|].
  rewrite sumSquares_acc.
  pose proof (Rle_0_sqr x). unfold Rsqr in *. lra.
Qed.

Lemma sumSquares_scale p factor :
  fold_left (fun len diff => len + diff * diff)
            (map (fun x => x * factor) p) 0
  = factor * factor * fold_left (fun len diff => len + diff * diff) p 0.
Proof.
  induction p as [|x p IH]; simpl; [lra|].
  rewrite sumSquares_acc, IH, (sumSquares_acc p (0 + _)). ring.
Qed.

Lemma sumSquaredDiffs_scale p factor : forall q,
  Point.sumSquaredDiffs (map (fun x => x * factor) p)
                        (map (fun x => x * factor) q) 0
  = factor * factor * Point.sumSquaredDiffs p q 0.
Proof.
  induction p as [|x p IH]; intros [|y q]; simpl; try lra.
  rewrite sumSquaredDiffs_acc, IH, (sumSquaredDiffs_acc p q (0 + _)). ring.
Qed.

Lemma sqrt_scaled factor s :
  0 <= s -> sqrt (factor * factor * s) = Rabs factor * sqrt s.
Proof.
  intros Hs. rewrite sqrt_mult; [|apply Rle_0_sqr | exact Hs].
  f_equal. apply sqrt_Rsqr_abs.
Qed.

(** X29.  [Point<T>::scale] multiplies the length by the absolute value of
    the factor and keeps the dimension; the distance of two points of one
    dimension is multiplied in the same way when both are scaled. *)
Theorem Point_scale_scales_lengths p q factor :
  Point.getDimensions (Point.scale p factor) = Point.getDimensions p /\
  Point.length (Point.scale p factor) = Rabs factor * Point.length p /\
  (length p = length q ->
   exists d,
     Point.distance p q = Ok d /\
     Point.distance (Point.scale p factor) (Point.scale q factor)
     = Ok (Rabs factor * d)).
Proof.
  unfold Point.getDimensions, Point.scale, Point.length.
  split; [now rewrite length_map|]. split.
  - rewrite sumSquares_scale. apply sqrt_scaled, sumSquares_nonneg.
  - intros Hlen. unfold Point.distance, Point.squaredDistance.
    rewrite !length_map, Hlen, Nat.eqb_refl. cbn [assert bind].
    eexists. split; [reflexivity|].
    rewrite sumSquaredDiffs_scale. f_equal.
    apply sqrt_scaled, sumSquaredDiffs_nonneg.
Qed.

Lemma replaceAt_length p : forall i value,
  length (Point.replaceAt p i value) = length p.
Proof.
  induction p as [|x p IH]; intros [|i] value; simpl; auto.
Qed.

Lemma replaceAt_same p : forall i value,
  (i < length p)%nat -> nth_error (Point.replaceAt p i value) i = Some value.
Proof.
  induction p as [|x p IH]; intros [|i] value Hi; simpl in *; try lia;
    [reflexivity|].
  apply IH. lia.
Qed.

Lemma replaceAt_other p : forall i j value,
  i <> j -> nth_error (Point.replaceAt p i value) j = nth_error p j.
Proof.
  induction p as [|x p IH]; intros [|i] [|j] value Hij; simpl;
    try reflexivity; try congruence.
  apply IH. congruence.
Qed.

Lemma at_inside p dim :
  (0 <= dim < Point.getDimensions p)%Z ->
  exists v, Point.at_ p dim = Some v.
Proof.
  unfold Point.at_, Point.getDimensions. intros Hd.
  rewrite (proj2 (Z.ltb_ge dim 0)) by lia.
  destruct (nth_error p (Z.to_nat dim)) as [v|] eqn:E; [eauto|].
  apply nth_error_None in E. lia.
Qed.

Lemma at_outside p dim :
  (dim < 0 \/ Point.getDimensions p <= dim)%Z -> Point.at_ p dim = None.
Proof.
  unfold Point.at_, Point.getDimensions. intros Hd.
  destruct (dim <? 0)%Z eqn:E; [reflexivity|].
  apply Z.ltb_ge in E. apply nth_error_None. lia.
Qed.

(** X30.  [Point<T>::setValue] and [getValue] of [Point.h].  Inside the
    vector, [setValue] returns, [getValue] at the same coordinate reads the
    value written, every other coordinate reads as before, and the dimension
    is the same.  Outside the vector, at a negative coordinate or one from
    the dimension on, both calls end with the exception of [at]. *)
Theorem Point_setValue_then_getValue p dim value :
  ((0 <= dim < Point.getDimensions p)%Z ->
   exists p',
     Point.setValue p dim value = Ok p' /\
     Point.getValue p' dim = Ok value /\
     Point.getDimensions p' = Point.getDimensions p /\
     forall other, other <> dim ->
                   Point.getValue p' other = Point.getValue p other) /\
  ((dim < 0 \/ Point.getDimensions p <= dim)%Z ->
   Point.setValue p dim value = Abort /\ Point.getValue p dim = Abort).
Proof.
  split.
  - intros Hd. destruct (at_inside p dim Hd) as (v & Hv).
    unfold Point.setValue, Point.getValue. rewrite Hv.
    eexists. split; [reflexivity|].
    unfold Point.getDimensions in *. rewrite replaceAt_length.
    split; [|split; [reflexivity|]].
    + unfold Point.at_. rewrite (proj2 (Z.ltb_ge dim 0)) by lia.
      rewrite replaceAt_same by lia. reflexivity.
    + intros other Hother. unfold Point.at_.
      destruct (other <? 0)%Z eqn:E; [reflexivity|].
      apply Z.ltb_ge in E. rewrite replaceAt_other; [reflexivity|].
      intros Heq. apply Hother. lia.
  - intros Hd. unfold Point.setValue, Point.getValue.
    now rewrite (at_outside p dim Hd).
Qed.

(** ** What is left of the two classes *)

(** [trim] gives spare room back and nothing else: the node is the same. *)
Lemma trim_changes_nothing n : trim n = n.
Proof.
  induction n as [n IH] using QuadNode_induction.
  destruct n as [a b c d cap sz co po lf th i cs]. simpl in *.
  unfold shrink_to_fit. destruct lf; simpl; [reflexivity|].
  unfold setChildren, setBuffers. simpl. f_equal.
  induction cs as [|x cs IHcs]; [reflexivity|].
  inversion IH as [|? ? Hx Hcs]; subst. simpl.
  now rewrite Hx, (IHcs Hcs).
Qed.

(** [operator+=] adds coordinate by coordinate, in either order. *)
Lemma plusAssign_adds_coordinates p q :
  length p = length q ->
  exists r,
    Point.plusAssign p q = Ok r /\ Point.plusAssign q p = Ok r /\
    length r = length p /\
    forall i a b, nth_error p i = Some a -> nth_error q i = Some b ->
                  nth_error r i = Some (a + b).
Proof.
  intros Hlen. unfold Point.plusAssign.
  rewrite Hlen, Nat.eqb_refl. cbn [assert bind].
  exists (Point.addCoordinates p q). split; [reflexivity|].
  revert q Hlen. induction p as [|x p IH]; intros [|y q] Hlen;
    simpl in *; try discriminate.
  - repeat split. intros [|i]; discriminate.
  - injection Hlen as Hlen. destruct (IH q Hlen) as (H1 & H2 & H3).
    injection H1 as H1. split; [|split].
    + f_equal. rewrite H1. f_equal. ring.
    + now rewrite H2.
    + intros [|i] a b Ha Hb; simpl in *.
      * injection Ha as <-. injection Hb as <-. reflexivity.
      * eauto.
Qed.

(** At dimension two the arithmetic of [Point<T>] is the one used for
    [Point2D]. *)
Lemma Point2D_follows_Point x y x' y' :
  Point.distance [x; y] [x'; y']
  = Ok (distance (mkPoint x y) (mkPoint x' y')) /\
  Point.length [x; y] = length2D (mkPoint x y).
Proof. split; reflexivity. Qed.
